(** * ascii-cube-render: a shallow embedding of [cubev1.c]

    The renderer is a single C file.  Its values are modelled as follows.

    - [double] is the type [R] of real numbers of the Standard Library:
      arithmetic is exact, so rounding, infinities and NaN are outside this
      model.  [sqrt], [sin], [cos], [fmax], [fmin], [fabs], [floor] and
      [ceil] are [sqrt], [sin], [cos], [Rmax], [Rmin], [Rabs], [Zfloor] and
      [Zceil]; a comparison is the corresponding decision ([Rgt_dec], ...).
      Where a property depends on the rounding (the bias of the bottom
      slot, the edge functions of [fill_tri]) the expressions are evaluated
      a second time in binary64, on primitive floats: [put_pixel64],
      [project64], [fill_sample64].
    - [int] is [Z]; signed overflow and the conversion of an out-of-range
      double are undefined in C and do not occur in this model.  [/] and [%]
      on [int] are [Z.quot] and [Z.rem].  The line walk is given a second
      time on 32-bit [int] ([draw_line32], [render_cube32],
      [main_step32]), where it is shown to be the walk over [Z] for every
      frame the program can reach.  A framebuffer has [width * height]
      cells for dimensions that are not negative ([buf_size]).
    - [uint8_t] colour channels are integers in [0..255].
    - The globals [buf], [zoom], [time_global], [rot_x], [rot_y], [rot_z]
      are passed explicitly, and a function that writes [buf] returns the
      new buffer.  The four heap arrays of the framebuffer are lists, read
      with [nth] and written with [upd].
    - The only unbounded loop, [while (1)] in [draw_line], takes a bound on
      its number of passes and returns [None] when the bound is reached. *)

From Stdlib Require Import Reals Lra Lia ZArith List Bool Permutation.
From Stdlib Require Import Ascii.
From Stdlib Require PrimFloat SpecFloat FloatOps FloatAxioms.
Import ListNotations.

Open Scope R_scope.

(** ** Vectors and colours *)

Record Vec3 : Type := mkVec3 { vx : R; vy : R; vz : R }.
Record Color : Type := mkColor { cr : Z; cg : Z; cb : Z }.

Definition v3 (x y z : R) : Vec3 := mkVec3 x y z.

Definition add (a b : Vec3) : Vec3 :=
  v3 (vx a + vx b) (vy a + vy b) (vz a + vz b).

Definition sub (a b : Vec3) : Vec3 :=
  v3 (vx a - vx b) (vy a - vy b) (vz a - vz b).

Definition scale (v : Vec3) (s : R) : Vec3 :=
  v3 (vx v * s) (vy v * s) (vz v * s).

Definition dot (a b : Vec3) : R :=
  vx a * vx b + vy a * vy b + vz a * vz b.

Definition cross (a b : Vec3) : Vec3 :=
  v3 (vy a * vz b - vz a * vy b)
     (vz a * vx b - vx a * vz b)
     (vx a * vy b - vy a * vx b).

Definition length (v : Vec3) : R := sqrt (dot v v).

Definition normalize (v : Vec3) : Vec3 :=
  let len := length v in
  if Rgt_dec len 1e-8 then scale v (1 / len) else v3 0 0 0.

Definition rot_x_apply (v : Vec3) (a : R) : Vec3 :=
  let c := cos a in let s := sin a in
  let y := vy v * c - vz v * s in
  let z := vy v * s + vz v * c in
  mkVec3 (vx v) y z.

Definition rot_y_apply (v : Vec3) (a : R) : Vec3 :=
  let c := cos a in let s := sin a in
  let x := vx v * c + vz v * s in
  let z := - vx v * s + vz v * c in
  mkVec3 x (vy v) z.

Definition rot_z_apply (v : Vec3) (a : R) : Vec3 :=
  let c := cos a in let s := sin a in
  let x := vx v * c - vy v * s in
  let y := vx v * s + vy v * c in
  mkVec3 x y (vz v).

(** [(int)d]: conversion of a double to an integer truncates toward zero. *)
Definition trunc (d : R) : Z :=
  if Rle_dec 0 d then Zfloor d else Zceil d.

Definition rgb (r g b : Z) : Color := mkColor r g b.

Definition shade (c : Color) (brightness : R) : Color :=
  let brightness :=
    if Rlt_dec brightness 0 then 0
    else if Rgt_dec brightness 1 then 1 else brightness in
  rgb (trunc (IZR (cr c) * brightness))
      (trunc (IZR (cg c) * brightness))
      (trunc (IZR (cb c) * brightness)).

Definition color_eqb (a b : Color) : bool :=
  (cr a =? cr b)%Z && (cg a =? cg b)%Z && (cb a =? cb b)%Z.

(** ** The dual-depth framebuffer *)

Record Buffer : Type := mkBuffer {
  width : Z;
  height : Z;
  top_color : list Color;
  bot_color : list Color;
  top_depth : list R;
  bot_depth : list R
}.

(** [a[i] = v]: the write of one array element.  An index past the end is
    undefined behaviour in C; every write of the renderer is guarded by the
    bounds test of [put_pixel], so the case does not arise on a buffer whose
    arrays have [width * height] elements. *)
Fixpoint upd {A : Type} (i : nat) (v : A) (l : list A) : list A :=
  match l, i with
  | [], _ => []
  | _ :: t, O => v :: t
  | h :: t, S j => h :: upd j v t
  end.

Definition black : Color := rgb 0 0 0.
Definition empty_depth : R := -1e10.

(** [sz], the [size_t] that [buf_init] and [buf_clear] compute from
    [width * height].  For dimensions that are not negative and within the
    caps of [get_term_size] the product fits [int] and [sz] is that
    number; for a negative product the conversion to [size_t] wraps to a
    huge value in C, where [Z.to_nat] gives [0]: the properties of
    [buf_clear] and of what follows it are stated for dimensions that are
    not negative. *)
Definition buf_size (b : Buffer) : nat := Z.to_nat (width b * height b).

Definition buf_clear (b : Buffer) : Buffer :=
  let sz := buf_size b in
  mkBuffer (width b) (height b)
           (repeat black sz) (repeat black sz)
           (repeat empty_depth sz) (repeat empty_depth sz).

Definition in_bounds (b : Buffer) (x y : Z) : bool :=
  negb ((x <? 0)%Z || (x >=? width b)%Z || (y <? 0)%Z || (y >=? height b)%Z).

Definition cell_index (b : Buffer) (x y : Z) : nat :=
  Z.to_nat (y * width b + x).

(** The two depth tests are evaluated over the reals here; [put_pixel64]
    below evaluates them in binary64, where the threshold
    [bot_depth[idx] - 0.01] is a rounded value. *)
Definition put_pixel (b : Buffer) (x y : Z) (is_top : bool)
                     (col : Color) (depth : R) : Buffer :=
  if negb (in_bounds b x y) then b
  else
    let idx := cell_index b x y in
    if is_top then
      if Rgt_dec depth (nth idx (top_depth b) 0) then
        mkBuffer (width b) (height b)
                 (upd idx col (top_color b)) (bot_color b)
                 (upd idx depth (top_depth b)) (bot_depth b)
      else b
    else
      if Rgt_dec depth (nth idx (bot_depth b) 0 - 0.01) then
        mkBuffer (width b) (height b)
                 (top_color b) (upd idx col (bot_color b))
                 (top_depth b) (upd idx depth (bot_depth b))
      else b.

(** A buffer as [buf_init] allocates it: four arrays of [width * height]
    elements. *)
Definition wf_buffer (b : Buffer) : Prop :=
  (0 <= width b)%Z /\ (0 <= height b)%Z /\
  Datatypes.length (top_color b) = buf_size b /\
  Datatypes.length (bot_color b) = buf_size b /\
  Datatypes.length (top_depth b) = buf_size b /\
  Datatypes.length (bot_depth b) = buf_size b.

(** ** Camera projection

    [project] returns [None] for the C result [0] and the three values it
    stores through its pointer arguments for the result [1]. *)

Definition project (b : Buffer) (zoom : R) (p : Vec3) : option (R * R * R) :=
  if Rge_dec (vz p) (-0.5) then None
  else if Rle_dec (vz p) (-100) then None
  else
    let focal := 5 in
    let factor := - focal / vz p in
    let pixel_h := IZR (height b) * 2 in
    let min_dim :=
      if Rlt_dec (IZR (width b)) pixel_h then IZR (width b) else pixel_h in
    let scale := min_dim * 0.38 * zoom in
    Some (vx p * factor * scale + IZR (width b) * 0.5,
          - vy p * factor * scale + pixel_h * 0.5,
          vz p).

(** ** Lighting

    [fmax]/[fmin] are [Rmax]/[Rmin]; [pow (d, 100.0)] is only applied to a
    non-negative base, where it is the hundredth power. *)

Definition light1 (time_global : R) : Vec3 :=
  normalize (v3 (sin (time_global * 0.7) * 10)
                (cos (time_global * 0.4) * 8 + 10)
                (-5)).

Definition light2 : Vec3 := normalize (v3 (-6) (-4) (-8)).

Definition view_dir : Vec3 := v3 0 0 (-1).

Definition ambient : R := 0.15.

Definition diff1 (time_global : R) (normal : Vec3) : R :=
  Rmax 0 (dot normal (light1 time_global)) * 0.8.

Definition diff2 (normal : Vec3) : R :=
  Rmax 0 (dot normal light2) * 0.15.

Definition halfway (time_global : R) : Vec3 :=
  normalize (add (light1 time_global) view_dir).

Definition spec (time_global : R) (normal : Vec3) : R :=
  Rmax 0 (dot normal (halfway time_global)) ^ 100 * 0.55.

Definition light_sum (time_global : R) (normal : Vec3) : R :=
  ambient + diff1 time_global normal + diff2 normal + spec time_global normal.

Definition calc_light (time_global : R) (normal : Vec3) : R :=
  Rmin (light_sum time_global normal) 1.

(** ** Rasterizer: lines *)

Section LineLoop.
Variable col : Color.
Variables dx dy sx sy : Z.
Variables ex ey : Z.          (* (int)x1 and (int)y1 *)
Variable dz : R.

(** One pass through the body of [while (1)] is [line_plot] (the guarded
    [put_pixel]), then [line_at_end] (the test of the [break]), then
    [line_step] (the new [x], [y] and [err]). *)
Definition line_plot (b : Buffer) (x y : Z) (z : R) : Buffer :=
  let py := Z.quot y 2 in
  let is_top := (Z.rem y 2 =? 0)%Z in
  if ((py >=? 0)%Z && (py <? height b)%Z)%bool
  then put_pixel b x py is_top col (z + 0.01)
  else b.

Definition line_at_end (x y : Z) : bool :=
  ((x =? ex)%Z && (y =? ey)%Z)%bool.

Definition line_step (x y err : Z) : Z * Z * Z :=
  let e2 := (err * 2)%Z in
  let '(err1, x1) :=
    if (e2 >? - dy)%Z then ((err - dy)%Z, (x + sx)%Z) else (err, x) in
  let '(err2, y1) :=
    if (e2 <? dx)%Z then ((err1 + dx)%Z, (y + sy)%Z) else (err1, y) in
  (x1, y1, err2).

(** The loop itself, with a bound on the number of passes: [None] means
    the bound was reached before the [break]. *)
Fixpoint line_loop (fuel : nat) (b : Buffer) (x y err : Z) (z : R)
  : option Buffer :=
  match fuel with
  | O => None
  | S n =>
      let b' := line_plot b x y z in
      if line_at_end x y then Some b'
      else
        let '(x1, y1, err1) := line_step x y err in
        line_loop n b' x1 y1 err1 (z + dz)
  end.
End LineLoop.

(** The walk over unbounded integers; [draw_line32] below is the walk on
    32-bit [int], which is this one as long as the truncated end points
    have magnitude at most [2^28]. *)
Definition draw_line (fuel : nat) (b : Buffer) (zoom : R)
                     (p0 p1 : Vec3) (col : Color) : option Buffer :=
  match project b zoom p0 with
  | None => Some b
  | Some (x0, y0, z0) =>
      match project b zoom p1 with
      | None => Some b
      | Some (x1, y1, z1) =>
          let dx := Z.abs (trunc x1 - trunc x0) in
          let dy := Z.abs (trunc y1 - trunc y0) in
          let sx := if Rlt_dec x0 x1 then 1%Z else (-1)%Z in
          let sy := if Rlt_dec y0 y1 then 1%Z else (-1)%Z in
          let err := (dx - dy)%Z in
          let steps := Rmax (IZR dx) (IZR dy) in
          let dz := if Rgt_dec steps 0 then (z1 - z0) / steps else 0 in
          line_loop col dx dy sx sy (trunc x1) (trunc y1) dz
                    fuel b (trunc x0) (trunc y0) err z0
      end
  end.

(** The state of the walk when [ra] steps in x and [rb] steps in y remain
    before the end point [(ex, ey)]. *)
Definition line_inv (dx dy sx sy ex ey : Z) (ra rb x y err : Z) : Prop :=
  (0 <= ra <= dx)%Z /\ (0 <= rb <= dy)%Z /\
  (x + sx * ra = ex)%Z /\ (y + sy * rb = ey)%Z /\
  (err = dx - dy + ra * dy - rb * dx)%Z.

(** ** Rasterizer: triangles *)

(** [for (int i = lo; i <= hi; i++) s = body i s]. *)
Fixpoint for_from {S : Type} (n : nat) (i : Z) (body : Z -> S -> S) (s : S) : S :=
  match n with
  | O => s
  | S k => for_from k (i + 1)%Z body (body i s)
  end.

Definition for_range {S : Type} (lo hi : Z) (body : Z -> S -> S) (s : S) : S :=
  for_from (Z.to_nat (hi - lo + 1)) lo body s.

Section Triangle.
Variables x0 y0 z0 x1 y1 z1 x2 y2 z2 : R.

Definition tri_area : R := (x1 - x0) * (y2 - y0) - (y1 - y0) * (x2 - x0).

Definition tri_w0 (px py : R) : R := (x2 - x1) * (py - y1) - (y2 - y1) * (px - x1).
Definition tri_w1 (px py : R) : R := (x0 - x2) * (py - y2) - (y0 - y2) * (px - x2).
Definition tri_w2 (px py : R) : R := (x1 - x0) * (py - y0) - (y1 - y0) * (px - x0).

(** The acceptance test of one sub-pixel centre, over the reals;
    [tri_inside64] below is the test in binary64, where an edge function
    that is zero in exact arithmetic can round to either sign. *)
Definition tri_inside (px py : R) : bool :=
  let area := tri_area in
  let w0 := tri_w0 px py in
  let w1 := tri_w1 px py in
  let w2 := tri_w2 px py in
  if Rgt_dec area 0 then
    if Rge_dec w0 0 then if Rge_dec w1 0 then if Rge_dec w2 0 then true
    else false else false else false
  else if Rlt_dec area 0 then
    if Rle_dec w0 0 then if Rle_dec w1 0 then if Rle_dec w2 0 then true
    else false else false else false
  else false.

(** The depth interpolated at an accepted sub-pixel centre. *)
Definition tri_depth (px py : R) : R :=
  let invA := 1 / tri_area in
  let b0 := tri_w0 px py * invA in
  let b1 := tri_w1 px py * invA in
  let b2 := tri_w2 px py * invA in
  b0 * z0 + b1 * z1 + b2 * z2.

Definition tri_pixel (shaded : Color) (y x : Z) (b : Buffer) : Buffer :=
  let py := IZR y + 0.5 in
  let px := IZR x + 0.5 in
  if tri_inside px py then
    let z := tri_depth px py in
    let cell_y := Z.quot y 2 in
    let is_top := (Z.rem y 2 =? 0)%Z in
    if ((cell_y >=? 0)%Z && (cell_y <? height b)%Z)%bool
    then put_pixel b x cell_y is_top shaded z
    else b
  else b.

Definition tri_min_x : Z :=
  let m := Zfloor (Rmin x0 (Rmin x1 x2)) in if (m <? 0)%Z then 0%Z else m.
Definition tri_max_x (b : Buffer) : Z :=
  let m := Zceil (Rmax x0 (Rmax x1 x2)) in
  if (m >=? width b)%Z then (width b - 1)%Z else m.
Definition tri_min_y : Z :=
  let m := Zfloor (Rmin y0 (Rmin y1 y2)) in if (m <? 0)%Z then 0%Z else m.
Definition tri_max_y (b : Buffer) : Z :=
  let m := Zceil (Rmax y0 (Rmax y1 y2)) in
  if (m >=? height b * 2)%Z then (height b * 2 - 1)%Z else m.

(** The part of [fill_tri] after the three projections. *)
Definition fill_projected (b : Buffer) (col : Color) (brightness : R) : Buffer :=
  let min_x := tri_min_x in
  let max_x := tri_max_x b in
  let min_y := tri_min_y in
  let max_y := tri_max_y b in
  if Rlt_dec (Rabs tri_area) 1e-8 then b
  else
    let shaded := shade col brightness in
    for_range min_y max_y
      (fun y b => for_range min_x max_x (tri_pixel shaded y) b) b.
End Triangle.

Definition fill_tri (b : Buffer) (zoom : R) (v0 v1 v2 : Vec3)
                    (col : Color) (brightness : R) : Buffer :=
  match project b zoom v0 with
  | None => b
  | Some (x0, y0, z0) =>
      match project b zoom v1 with
      | None => b
      | Some (x1, y1, z1) =>
          match project b zoom v2 with
          | None => b
          | Some (x2, y2, z2) =>
              fill_projected x0 y0 z0 x1 y1 z1 x2 y2 z2 b col brightness
          end
      end
  end.

(** ** The solid *)

Definition CUBE_VERTS : list Vec3 :=
  [ v3 (-1) (-1) (-1); v3 1 (-1) (-1); v3 1 1 (-1); v3 (-1) 1 (-1);
    v3 (-1) (-1) 1;    v3 1 (-1) 1;    v3 1 1 1;    v3 (-1) 1 1 ].

Definition CUBE_FACES : list (list Z) :=
  [ [0; 1; 2; 3]; [5; 4; 7; 6]; [4; 0; 3; 7];
    [1; 5; 6; 2]; [3; 2; 6; 7]; [4; 5; 1; 0] ]%Z.

Definition FACE_COLORS : list Color :=
  [ rgb 255 0 128; rgb 0 128 255; rgb 0 255 80;
    rgb 255 128 0; rgb 200 0 255; rgb 255 220 0 ].

Definition edges : list (Z * Z) :=
  [ (0, 1); (1, 2); (2, 3); (3, 0); (4, 5); (5, 6);
    (6, 7); (7, 4); (0, 4); (1, 5); (2, 6); (3, 7) ]%Z.

Definition vert_at (verts : list Vec3) (i : Z) : Vec3 :=
  nth (Z.to_nat i) verts (v3 0 0 0).

Definition face_at (i : Z) : list Z := nth (Z.to_nat i) CUBE_FACES [].

Definition face_vert (face : list Z) (k : Z) : Z := nth (Z.to_nat k) face 0%Z.

Definition face_color (i : Z) : Color := nth (Z.to_nat i) FACE_COLORS black.

(** ** Scene pipeline *)

Definition transform (rot_x rot_y rot_z : R) (v : Vec3) : Vec3 :=
  let size := 1 in
  let v := scale v size in
  let v := rot_x_apply v rot_x in
  let v := rot_y_apply v rot_y in
  let v := rot_z_apply v rot_z in
  mkVec3 (vx v) (vy v) (vz v - 5).

Definition transform_verts (rot_x rot_y rot_z : R) : list Vec3 :=
  map (transform rot_x rot_y rot_z) CUBE_VERTS.

Record Face : Type := mkFace {
  f_idx : Z;
  f_depth : R;
  f_center : Vec3;
  f_normal : Vec3;
  f_brightness : R
}.

Definition face_normal (verts : list Vec3) (i : Z) : Vec3 :=
  let f := face_at i in
  let v0 := vert_at verts (face_vert f 0) in
  let v1 := vert_at verts (face_vert f 1) in
  let v2 := vert_at verts (face_vert f 2) in
  let edge1 := sub v1 v0 in
  let edge2 := sub v2 v0 in
  normalize (cross edge1 edge2).

Definition face_center (verts : list Vec3) (i : Z) : Vec3 :=
  let f := face_at i in
  scale (add (add (add (vert_at verts (face_vert f 0))
                       (vert_at verts (face_vert f 1)))
                  (vert_at verts (face_vert f 2)))
             (vert_at verts (face_vert f 3)))
        0.25.

Definition face_to_cam (verts : list Vec3) (i : Z) : Vec3 :=
  normalize (scale (face_center verts i) (-1)).

(** The body of the culling loop: [faces[num_vis++] = ...] appends. *)
Definition cull_step (time_global : R) (verts : list Vec3) (i : Z)
                     (faces : list Face) : list Face :=
  let normal := face_normal verts i in
  let center := face_center verts i in
  let to_cam := face_to_cam verts i in
  if Rgt_dec (dot normal to_cam) 0 then
    let brightness := calc_light time_global normal in
    faces ++ [mkFace i (vz center) center normal brightness]
  else faces.

Definition visible_faces (time_global : R) (verts : list Vec3) : list Face :=
  for_range 0 5 (cull_step time_global verts) [].

Definition face_dflt : Face := mkFace 0 0 (v3 0 0 0) (v3 0 0 0) 0.

Definition face_get (faces : list Face) (i : Z) : Face :=
  nth (Z.to_nat i) faces face_dflt.

Definition sort_swap (i j : Z) (faces : list Face) : list Face :=
  if Rgt_dec (f_depth (face_get faces i)) (f_depth (face_get faces j)) then
    let tmp := face_get faces i in
    let faces := upd (Z.to_nat i) (face_get faces j) faces in
    upd (Z.to_nat j) tmp faces
  else faces.

Definition sort_faces (faces : list Face) : list Face :=
  let num_vis := Z.of_nat (Datatypes.length faces) in
  for_range 0 (num_vis - 2)
    (fun i fs => for_range (i + 1) (num_vis - 1) (sort_swap i) fs) faces.

Definition fill_face (zoom : R) (verts : list Vec3) (b : Buffer) (f : Face)
  : Buffer :=
  let idx := f_idx f in
  let face := face_at idx in
  let col := face_color idx in
  let b := fill_tri b zoom (vert_at verts (face_vert face 0))
                    (vert_at verts (face_vert face 1))
                    (vert_at verts (face_vert face 2)) col (f_brightness f) in
  fill_tri b zoom (vert_at verts (face_vert face 0))
           (vert_at verts (face_vert face 2))
           (vert_at verts (face_vert face 3)) col (f_brightness f).

(** The two flags [has_v0], [has_v1] after the loop over the four corners. *)
Definition face_has (face : list Z) (v0 v1 : Z) : bool * bool :=
  for_range 0 3
    (fun k '(has_v0, has_v1) =>
       (if (face_vert face k =? v0)%Z then true else has_v0,
        if (face_vert face k =? v1)%Z then true else has_v1))
    (false, false).

Definition edge_shared (faces : list Face) (v0 v1 : Z) : Z :=
  fold_left
    (fun shared f =>
       let '(has_v0, has_v1) := face_has (face_at (f_idx f)) v0 v1 in
       if (has_v0 && has_v1)%bool then (shared + 1)%Z else shared)
    faces 0%Z.

(** The loop over the twelve edges, for any action [draw] standing for the
    call of [draw_line] on the two corner indices. *)
Definition edge_loop {S : Type} (draw : Z -> Z -> S -> S)
                     (faces : list Face) (s : S) : S :=
  fold_left
    (fun s e =>
       let '(v0, v1) := e in
       if (edge_shared faces v0 v1 =? 1)%Z then draw v0 v1 s else s)
    edges s.

(** The edges handed to [draw_line], in call order. *)
Definition drawn_edges (faces : list Face) : list (Z * Z) :=
  edge_loop (fun v0 v1 l => l ++ [(v0, v1)]) faces [].

Definition draw_edge (fuel : nat) (zoom : R) (verts : list Vec3)
                     (v0 v1 : Z) (ob : option Buffer) : option Buffer :=
  match ob with
  | None => None
  | Some b =>
      draw_line fuel b zoom (vert_at verts v0) (vert_at verts v1)
                (rgb 255 255 255)
  end.

Definition render_cube (fuel : nat) (b : Buffer) (zoom time_global : R)
                       (rot_x rot_y rot_z : R) : option Buffer :=
  let verts := transform_verts rot_x rot_y rot_z in
  let faces := sort_faces (visible_faces time_global verts) in
  let b := fold_left (fill_face zoom verts) faces b in
  edge_loop (draw_edge fuel zoom verts) faces (Some b).

(** The count as the specification words it: the number of faces of [vis]
    whose four corner indices contain both end points of the edge. *)
Definition contains_both (face : list Z) (v0 v1 : Z) : bool :=
  (existsb (Z.eqb v0) face && existsb (Z.eqb v1) face)%bool.

Definition sharing_count (vis : list Face) (v0 v1 : Z) : nat :=
  Datatypes.length
    (filter (fun f => contains_both (face_at (f_idx f)) v0 v1) vis).

(** ** Text compositor

    One token per call of [printf] or [putchar]. *)

Inductive Out : Type :=
| OutHomeReset          (* ESC[H ESC[0m *)
| OutBgDefault          (* ESC[49m *)
| OutFg (c : Color)     (* ESC[38;2;r;g;bm *)
| OutBg (c : Color)     (* ESC[48;2;r;g;bm *)
| OutBlank              (* space *)
| OutUpper              (* upper half block *)
| OutLower              (* lower half block *)
| OutResetNewline.      (* ESC[0m newline *)

Record Pen : Type := mkPen {
  last_fg : Color;
  last_bg : Color;
  bg_is_default : bool
}.

(** What [buf_render] reads of one cell. *)
Record Cell : Type := mkCell {
  top_set : bool;
  bot_set : bool;
  t_col : Color;
  b_col : Color
}.

Definition read_cell (b : Buffer) (idx : nat) : Cell :=
  mkCell (if Rgt_dec (nth idx (top_depth b) 0) (-1e9) then true else false)
         (if Rgt_dec (nth idx (bot_depth b) 0) (-1e9) then true else false)
         (nth idx (top_color b) black)
         (nth idx (bot_color b) black).

Definition emit_bg_default (p : Pen) : list Out * Pen :=
  if negb (bg_is_default p)
  then ([OutBgDefault], mkPen (last_fg p) (last_bg p) true)
  else ([], p).

Definition emit_fg (c : Color) (p : Pen) : list Out * Pen :=
  if negb (color_eqb c (last_fg p))
  then ([OutFg c], mkPen c (last_bg p) (bg_is_default p))
  else ([], p).

Definition emit_bg (c : Color) (p : Pen) : list Out * Pen :=
  if negb (color_eqb c (last_bg p))
  then ([OutBg c], mkPen (last_fg p) c (bg_is_default p))
  else ([], p).

Definition emit_cell (c : Cell) (p : Pen) : list Out * Pen :=
  match top_set c, bot_set c with
  | false, false =>
      let '(o1, p) := emit_bg_default p in
      (o1 ++ [OutBlank], p)
  | true, false =>
      let '(o1, p) := emit_bg_default p in
      let '(o2, p) := emit_fg (t_col c) p in
      (o1 ++ o2 ++ [OutUpper], p)
  | false, true =>
      let '(o1, p) := emit_bg_default p in
      let '(o2, p) := emit_fg (b_col c) p in
      (o1 ++ o2 ++ [OutLower], p)
  | true, true =>
      let '(o1, p) := emit_fg (t_col c) p in
      let '(o2, p) := emit_bg (b_col c) p in
      (o1 ++ o2 ++ [OutUpper], mkPen (last_fg p) (last_bg p) false)
  end.

(** The output so far and the tracked colours, threaded through the loops. *)
Definition render_cell (b : Buffer) (y x : Z) (st : list Out * Pen)
  : list Out * Pen :=
  let '(out, p) := st in
  let idx := cell_index b x y in
  let '(o, p) := emit_cell (read_cell b idx) p in
  (out ++ o, p).

Definition render_row (b : Buffer) (y : Z) (st : list Out * Pen)
  : list Out * Pen :=
  let '(out, p) := for_range 0 (width b - 1) (render_cell b y) st in
  (out ++ [OutResetNewline], mkPen (last_fg p) (last_bg p) true).

Definition pen0 : Pen := mkPen (mkColor 255 255 255) (mkColor 255 255 255) true.

Definition buf_render (b : Buffer) : list Out :=
  fst (for_range 0 (height b - 1) (render_row b) ([OutHomeReset], pen0)).


(** The colours a cell requires, as the specification words them: the
    foreground of the glyph (none for a blank) and its background (none,
    that is the terminal default, unless both sub-pixels are set). *)
Definition cell_fg (c : Cell) : option Color :=
  match top_set c, bot_set c with
  | false, false => None
  | true, _ => Some (t_col c)
  | false, true => Some (b_col c)
  end.

Definition cell_bg (c : Cell) : option Color :=
  if (top_set c && bot_set c)%bool then Some (b_col c) else None.

Definition is_fg_instr (o : Out) : bool :=
  match o with OutFg _ => true | _ => false end.

Definition is_bg_instr (o : Out) : bool :=
  match o with OutBg _ | OutBgDefault => true | _ => false end.

Definition count_fg (l : list Out) : nat :=
  Datatypes.length (filter is_fg_instr l).

Definition count_bg (l : list Out) : nat :=
  Datatypes.length (filter is_bg_instr l).

(** ** Sample inputs *)

(** A two-by-one framebuffer whose two cells both hold a red top and a
    black bottom fragment. *)
Definition demo_row : Buffer :=
  mkBuffer 2 1 [rgb 255 0 0; rgb 255 0 0] [black; black] [-6; -6] [-7; -7].

(** A two-by-one framebuffer whose right cell holds a white fragment at
    depth [-6] in both slots; the left cell is empty. *)
Definition demo_buf : Buffer :=
  mkBuffer 2 1 [black; rgb 255 255 255] [black; rgb 255 255 255]
           [empty_depth; -6] [empty_depth; -6].

Definition red : Color := rgb 255 0 0.

(** Two camera-space points in front of the camera and one behind it. *)
Definition demo_p0 : Vec3 := v3 0 0 (-5).
Definition demo_p1 : Vec3 := v3 3 0 (-5).
Definition demo_behind : Vec3 := v3 0 0 1.

(** ** Driver: terminal size and keyboard *)

Definition MAX_WIDTH : Z := 400.
Definition MAX_HEIGHT : Z := 300.

(** [ws] is [Some (ws_col, ws_row)] when the [ioctl] succeeds, [None] when
    it fails; the result is the pair stored through [w] and [h]. *)
Definition get_term_size (ws : option (Z * Z)) : Z * Z :=
  match ws with
  | Some (ws_col, ws_row) =>
      (if (ws_col <? MAX_WIDTH)%Z then ws_col else MAX_WIDTH,
       if (ws_row - 1 <? MAX_HEIGHT)%Z then (ws_row - 1)%Z else MAX_HEIGHT)
  | None => (80%Z, 24%Z)
  end.

Definition key_esc : ascii := ascii_of_nat 27.

(** [key] is [Some c] when [read] delivers one character.  The result is
    the returned flag ([false] for [0]: leave the main loop) and the new
    value of the global [zoom]. *)
Definition handle_input (key : option ascii) (zoom : R) : bool * R :=
  match key with
  | Some c =>
      if (Ascii.eqb c "q" || Ascii.eqb c "Q" || Ascii.eqb c key_esc)%bool
      then (false, zoom)
      else if (Ascii.eqb c "+" || Ascii.eqb c "=")%bool then
        let nz := zoom * 1.1 in
        let nz := if Rgt_dec nz 5 then 5 else nz in
        (true, nz)
      else if (Ascii.eqb c "-" || Ascii.eqb c "_")%bool then
        let nz := zoom / 1.1 in
        let nz := if Rlt_dec nz 0.1 then 0.1 else nz in
        (true, nz)
      else (true, zoom)
  | None => (true, zoom)
  end.

(** ** Predicates of the further properties *)

Definition same_dims (b b' : Buffer) : Prop :=
  width b' = width b /\ height b' = height b.

(** Every colour of [b'] is the colour [b] has in the same slot, or [c]. *)
Definition painted_with (c : Color) (b b' : Buffer) : Prop :=
  forall j : nat,
    (nth j (top_color b') black = nth j (top_color b) black \/
     nth j (top_color b') black = c) /\
    (nth j (bot_color b') black = nth j (bot_color b) black \/
     nth j (bot_color b') black = c).

(** Every depth of [b'] is the depth [b] has in the same slot, or a value
    satisfying [P]. *)
Definition depths_from (P : R -> Prop) (b b' : Buffer) : Prop :=
  forall j : nat,
    (nth j (top_depth b') 0 = nth j (top_depth b) 0 \/
     P (nth j (top_depth b') 0)) /\
    (nth j (bot_depth b') 0 = nth j (bot_depth b) 0 \/
     P (nth j (bot_depth b') 0)).

Definition depth_sorted (faces : list Face) : Prop :=
  forall i j : nat,
    (i < j < Datatypes.length faces)%nat ->
    f_depth (nth i faces face_dflt) <= f_depth (nth j faces face_dflt).

Definition is_glyph (o : Out) : bool :=
  match o with OutBlank | OutUpper | OutLower => true | _ => false end.

Definition is_newline (o : Out) : bool :=
  match o with OutResetNewline => true | _ => false end.

Definition count_out (f : Out -> bool) (l : list Out) : nat :=
  Datatypes.length (filter f l).


(** A colour whose three channels fit [uint8_t]. *)
Definition valid_color (c : Color) : Prop :=
  (0 <= cr c <= 255)%Z /\ (0 <= cg c <= 255)%Z /\ (0 <= cb c <= 255)%Z.

(** The camera offset applied by [transform]. *)
Definition cam_offset : Vec3 := v3 0 0 (-5).


(** [b'] comes from [b] by draw calls that keep the dimensions and the
    allocation, store no colour but [c] and no depth but one satisfying
    [P]. *)
Definition draws (c : Color) (P : R -> Prop) (b b' : Buffer) : Prop :=
  same_dims b b' /\ (wf_buffer b -> wf_buffer b') /\
  painted_with c b b' /\ depths_from P b b'.

(** The depth of [d] lies between the depths of three camera-space points
    and inside the near/far window. *)
Definition depth_between (v0 v1 v2 : Vec3) (d : R) : Prop :=
  Rmin (vz v0) (Rmin (vz v1) (vz v2)) <= d
  <= Rmax (vz v0) (Rmax (vz v1) (vz v2)) /\
  -100 < d < -0.5.


(** The state of the walk [rem] passes before the end point, with the
    bounds the error term keeps: the longer axis steps on every pass. *)
Definition line_tight (dx dy sx sy ex ey : Z) (rem x y err : Z) : Prop :=
  exists ra rb : Z,
    line_inv dx dy sx sy ex ey ra rb x y err /\
    ((dy <= dx)%Z -> rem = ra /\ (- dy < 2 * err < 3 * dx - 2 * dy)%Z) /\
    ((dx < dy)%Z -> rem = rb /\ (2 * dx - 3 * dy < 2 * err < dx)%Z).

(** A depth on the segment between [z0] and [z1], moved by the line bias. *)
Definition depth_on_line (z0 z1 d : R) : Prop :=
  Rmin z0 z1 + 0.01 <= d <= Rmax z0 z1 + 0.01.


(** The number of passes the loop of [draw_line] makes: none when an end
    point is rejected, else one more than the longer of the two truncated
    extents. *)
Definition line_bound (b : Buffer) (zoom : R) (p0 p1 : Vec3) : nat :=
  match project b zoom p0, project b zoom p1 with
  | Some (x0, y0, _), Some (x1, y1, _) =>
      S (Z.to_nat (Z.max (Z.abs (trunc x1 - trunc x0))
                         (Z.abs (trunc y1 - trunc y0))))
  | _, _ => O
  end.


(** The largest number of passes any of the twelve edges needs. *)
Definition cube_fuel (b : Buffer) (zoom : R) (verts : list Vec3) : nat :=
  fold_right
    (fun e n =>
       Nat.max (line_bound b zoom (vert_at verts (fst e))
                           (vert_at verts (snd e))) n)
    O edges.

(** The depths the cube can occupy, line bias included. *)
Definition cube_depth (d : R) : Prop := -7 < d < -2.99.


(** [b'] comes from [b] by draw calls that keep the dimensions and the
    allocation and store no depth but one satisfying [P]. *)
Definition keeps (P : R -> Prop) (b b' : Buffer) : Prop :=
  same_dims b b' /\ (wf_buffer b -> wf_buffer b') /\ depths_from P b b'.


(** The prefix [0 .. i-1] of [faces] is in its final place: each of its
    entries is no deeper than any entry after it. *)
Definition sorted_upto (faces : list Face) (i : Z) : Prop :=
  forall a k : Z,
    (0 <= a < i)%Z -> (a < k < Z.of_nat (Datatypes.length faces))%Z ->
    f_depth (face_get faces a) <= f_depth (face_get faces k).

(** Entry [i] is no deeper than the entries [i+1 .. m-1]. *)
Definition least_upto (faces : list Face) (i m : Z) : Prop :=
  forall k : Z,
    (i < k < m)%Z -> f_depth (face_get faces i) <= f_depth (face_get faces k).


(** ** One pass of the main loop

    The elapsed time [dt] and the key read are the inputs of a pass; the
    animation globals are gathered in a record.  A pass ends the loop
    ([StepQuit]), or clears, renders and composites one frame. *)

Record Scene : Type := mkScene {
  sc_time : R;
  sc_rot_x : R;
  sc_rot_y : R;
  sc_rot_z : R;
  sc_zoom : R
}.

Inductive Step : Type :=
| StepQuit
| StepFrame (s : Scene) (b : Buffer) (out : list Out)
| StepNoFuel.

Definition main_step (fuel : nat) (dt : R) (key : option ascii)
                     (s : Scene) (b : Buffer) : Step :=
  let dt := if Rgt_dec dt 0.1 then 0.1 else dt in
  let time_global := sc_time s + dt in
  let rot_x := sc_rot_x s + 0.6 * dt in
  let rot_y := sc_rot_y s + 0.8 * dt in
  let rot_z := sc_rot_z s + 0.4 * dt in
  let '(go, zoom) := handle_input key (sc_zoom s) in
  if negb go then StepQuit
  else
    let b := buf_clear b in
    match render_cube fuel b zoom time_global rot_x rot_y rot_z with
    | None => StepNoFuel
    | Some b' =>
        StepFrame (mkScene time_global rot_x rot_y rot_z zoom) b'
                  (buf_render b')
    end.


(** The animation state the program starts with. *)
Definition demo_scene : Scene := mkScene 0 0.7 0.9 0.3 0.6.


(** ** The line walk on 32-bit [int]

    [draw_line] above walks over unbounded integers.  The definitions
    below follow the same statements of the source on the 32-bit [int] of
    the platform: every [int] operation whose exact result leaves
    [INT_MIN .. INT_MAX] yields its low 32 bits in two's complement, which
    is what the compiled x86-64 code computes (the C standard leaves signed
    overflow, [abs (INT_MIN)] and the conversion of an out-of-range double
    undefined), and the conversion of a double outside the range yields
    [INT_MIN], the result of the conversion instruction.  [y / 2], [y % 2]
    and the comparisons cannot overflow and are taken over from
    [line_plot] and [line_at_end]. *)

Definition INT_MIN : Z := (-2147483648)%Z.
Definition INT_MAX : Z := 2147483647%Z.

Definition wrap32 (z : Z) : Z :=
  ((z + 2147483648) mod 4294967296 - 2147483648)%Z.

(** [(int)d]. *)
Definition int_of_double (d : R) : Z :=
  let t := trunc d in
  if ((INT_MIN <=? t)%Z && (t <=? INT_MAX)%Z)%bool then t else INT_MIN.

Section LineLoop32.
Variable col : Color.
Variables dx dy sx sy : Z.
Variables ex ey : Z.
Variable dz : R.

Definition line_step32 (x y err : Z) : Z * Z * Z :=
  let e2 := wrap32 (err * 2) in
  let '(err1, x1) :=
    if (e2 >? wrap32 (- dy))%Z
    then (wrap32 (err - dy), wrap32 (x + sx)) else (err, x) in
  let '(err2, y1) :=
    if (e2 <? dx)%Z
    then (wrap32 (err1 + dx), wrap32 (y + sy)) else (err1, y) in
  (x1, y1, err2).

Fixpoint line_loop32 (fuel : nat) (b : Buffer) (x y err : Z) (z : R)
  : option Buffer :=
  match fuel with
  | O => None
  | S n =>
      let b' := line_plot col b x y z in
      if line_at_end ex ey x y then Some b'
      else
        let '(x1, y1, err1) := line_step32 x y err in
        line_loop32 n b' x1 y1 err1 (z + dz)
  end.
End LineLoop32.

Definition draw_line32 (fuel : nat) (b : Buffer) (zoom : R)
                       (p0 p1 : Vec3) (col : Color) : option Buffer :=
  match project b zoom p0 with
  | None => Some b
  | Some (x0, y0, z0) =>
      match project b zoom p1 with
      | None => Some b
      | Some (x1, y1, z1) =>
          let dx :=
            wrap32 (Z.abs (wrap32 (int_of_double x1 - int_of_double x0))) in
          let dy :=
            wrap32 (Z.abs (wrap32 (int_of_double y1 - int_of_double y0))) in
          let sx := if Rlt_dec x0 x1 then 1%Z else (-1)%Z in
          let sy := if Rlt_dec y0 y1 then 1%Z else (-1)%Z in
          let err := wrap32 (dx - dy) in
          let steps := Rmax (IZR dx) (IZR dy) in
          let dz := if Rgt_dec steps 0 then (z1 - z0) / steps else 0 in
          line_loop32 col dx dy sx sy (int_of_double x1) (int_of_double y1) dz
                      fuel b (int_of_double x0) (int_of_double y0) err z0
      end
  end.

(** A screen coordinate whose truncation has magnitude at most [2^28]:
    with both end points of a line in this range no [int] operation of the
    walk leaves the 32-bit range. *)
Definition screen_range (d : R) : Prop :=
  (Z.abs (trunc d) <= 268435456)%Z.

(** The end points of a line, when [project] accepts both, are in that
    range. *)
Definition line_in_range (b : Buffer) (zoom : R) (p0 p1 : Vec3) : Prop :=
  match project b zoom p0, project b zoom p1 with
  | Some (x0, y0, _), Some (x1, y1, _) =>
      screen_range x0 /\ screen_range y0 /\
      screen_range x1 /\ screen_range y1
  | _, _ => True
  end.

(** [render_cube] with the 32-bit line walk. *)
Definition draw_edge32 (fuel : nat) (zoom : R) (verts : list Vec3)
                       (v0 v1 : Z) (ob : option Buffer) : option Buffer :=
  match ob with
  | None => None
  | Some b =>
      draw_line32 fuel b zoom (vert_at verts v0) (vert_at verts v1)
                  (rgb 255 255 255)
  end.

Definition render_cube32 (fuel : nat) (b : Buffer) (zoom time_global : R)
                         (rot_x rot_y rot_z : R) : option Buffer :=
  let verts := transform_verts rot_x rot_y rot_z in
  let faces := sort_faces (visible_faces time_global verts) in
  let b := fold_left (fill_face zoom verts) faces b in
  edge_loop (draw_edge32 fuel zoom verts) faces (Some b).

(** A framebuffer as [buf_init] allocates it for dimensions that are not
    negative and within the caps of [get_term_size].  For such dimensions
    [width * height] fits [int] and [size_t], so that [buf_size] is the
    [sz] of [buf_init] and [buf_clear]; for a negative product the
    conversion to [size_t] wraps in C, which [buf_size] does not follow. *)
Definition screen_buffer (b : Buffer) : Prop :=
  wf_buffer b /\ (width b <= MAX_WIDTH)%Z /\ (height b <= MAX_HEIGHT)%Z.

(** The values of [zoom] the program can reach from its initial [0.6]:
    [handle_input] keeps them between [0.1] and [5]. *)
Definition zoom_range (zoom : R) : Prop := 0.1 <= zoom <= 5.

(** The bounds on the dimensions alone. *)
Definition size_caps (b : Buffer) : Prop :=
  (0 <= width b <= MAX_WIDTH)%Z /\ (0 <= height b <= MAX_HEIGHT)%Z.

(** [main_step] with the 32-bit line walk. *)
Definition main_step32 (fuel : nat) (dt : R) (key : option ascii)
                       (s : Scene) (b : Buffer) : Step :=
  let dt := if Rgt_dec dt 0.1 then 0.1 else dt in
  let time_global := sc_time s + dt in
  let rot_x := sc_rot_x s + 0.6 * dt in
  let rot_y := sc_rot_y s + 0.8 * dt in
  let rot_z := sc_rot_z s + 0.4 * dt in
  let '(go, zoom) := handle_input key (sc_zoom s) in
  if negb go then StepQuit
  else
    let b := buf_clear b in
    match render_cube32 fuel b zoom time_global rot_x rot_y rot_z with
    | None => StepNoFuel
    | Some b' =>
        StepFrame (mkScene time_global rot_x rot_y rot_z zoom) b'
                  (buf_render b')
    end.

(** Two camera-space points that [project] accepts on [demo_buf] at zoom
    [5] and whose screen abscissas truncate to [2^30] and [- 2^30]. *)
Definition far_p0 : Vec3 := v3 (1073741823.5 / 3.8) 0 (-5).
Definition far_p1 : Vec3 := v3 (-1073741825.5 / 3.8) 0 (-5).


(** ** Evaluation in binary64

    The definitions above evaluate the [double] expressions of the source
    over the reals.  The definitions below evaluate the depth test of
    [put_pixel], [project] and the per-sub-pixel part of [fill_tri] in IEEE
    754 binary64 with rounding to nearest, one rounding per operation in
    the order the source writes them (no fused multiply-add), on the
    primitive floats of Rocq.  A decimal constant of the source is the
    double nearest to it, written in hexadecimal.  [f64_real] is the exact
    value of a finite double. *)

Section Binary64.
Import PrimFloat.
Local Open Scope float_scope.

Definition f64_real (f : float) : R :=
  match FloatOps.Prim2SF f with
  | SpecFloat.S754_finite s m e =>
      (IZR (if s then Z.neg m else Z.pos m) * powerRZ 2 e)%R
  | _ => 0%R
  end.

(** [(double)i] for an [int] [i]. *)
Definition f64_of_int (i : Z) : float :=
  FloatOps.SF2Prim
    (SpecFloat.binary_normalize FloatOps.prec FloatOps.emax i 0 false).

(** [(int)floor (f)] and [(int)ceil (f)] for a finite [f] in the range of
    [int]. *)
Definition f64_floor (f : float) : Z :=
  match FloatOps.Prim2SF f with
  | SpecFloat.S754_finite s m e =>
      let n := if s then Z.neg m else Z.pos m in
      if (0 <=? e)%Z then (n * 2 ^ e)%Z else (n / 2 ^ (- e))%Z
  | _ => 0%Z
  end.

Definition f64_ceil (f : float) : Z := (- f64_floor (- f))%Z.

Definition fmin64 (a b : float) : float :=
  if b <? a then b else if a =? a then a else b.

Definition fmax64 (a b : float) : float :=
  if a <? b then b else if a =? a then a else b.

(** The constants [0.01], [0.38] and [1e-8] of the source. *)
Definition bias64 : float := 0x1.47ae147ae147bp-7.
Definition zoom_unit64 : float := 0x1.851eb851eb852p-2.
Definition area_eps64 : float := 0x1.5798ee2308c3ap-27.

Record Vec64 : Type := mkVec64 { vx64 : float; vy64 : float; vz64 : float }.

Record Buffer64 : Type := mkBuffer64 {
  width64 : Z;
  height64 : Z;
  top_color64 : list Color;
  bot_color64 : list Color;
  top_depth64 : list float;
  bot_depth64 : list float
}.

Definition in_bounds64 (b : Buffer64) (x y : Z) : bool :=
  negb ((x <? 0)%Z || (x >=? width64 b)%Z
        || (y <? 0)%Z || (y >=? height64 b)%Z).

Definition cell_index64 (b : Buffer64) (x y : Z) : nat :=
  Z.to_nat (y * width64 b + x).

Definition put_pixel64 (b : Buffer64) (x y : Z) (is_top : bool)
                       (col : Color) (depth : float) : Buffer64 :=
  if negb (in_bounds64 b x y) then b
  else
    let idx := cell_index64 b x y in
    if is_top then
      if nth idx (top_depth64 b) 0 <? depth then
        mkBuffer64 (width64 b) (height64 b)
                   (upd idx col (top_color64 b)) (bot_color64 b)
                   (upd idx depth (top_depth64 b)) (bot_depth64 b)
      else b
    else
      if nth idx (bot_depth64 b) 0 - bias64 <? depth then
        mkBuffer64 (width64 b) (height64 b)
                   (top_color64 b) (upd idx col (bot_color64 b))
                   (top_depth64 b) (upd idx depth (bot_depth64 b))
      else b.

Definition wf_buffer64 (b : Buffer64) : Prop :=
  (0 <= width64 b)%Z /\ (0 <= height64 b)%Z /\
  Datatypes.length (top_color64 b) = Z.to_nat (width64 b * height64 b) /\
  Datatypes.length (bot_color64 b) = Z.to_nat (width64 b * height64 b) /\
  Datatypes.length (top_depth64 b) = Z.to_nat (width64 b * height64 b) /\
  Datatypes.length (bot_depth64 b) = Z.to_nat (width64 b * height64 b).

(** [project] for a buffer of [w] by [h] cells. *)
Definition project64 (w h : Z) (zoom : float) (p : Vec64)
  : option (float * float * float) :=
  if (-0.5 <=? vz64 p) || (vz64 p <=? -100) then None
  else
    let focal := 5 in
    let factor := - focal / vz64 p in
    let pixel_h := f64_of_int h * 2 in
    let min_dim :=
      if f64_of_int w <? pixel_h then f64_of_int w else pixel_h in
    let scale := min_dim * zoom_unit64 * zoom in
    Some (vx64 p * factor * scale + f64_of_int w * 0.5,
          - vy64 p * factor * scale + pixel_h * 0.5,
          vz64 p).

Definition tri_area64 (x0 y0 x1 y1 x2 y2 : float) : float :=
  (x1 - x0) * (y2 - y0) - (y1 - y0) * (x2 - x0).

(** The test [fabs (area) < 1e-8] under which [fill_tri] draws nothing. *)
Definition tri_degenerate64 (area : float) : bool := abs area <? area_eps64.

Definition tri_w0_64 (x1 y1 x2 y2 px py : float) : float :=
  (x2 - x1) * (py - y1) - (y2 - y1) * (px - x1).
Definition tri_w1_64 (x0 y0 x2 y2 px py : float) : float :=
  (x0 - x2) * (py - y2) - (y0 - y2) * (px - x2).
Definition tri_w2_64 (x0 y0 x1 y1 px py : float) : float :=
  (x1 - x0) * (py - y0) - (y1 - y0) * (px - x0).

Definition tri_inside64 (x0 y0 x1 y1 x2 y2 px py : float) : bool :=
  let area := tri_area64 x0 y0 x1 y1 x2 y2 in
  let w0 := tri_w0_64 x1 y1 x2 y2 px py in
  let w1 := tri_w1_64 x0 y0 x2 y2 px py in
  let w2 := tri_w2_64 x0 y0 x1 y1 px py in
  ((0 <? area) && (0 <=? w0) && (0 <=? w1) && (0 <=? w2))
  || ((area <? 0) && (w0 <=? 0) && (w1 <=? 0) && (w2 <=? 0)).

Definition tri_depth64 (x0 y0 z0 x1 y1 z1 x2 y2 z2 px py : float) : float :=
  let invA := 1 / tri_area64 x0 y0 x1 y1 x2 y2 in
  let b0 := tri_w0_64 x1 y1 x2 y2 px py * invA in
  let b1 := tri_w1_64 x0 y0 x2 y2 px py * invA in
  let b2 := tri_w2_64 x0 y0 x1 y1 px py * invA in
  b0 * z0 + b1 * z1 + b2 * z2.

(** What [fill_tri (v0, v1, v2)] does at sub-pixel [(x, y)] of a buffer
    of [w] by [h] cells: [Some z] when the two loops reach the sub-pixel,
    accept it and hand [put_pixel] the depth [z], and [None] otherwise. *)
Definition fill_sample64 (w h : Z) (zoom : float) (v0 v1 v2 : Vec64)
                         (x y : Z) : option float :=
  match project64 w h zoom v0, project64 w h zoom v1, project64 w h zoom v2
  with
  | Some (x0, y0, z0), Some (x1, y1, z1), Some (x2, y2, z2) =>
      let min_x :=
        let m := f64_floor (fmin64 x0 (fmin64 x1 x2)) in
        if (m <? 0)%Z then 0%Z else m in
      let max_x :=
        let m := f64_ceil (fmax64 x0 (fmax64 x1 x2)) in
        if (m >=? w)%Z then (w - 1)%Z else m in
      let min_y :=
        let m := f64_floor (fmin64 y0 (fmin64 y1 y2)) in
        if (m <? 0)%Z then 0%Z else m in
      let max_y :=
        let m := f64_ceil (fmax64 y0 (fmax64 y1 y2)) in
        if (m >=? h * 2)%Z then (h * 2 - 1)%Z else m in
      if tri_degenerate64 (tri_area64 x0 y0 x1 y1 x2 y2) then None
      else if negb ((min_y <=? y)%Z && (y <=? max_y)%Z
                    && (min_x <=? x)%Z && (x <=? max_x)%Z) then None
      else
        let py := f64_of_int y + 0.5 in
        let px := f64_of_int x + 0.5 in
        if tri_inside64 x0 y0 x1 y1 x2 y2 px py then
          let cell_y := Z.quot y 2 in
          if ((cell_y >=? 0)%Z && (cell_y <? h)%Z)%bool
          then Some (tri_depth64 x0 y0 z0 x1 y1 z1 x2 y2 z2 px py)
          else None
        else None
  | _, _, _ => None
  end.

(** The second triangle of the front face of the cube at zero rotation,
    in camera space, and the zoom [0.6] the program starts with. *)
Definition front_v0 : Vec64 := mkVec64 1 (-1) (-4).
Definition front_v1 : Vec64 := mkVec64 (-1) 1 (-4).
Definition front_v2 : Vec64 := mkVec64 1 1 (-4).
Definition zoom64 : float := 0x1.3333333333333p-1.

(** A two-by-one framebuffer whose right cell holds a white fragment at
    depth [-6] in both slots, and the double nearest to [-6.01]. *)
Definition demo_buf64 : Buffer64 :=
  mkBuffer64 2 1 [black; rgb 255 255 255] [black; rgb 255 255 255]
             [-0x1.2a05f2p+33; -6] [-0x1.2a05f2p+33; -6].
Definition near_depth64 : float := -0x1.80a3d70a3d70ap+2.
End Binary64.


(** * Properties *)

(** ** Array writes *)

Lemma upd_length {A : Type} (i : nat) (v : A) (l : list A) :
  Datatypes.length (upd i v l) = Datatypes.length l.
Proof.
  revert i; induction l as [|h t IH]; intros [|j]; simpl; auto.
Qed.

Lemma nth_upd_same {A : Type} (i : nat) (v d : A) (l : list A) :
  (i < Datatypes.length l)%nat -> nth i (upd i v l) d = v.
Proof.
  revert i; induction l as [|h t IH]; intros [|j] H; simpl in *; try lia; auto.
  apply IH; lia.
Qed.

Lemma nth_upd_other {A : Type} (i j : nat) (v d : A) (l : list A) :
  i <> j -> nth j (upd i v l) d = nth j l d.
Proof.
  revert i j; induction l as [|h t IH]; intros [|i] [|j] H; simpl; auto;
    try congruence.
Qed.

(** ** Framebuffer *)

Lemma in_bounds_iff (b : Buffer) (x y : Z) :
  in_bounds b x y = true <->
  (0 <= x < width b)%Z /\ (0 <= y < height b)%Z.
Proof.
  unfold in_bounds.
  rewrite negb_true_iff, !orb_false_iff, Z.ltb_ge, Z.ltb_ge, !Z.geb_leb, !Z.leb_gt.
  lia.
Qed.

Lemma cell_index_lt (b : Buffer) (x y : Z) :
  in_bounds b x y = true -> (cell_index b x y < buf_size b)%nat.
Proof.
  rewrite in_bounds_iff; intros [Hx Hy].
  unfold cell_index, buf_size.
  apply Z2Nat.inj_lt; nia.
Qed.

(** C1.  Top-slot depth test of [put_pixel]: on an in-bounds cell of an
    allocated buffer, a write whose depth is equal to or lower than the
    stored top depth leaves the whole buffer as it was, and a write whose
    depth is strictly greater stores both the new colour and the new depth
    in the top slot of that cell (the bottom slot is not touched). *)
Theorem put_pixel_top_depth_test
  (b : Buffer) (x y : Z) (col : Color) (depth : R) :
  wf_buffer b -> in_bounds b x y = true ->
  let idx := cell_index b x y in
  let b' := put_pixel b x y true col depth in
  (depth <= nth idx (top_depth b) 0 -> b' = b) /\
  (depth > nth idx (top_depth b) 0 ->
     nth idx (top_color b') black = col /\
     nth idx (top_depth b') 0 = depth /\
     bot_color b' = bot_color b /\ bot_depth b' = bot_depth b).
Proof.
  intros Hwf Hin idx b'.
  pose proof (cell_index_lt b x y Hin) as Hidx.
  destruct Hwf as (_ & _ & Htc & _ & Htd & _).
  subst b'; unfold put_pixel; rewrite Hin; simpl; fold idx.
  destruct (Rgt_dec depth (nth idx (top_depth b) 0)) as [Hgt | Hle].
  - split; [intros; lra |].
    intros _; simpl.
    rewrite !nth_upd_same by (subst idx; lia); auto.
  - split; [reflexivity | intros; lra].
Qed.

Lemma demo_buf_wf : wf_buffer demo_buf.
Proof. unfold wf_buffer; simpl; repeat split; lia. Qed.

Lemma put_pixel_top_depth_test_witness :
  put_pixel demo_buf 1 0 true red (-6) = demo_buf /\
  nth 1 (top_color (put_pixel demo_buf 1 0 true red (-5))) black = red /\
  nth 1 (top_depth (put_pixel demo_buf 1 0 true red (-5))) 0 = -5.
Proof.
  split.
  - apply (proj1 (put_pixel_top_depth_test demo_buf 1 0 red (-6)
                    demo_buf_wf eq_refl)).
    simpl; lra.
  - destruct (proj2 (put_pixel_top_depth_test demo_buf 1 0 red (-5)
                       demo_buf_wf eq_refl)) as (H1 & H2 & _).
    + simpl; lra.
    + split; [exact H1 | exact H2].
Defined.

Section Binary64Pixel.
Import PrimFloat.

Lemma in_bounds64_iff (b : Buffer64) (x y : Z) :
  in_bounds64 b x y = true <->
  (0 <= x < width64 b)%Z /\ (0 <= y < height64 b)%Z.
Proof.
  unfold in_bounds64.
  rewrite negb_true_iff, !orb_false_iff, Z.ltb_ge, Z.ltb_ge, !Z.geb_leb, !Z.leb_gt.
  lia.
Qed.

Lemma cell_index64_lt (b : Buffer64) (x y : Z) :
  in_bounds64 b x y = true ->
  (cell_index64 b x y < Z.to_nat (width64 b * height64 b))%nat.
Proof.
  rewrite in_bounds64_iff; intros [Hx Hy].
  unfold cell_index64.
  apply Z2Nat.inj_lt; nia.
Qed.

Lemma demo_buf64_wf : wf_buffer64 demo_buf64.
Proof. unfold wf_buffer64; simpl; repeat split; lia. Qed.

(** C2 (as stated, refuted).  The right cell of [demo_buf64] stores the
    bottom depth [-6]; the double nearest to [-6.01] is less than [0.01]
    below it (by [0.0099999999999997868...]), so the write is within "up
    to 0.01 below"; yet [put_pixel] does not replace the stored colour: in
    binary64 the threshold [-6 - 0.01] rounds to that very double, and the
    comparison is strict. *)
Lemma put_pixel64_bias_rounded :
  in_bounds64 demo_buf64 1 0 = true /\
  nth (cell_index64 demo_buf64 1 0) (bot_depth64 demo_buf64) 0%float
  = (-6)%float /\
  0 < f64_real (-6)%float - f64_real near_depth64 < 0.01 /\
  put_pixel64 demo_buf64 1 0 false red near_depth64 = demo_buf64 /\
  nth (cell_index64 demo_buf64 1 0)
      (bot_color64 (put_pixel64 demo_buf64 1 0 false red near_depth64)) black
  <> red.
Proof.
  assert (E : put_pixel64 demo_buf64 1 0 false red near_depth64 = demo_buf64)
    by (vm_compute; reflexivity).
  split; [reflexivity |]. split; [reflexivity |].
  split; [| split; [exact E |]].
  - assert (E1 : FloatOps.Prim2SF (-6)%float
                 = SpecFloat.S754_finite true 6755399441055744 (-50))
      by (vm_compute; reflexivity).
    assert (E2 : FloatOps.Prim2SF near_depth64
                 = SpecFloat.S754_finite true 6766658440124170 (-50))
      by (vm_compute; reflexivity).
    unfold f64_real. rewrite E1, E2.
    unfold powerRZ. rewrite pow_IZR, positive_nat_Z.
    change (2 ^ 50)%Z with 1125899906842624%Z.
    lra.
  - rewrite E. simpl. unfold red, rgb. congruence.
Qed.

(** C2 (amended).  Bottom-slot bias of [put_pixel] in binary64: on an
    in-bounds cell of an allocated buffer, a write stores the new colour
    and depth in the bottom slot (the top slot is not touched) exactly
    when its depth is strictly greater than the threshold, which is the
    stored bottom depth minus [0.01] rounded to the nearest double, and
    leaves the buffer as it was otherwise.  The bias is therefore [0.01]
    only up to the rounding of the constant and of the subtraction. *)
Theorem put_pixel64_bottom_bias
  (b : Buffer64) (x y : Z) (col : Color) (depth : float) :
  wf_buffer64 b -> in_bounds64 b x y = true ->
  let idx := cell_index64 b x y in
  let threshold := (nth idx (bot_depth64 b) 0 - bias64)%float in
  let b' := put_pixel64 b x y false col depth in
  ((threshold <? depth)%float = true ->
     nth idx (bot_color64 b') black = col /\
     nth idx (bot_depth64 b') 0%float = depth /\
     top_color64 b' = top_color64 b /\ top_depth64 b' = top_depth64 b) /\
  ((threshold <? depth)%float = false -> b' = b).
Proof.
  intros Hwf Hin idx threshold b'.
  pose proof (cell_index64_lt b x y Hin) as Hidx.
  destruct Hwf as (_ & _ & _ & Hbc & _ & Hbd).
  subst b' threshold; unfold put_pixel64; rewrite Hin; simpl; fold idx.
  destruct (nth idx (bot_depth64 b) 0 - bias64 <? depth)%float.
  - split; [| intros; discriminate].
    intros _; simpl.
    rewrite !nth_upd_same by (subst idx; lia); auto.
  - split; [intros; discriminate | reflexivity].
Qed.

Lemma put_pixel64_bottom_bias_witness :
  nth 1 (bot_color64
           (put_pixel64 demo_buf64 1 0 false red
                        (-0x1.8051eb851eb85p+2)%float)) black = red /\
  put_pixel64 demo_buf64 1 0 false red (-0x1.8147ae147ae14p+2)%float
  = demo_buf64.
Proof.
  destruct (proj1 (put_pixel64_bottom_bias demo_buf64 1 0 red
                     (-0x1.8051eb851eb85p+2)%float demo_buf64_wf eq_refl))
    as (H1 & _).
  - vm_compute. reflexivity.
  - split; [exact H1 |].
    apply (proj2 (put_pixel64_bottom_bias demo_buf64 1 0 red
                    (-0x1.8147ae147ae14p+2)%float demo_buf64_wf eq_refl)).
    vm_compute. reflexivity.
Defined.
End Binary64Pixel.

(** ** Projection *)

Lemma project_none_iff (b : Buffer) (zoom : R) (p : Vec3) :
  project b zoom p = None <-> vz p >= -0.5 \/ vz p <= -100.
Proof.
  unfold project.
  destruct (Rge_dec (vz p) (-0.5)) as [H1 | H1].
  - split; auto.
  - destruct (Rle_dec (vz p) (-100)) as [H2 | H2].
    + split; auto.
    + split; [discriminate | intros [H | H]; lra].
Qed.

Lemma project_some_depth (b : Buffer) (zoom : R) (p : Vec3) (x y z : R) :
  project b zoom p = Some (x, y, z) -> z = vz p /\ -100 < z < -0.5.
Proof.
  unfold project.
  destruct (Rge_dec (vz p) (-0.5)) as [H1 | H1]; [discriminate |].
  destruct (Rle_dec (vz p) (-100)) as [H2 | H2]; [discriminate |].
  intros H; injection H as _ _ Hz; subst z; lra.
Qed.

(** C3 (as stated, refuted).  The point [(0, 0, 1)] has [z] outside
    [[-0.5, 0]] and above [-100], so the claim has it accepted; [project]
    rejects it. *)
Lemma project_rejects_positive_z :
  ~ (-0.5 <= vz (v3 0 0 1) <= 0) /\ ~ (vz (v3 0 0 1) <= -100) /\
  project demo_buf 0.6 (v3 0 0 1) = None.
Proof.
  simpl; repeat split.
  - lra.
  - lra.
  - apply project_none_iff; simpl; lra.
Qed.

(** C3 (amended).  Projection window: [project] rejects exactly the points
    with [z >= -0.5] or [z <= -100] and accepts exactly those with
    [-100 < z < -0.5], returning [z] itself as depth; its whole result
    depends on the point, the zoom and the two buffer dimensions only, so
    for fixed zoom and dimensions the same point always yields the same
    outcome, screen coordinates and depth. *)
Theorem project_window (b : Buffer) (zoom : R) (p : Vec3) :
  (project b zoom p = None <-> vz p >= -0.5 \/ vz p <= -100) /\
  ((exists sx sy, project b zoom p = Some (sx, sy, vz p)) <->
     -100 < vz p < -0.5) /\
  (forall b' : Buffer,
      width b' = width b -> height b' = height b ->
      project b' zoom p = project b zoom p).
Proof.
  split; [apply project_none_iff |].
  split.
  - split.
    + intros (sx & sy & H). apply project_some_depth in H. tauto.
    + intros H.
      destruct (project b zoom p) as [[[sx sy] z] |] eqn:E.
      * destruct (project_some_depth _ _ _ _ _ _ E) as [-> _]. eauto.
      * apply project_none_iff in E. lra.
  - intros b' Hw Hh. unfold project. rewrite Hw, Hh. reflexivity.
Qed.

Lemma project_window_witness :
  project (put_pixel demo_buf 0 0 true red (-5)) 0.6 (v3 1 1 (-6))
  = project demo_buf 0.6 (v3 1 1 (-6)).
Proof.
  apply (proj2 (proj2 (project_window demo_buf 0.6 (v3 1 1 (-6))))).
  - unfold put_pixel; simpl.
    destruct (Rgt_dec (-5) empty_depth); reflexivity.
  - unfold put_pixel; simpl.
    destruct (Rgt_dec (-5) empty_depth); reflexivity.
Defined.

(** ** Lighting *)

Lemma diff1_nonneg (t : R) (n : Vec3) : 0 <= diff1 t n.
Proof.
  unfold diff1.
  pose proof (Rmax_l 0 (dot n (light1 t))). nra.
Qed.

Lemma diff2_nonneg (n : Vec3) : 0 <= diff2 n.
Proof.
  unfold diff2.
  pose proof (Rmax_l 0 (dot n light2)). nra.
Qed.

Lemma spec_nonneg (t : R) (n : Vec3) : 0 <= spec t n.
Proof.
  unfold spec.
  pose proof (pow_le (Rmax 0 (dot n (halfway t))) 100 (Rmax_l _ _)). nra.
Qed.

(** C4.  Lighting bound: for every normal (unit length or not) and every
    value of the elapsed time, the sum of the ambient, the two diffuse and
    the specular terms is never negative (it is at least the ambient
    [0.15]), [calc_light] is that sum clamped above to [1], and the
    brightness lies in the closed interval [[0, 1]]. *)
Theorem calc_light_bounds (time_global : R) (normal : Vec3) :
  0 <= ambient <= light_sum time_global normal /\
  calc_light time_global normal
    = (if Rle_dec (light_sum time_global normal) 1
       then light_sum time_global normal else 1) /\
  0 <= calc_light time_global normal <= 1.
Proof.
  pose proof (diff1_nonneg time_global normal) as H1.
  pose proof (diff2_nonneg normal) as H2.
  pose proof (spec_nonneg time_global normal) as H3.
  assert (Ha : 0 <= ambient <= light_sum time_global normal).
  { unfold light_sum, ambient in *; lra. }
  split; [exact Ha |].
  unfold calc_light, Rmin.
  destruct (Rle_dec (light_sum time_global normal) 1); split; auto; lra.
Qed.

(** ** Lines *)

Lemma trunc_le (x y : R) : x <= y -> (trunc x <= trunc y)%Z.
Proof.
  intros Hxy. unfold trunc.
  destruct (Rle_dec 0 x) as [Hx | Hx]; destruct (Rle_dec 0 y) as [Hy | Hy];
    try lra.
  - apply Zfloor_le; exact Hxy.
  - assert (H0 : (0 <= Zfloor y)%Z) by (apply Zfloor_lub; simpl; lra).
    assert (H1 : (Zceil x < 1)%Z).
    { apply lt_IZR. pose proof (Zceil_bound x). lra. }
    lia.
  - unfold Zceil.
    assert (H : (Zfloor (- y) <= Zfloor (- x))%Z) by (apply Zfloor_le; lra).
    lia.
Qed.

Section LineLoopFacts.
Variable col : Color.
Variables dx dy sx sy ex ey : Z.
Variable dz : R.
Hypothesis dx_nonneg : (0 <= dx)%Z.
Hypothesis dy_nonneg : (0 <= dy)%Z.
Hypothesis sx_unit : sx = 1%Z \/ sx = (-1)%Z.
Hypothesis sy_unit : sy = 1%Z \/ sy = (-1)%Z.

Lemma line_at_end_iff (ra rb x y err : Z) :
  line_inv dx dy sx sy ex ey ra rb x y err ->
  line_at_end ex ey x y = true <-> (ra = 0 /\ rb = 0)%Z.
Proof.
  intros (Ha & Hb & Hx & Hy & _).
  unfold line_at_end. rewrite andb_true_iff, !Z.eqb_eq.
  destruct sx_unit as [-> | ->]; destruct sy_unit as [-> | ->]; lia.
Qed.
End LineLoopFacts.

Lemma trunc_eq (d : R) (z : Z) :
  0 <= d -> IZR z <= d < IZR z + 1 -> trunc d = z.
Proof.
  intros Hd Hz. unfold trunc.
  destruct (Rle_dec 0 d); [apply Zfloor_eq; exact Hz | lra].
Qed.

Lemma project_demo_p0 : project demo_buf 5 demo_p0 = Some (1, 1, -5).
Proof.
  unfold project, demo_p0; simpl.
  destruct (Rge_dec (-5) (-0.5)); [lra |].
  destruct (Rle_dec (-5) (-100)); [lra |].
  destruct (Rlt_dec 2 (1 * 2)); [lra |].
  repeat f_equal; lra.
Qed.

Lemma project_demo_p1 : project demo_buf 5 demo_p1 = Some (12.4, 1, -5).
Proof.
  unfold project, demo_p1; simpl.
  destruct (Rge_dec (-5) (-0.5)); [lra |].
  destruct (Rle_dec (-5) (-100)); [lra |].
  destruct (Rlt_dec 2 (1 * 2)); [lra |].
  repeat f_equal; lra.
Qed.

(** ** Rejected primitives *)

Lemma project_demo_behind (b : Buffer) (zoom : R) :
  project b zoom demo_behind = None.
Proof. apply project_none_iff; simpl; lra. Qed.

(** C8.  Primitive rejection: a line with an endpoint outside the near/far
    window makes [draw_line] return at once with the framebuffer unchanged
    (whatever the bound on loop passes); a triangle with a vertex outside
    the window, and a triangle whose three vertices project but whose
    signed area is below [1e-8] in absolute value, make [fill_tri] return
    the framebuffer unchanged. *)
Theorem rejected_primitive_unchanged
  (fuel : nat) (b : Buffer) (zoom : R) (v0 v1 v2 : Vec3)
  (col : Color) (brightness : R) :
  (project b zoom v0 = None \/ project b zoom v1 = None ->
     draw_line fuel b zoom v0 v1 col = Some b) /\
  (project b zoom v0 = None \/ project b zoom v1 = None \/
   project b zoom v2 = None ->
     fill_tri b zoom v0 v1 v2 col brightness = b) /\
  (forall x0 y0 z0 x1 y1 z1 x2 y2 z2 : R,
      project b zoom v0 = Some (x0, y0, z0) ->
      project b zoom v1 = Some (x1, y1, z1) ->
      project b zoom v2 = Some (x2, y2, z2) ->
      Rabs (tri_area x0 y0 x1 y1 x2 y2) < 1e-8 ->
      fill_tri b zoom v0 v1 v2 col brightness = b).
Proof.
  repeat split.
  - unfold draw_line. intros [H | H].
    + rewrite H. reflexivity.
    + rewrite H. destruct (project b zoom v0) as [[[? ?] ?] |]; reflexivity.
  - unfold fill_tri. intros [H | [H | H]].
    + rewrite H. reflexivity.
    + rewrite H. destruct (project b zoom v0) as [[[? ?] ?] |]; reflexivity.
    + rewrite H.
      destruct (project b zoom v0) as [[[? ?] ?] |]; [| reflexivity].
      destruct (project b zoom v1) as [[[? ?] ?] |]; reflexivity.
  - intros x0 y0 z0 x1 y1 z1 x2 y2 z2 H0 H1 H2 Harea.
    unfold fill_tri. rewrite H0, H1, H2. unfold fill_projected.
    destruct (Rlt_dec (Rabs (tri_area x0 y0 x1 y1 x2 y2)) 1e-8); [| lra].
    reflexivity.
Qed.

Lemma rejected_primitive_unchanged_witness :
  draw_line 0 demo_buf 5 demo_p0 demo_behind red = Some demo_buf /\
  fill_tri demo_buf 5 demo_p0 demo_p1 demo_behind red 1 = demo_buf /\
  fill_tri demo_buf 5 demo_p0 demo_p1 demo_p0 red 1 = demo_buf.
Proof.
  split; [| split].
  - apply (proj1 (rejected_primitive_unchanged 0 demo_buf 5
                    demo_p0 demo_behind demo_p1 red 1)).
    right. apply project_demo_behind.
  - apply (proj1 (proj2 (rejected_primitive_unchanged 0 demo_buf 5
                            demo_p0 demo_p1 demo_behind red 1))).
    right; right. apply project_demo_behind.
  - apply (proj2 (proj2 (rejected_primitive_unchanged 0 demo_buf 5
                            demo_p0 demo_p1 demo_p0 red 1))
             1 1 (-5) 12.4 1 (-5) 1 1 (-5)
             project_demo_p0 project_demo_p1 project_demo_p0).
    unfold tri_area.
    replace ((12.4 - 1) * (1 - 1) - (1 - 1) * (1 - 1)) with 0 by lra.
    rewrite Rabs_R0. lra.
Defined.

(** ** Triangles *)

Lemma for_from_ext {S : Type} (f g : Z -> S -> S) :
  (forall i s, f i s = g i s) ->
  forall n i s, for_from n i f s = for_from n i g s.
Proof.
  intros Hfg n; induction n as [| n IH]; intros i s; simpl; auto.
  rewrite Hfg. apply IH.
Qed.

Lemma for_range_ext {S : Type} (f g : Z -> S -> S) (lo hi : Z) (s : S) :
  (forall i s, f i s = g i s) -> for_range lo hi f s = for_range lo hi g s.
Proof. intros H; unfold for_range; apply for_from_ext; exact H. Qed.

Section Winding.
Variables x0 y0 z0 x1 y1 z1 x2 y2 z2 : R.

Lemma tri_area_swap :
  tri_area x0 y0 x2 y2 x1 y1 = - tri_area x0 y0 x1 y1 x2 y2.
Proof. unfold tri_area; ring. Qed.

Lemma tri_w0_swap (px py : R) :
  tri_w0 x2 y2 x1 y1 px py = - tri_w0 x1 y1 x2 y2 px py.
Proof. unfold tri_w0; ring. Qed.

Lemma tri_w1_swap (px py : R) :
  tri_w1 x0 y0 x1 y1 px py = - tri_w2 x0 y0 x1 y1 px py.
Proof. unfold tri_w1, tri_w2; ring. Qed.

Lemma tri_w2_swap (px py : R) :
  tri_w2 x0 y0 x2 y2 px py = - tri_w1 x0 y0 x2 y2 px py.
Proof. unfold tri_w1, tri_w2; ring. Qed.

Lemma tri_inside_swap (px py : R) :
  tri_inside x0 y0 x2 y2 x1 y1 px py = tri_inside x0 y0 x1 y1 x2 y2 px py.
Proof.
  unfold tri_inside.
  rewrite tri_area_swap, tri_w0_swap, tri_w1_swap, tri_w2_swap.
  generalize (tri_area x0 y0 x1 y1 x2 y2) (tri_w0 x1 y1 x2 y2 px py)
             (tri_w1 x0 y0 x2 y2 px py) (tri_w2 x0 y0 x1 y1 px py).
  intros a w0 w1 w2.
  repeat match goal with
         | |- context [Rgt_dec ?u ?v] => destruct (Rgt_dec u v)
         | |- context [Rlt_dec ?u ?v] => destruct (Rlt_dec u v)
         | |- context [Rge_dec ?u ?v] => destruct (Rge_dec u v)
         | |- context [Rle_dec ?u ?v] => destruct (Rle_dec u v)
         end;
    try reflexivity; exfalso; lra.
Qed.

Lemma tri_depth_swap (px py : R) :
  tri_depth x0 y0 z0 x2 y2 z2 x1 y1 z1 px py
  = tri_depth x0 y0 z0 x1 y1 z1 x2 y2 z2 px py.
Proof.
  unfold tri_depth.
  rewrite tri_area_swap, tri_w0_swap, tri_w1_swap, tri_w2_swap.
  unfold Rdiv. rewrite Rinv_opp. ring.
Qed.

Lemma tri_pixel_swap (shaded : Color) (y x : Z) (b : Buffer) :
  tri_pixel x0 y0 z0 x2 y2 z2 x1 y1 z1 shaded y x b
  = tri_pixel x0 y0 z0 x1 y1 z1 x2 y2 z2 shaded y x b.
Proof.
  unfold tri_pixel. rewrite tri_inside_swap, tri_depth_swap. reflexivity.
Qed.

Lemma fill_projected_swap (b : Buffer) (col : Color) (brightness : R) :
  fill_projected x0 y0 z0 x2 y2 z2 x1 y1 z1 b col brightness
  = fill_projected x0 y0 z0 x1 y1 z1 x2 y2 z2 b col brightness.
Proof.
  unfold fill_projected, tri_min_x, tri_max_x, tri_min_y, tri_max_y.
  rewrite tri_area_swap, Rabs_Ropp.
  rewrite (Rmin_comm x2 x1), (Rmax_comm x2 x1),
          (Rmin_comm y2 y1), (Rmax_comm y2 y1).
  destruct (Rlt_dec (Rabs (tri_area x0 y0 x1 y1 x2 y2)) 1e-8); [reflexivity |].
  apply for_range_ext; intros y s.
  apply for_range_ext; intros x s'.
  apply tri_pixel_swap.
Qed.
End Winding.

Section Binary64Triangle.
Import PrimFloat SpecFloat FloatOps FloatAxioms.

Lemma SFmul_comm (x y : spec_float) : SF64mul x y = SF64mul y x.
Proof.
  unfold SF64mul, SFmul.
  destruct x as [sx | sx | | sx mx ex], y as [sy | sy | | sy my ey];
    try reflexivity; try (rewrite (xorb_comm sx sy); reflexivity).
  rewrite (xorb_comm sx sy), (Pos.mul_comm mx my), (Z.add_comm ex ey).
  reflexivity.
Qed.

Lemma f64_mul_comm (x y : float) : (x * y)%float = (y * x)%float.
Proof. apply Prim2SF_inj. rewrite !mul_spec. apply SFmul_comm. Qed.

Lemma binary_round_aux_opp (s : bool) (m e : Z) (l : location) :
  binary_round_aux prec emax (negb s) m e l
  = SFopp (binary_round_aux prec emax s m e l).
Proof.
  unfold binary_round_aux.
  destruct (shr_fexp prec emax m e l) as [mrs' e'].
  destruct (shr_fexp prec emax _ e' loc_Exact) as [mrs'' e''].
  destruct (shr_m mrs''); try reflexivity.
  destruct (e'' <=? emax - prec)%Z; reflexivity.
Qed.

(** Rounding is symmetric: the double nearest to [- m * 2^e] is the
    opposite of the one nearest to [m * 2^e], except that an exact zero is
    [+0] on both sides. *)
Lemma binary_normalize_opp (m e : Z) :
  binary_normalize prec emax (- m) e false
  = SFopp (binary_normalize prec emax m e false) \/
  (binary_normalize prec emax m e false = S754_zero false /\
   binary_normalize prec emax (- m) e false = S754_zero false).
Proof.
  destruct m as [| p | p]; simpl.
  - right; split; reflexivity.
  - left. unfold binary_round.
    destruct (shl_align p e _) as [mz ez].
    apply (binary_round_aux_opp false).
  - left. unfold binary_round.
    destruct (shl_align p e _) as [mz ez].
    rewrite (binary_round_aux_opp true).
    generalize (binary_round_aux prec emax true (Z.pos mz) ez loc_Exact).
    intros [ | | | ]; reflexivity.
Qed.

Lemma SFsub_swap (x y : spec_float) :
  SF64sub y x = SFopp (SF64sub x y) \/
  (SF64sub x y = S754_zero false /\ SF64sub y x = S754_zero false).
Proof.
  unfold SF64sub, SFsub.
  destruct x as [[|] | [|] | | sx mx ex], y as [[|] | [|] | | sy my ey];
    try (left; reflexivity); try (right; split; reflexivity).
  - left. simpl. rewrite negb_involutive. reflexivity.
  - left. simpl. rewrite negb_involutive. reflexivity.
  - rewrite (Z.min_comm ey ex).
    set (ez := Z.min ex ey).
    set (P := cond_Zopp sx (Z.pos (fst (shl_align mx ex ez)))).
    set (Q := cond_Zopp sy (Z.pos (fst (shl_align my ey ez)))).
    replace (Q - P)%Z with (- (P - Q))%Z by lia.
    destruct (binary_normalize_opp (P - Q) ez) as [H | [H1 H2]];
      [left; exact H | right; split; assumption].
Qed.

Lemma SFabs_opp (v : spec_float) : SFabs (SFopp v) = SFabs v.
Proof. destruct v; reflexivity. Qed.

Lemma SFltb_opp_pos (v : spec_float) :
  SFltb (S754_zero false) (SFopp v) = SFltb v (S754_zero false).
Proof. destruct v as [[|] | [|] | | [|] m e]; reflexivity. Qed.

Lemma SFltb_opp_neg (v : spec_float) :
  SFltb (SFopp v) (S754_zero false) = SFltb (S754_zero false) v.
Proof. destruct v as [[|] | [|] | | [|] m e]; reflexivity. Qed.

(** [b - a] and [a - b] have the same magnitude and opposite signs in
    binary64 as well. *)
Lemma f64_sub_swap (a b : float) :
  abs (b - a) = abs (a - b) /\
  (0 <? b - a)%float = (a - b <? 0)%float /\
  (b - a <? 0)%float = (0 <? a - b)%float.
Proof.
  assert (Hz0 : Prim2SF 0 = S754_zero false) by reflexivity.
  split; [apply Prim2SF_inj; rewrite !abs_spec | rewrite !ltb_spec, Hz0];
    rewrite !sub_spec;
    destruct (SFsub_swap (Prim2SF a) (Prim2SF b)) as [H | [H1 H2]].
  - rewrite H. apply SFabs_opp.
  - rewrite H1, H2. reflexivity.
  - rewrite H. split; [apply SFltb_opp_pos | apply SFltb_opp_neg].
  - rewrite H1, H2. split; reflexivity.
Qed.

(** C7 (as stated, refuted).  The second triangle of the front face of the
    cube at zero rotation, on an 80 by 24 terminal at the initial zoom:
    all three vertices project and the area is far from degenerate, yet
    in binary64 [fill_tri (v0, v1, v2)] accepts sub-pixel [(26, 10)],
    whose centre lies on the edge from [v0] to [v1] (its edge function is
    exactly [0]), and [fill_tri (v0, v2, v1)] rejects it (its edge
    function rounds to [4.9e-14] with the wrong sign); and at sub-pixel
    [(27, 10)], which both accept, the two depths differ in the last
    place. *)
Lemma fill_tri_winding_rounding :
  fill_sample64 80 24 zoom64 front_v0 front_v1 front_v2 26 10
  = Some (-4)%float /\
  fill_sample64 80 24 zoom64 front_v0 front_v2 front_v1 26 10 = None /\
  fill_sample64 80 24 zoom64 front_v0 front_v1 front_v2 27 10
  = Some (-0x1.0000000000001p+2)%float /\
  fill_sample64 80 24 zoom64 front_v0 front_v2 front_v1 27 10
  = Some (-4)%float.
Proof. repeat split; vm_compute; reflexivity. Qed.

(** C7 (amended).  What exchanging the second and third vertex of a
    triangle keeps.  In binary64 the signed area keeps its magnitude and
    changes its sign, so the same triangles are skipped as degenerate and
    the sign test of the other winding applies; the three edge functions
    are rounded differently.  In exact arithmetic, where they are
    opposite as well, the acceptance test of every sub-pixel centre and the
    depth interpolated there are the same and [fill_tri] produces the same
    framebuffer for [(v0, v1, v2)] and [(v0, v2, v1)]. *)
Theorem fill_tri_winding_law
  (b : Buffer) (zoom : R) (v0 v1 v2 : Vec3) (col : Color) (brightness : R) :
  (forall x0 y0 x1 y1 x2 y2 : float,
      let a := tri_area64 x0 y0 x1 y1 x2 y2 in
      let a' := tri_area64 x0 y0 x2 y2 x1 y1 in
      abs a' = abs a /\
      tri_degenerate64 a' = tri_degenerate64 a /\
      (0 <? a')%float = (a <? 0)%float /\
      (a' <? 0)%float = (0 <? a)%float) /\
  (forall x0 y0 z0 x1 y1 z1 x2 y2 z2 px py : R,
      tri_inside x0 y0 x2 y2 x1 y1 px py
      = tri_inside x0 y0 x1 y1 x2 y2 px py /\
      tri_depth x0 y0 z0 x2 y2 z2 x1 y1 z1 px py
      = tri_depth x0 y0 z0 x1 y1 z1 x2 y2 z2 px py) /\
  fill_tri b zoom v0 v2 v1 col brightness
  = fill_tri b zoom v0 v1 v2 col brightness.
Proof.
  split; [| split].
  - intros x0 y0 x1 y1 x2 y2 a a'. subst a a'.
    unfold tri_degenerate64, tri_area64.
    rewrite (f64_mul_comm (x2 - x0) (y1 - y0)),
            (f64_mul_comm (y2 - y0) (x1 - x0)).
    destruct (f64_sub_swap ((x1 - x0) * (y2 - y0)) ((y1 - y0) * (x2 - x0)))
      as (H1 & H2 & H3).
    rewrite H1. auto.
  - intros; split; [apply tri_inside_swap | apply tri_depth_swap].
  - unfold fill_tri.
    destruct (project b zoom v0) as [[[x0 y0] z0] |]; [| reflexivity].
    destruct (project b zoom v1) as [[[x1 y1] z1] |],
             (project b zoom v2) as [[[x2 y2] z2] |]; try reflexivity.
    apply fill_projected_swap.
Qed.
End Binary64Triangle.

(** ** Backface culling *)

Lemma visible_idx (time_global : R) (verts : list Vec3) :
  map f_idx (visible_faces time_global verts)
  = filter (fun i =>
              if Rgt_dec (dot (face_normal verts i) (face_to_cam verts i)) 0
              then true else false)
           [0; 1; 2; 3; 4; 5]%Z.
Proof.
  unfold visible_faces, for_range.
  change (Z.to_nat (5 - 0 + 1)) with 6%nat.
  cbn [for_from filter].
  change (0 + 1)%Z with 1%Z. change (1 + 1)%Z with 2%Z.
  change (2 + 1)%Z with 3%Z. change (3 + 1)%Z with 4%Z.
  change (4 + 1)%Z with 5%Z.
  unfold cull_step.
  repeat match goal with
         | |- context [Rgt_dec ?u ?v] => destruct (Rgt_dec u v)
         end; reflexivity.
Qed.

Lemma transform_zero (v : Vec3) :
  transform 0 0 0 v = v3 (vx v) (vy v) (vz v - 5).
Proof.
  unfold transform, rot_z_apply, rot_y_apply, rot_x_apply, scale, v3; simpl.
  rewrite cos_0, sin_0. f_equal; ring.
Qed.

Lemma length_ge_one (v : Vec3) : 1 <= dot v v -> length v > 1e-8.
Proof.
  intros H. unfold length.
  assert (1 <= sqrt (dot v v)).
  { rewrite <- sqrt_1 at 1. apply sqrt_le_1; lra. }
  lra.
Qed.

Lemma dot_scale (a b : Vec3) (s t : R) :
  dot (scale a s) (scale b t) = s * t * dot a b.
Proof. unfold dot, scale; simpl; ring. Qed.

Lemma dot_normalize_pos (a b : Vec3) :
  1 <= dot a a -> 1 <= dot b b -> dot a b > 0 ->
  dot (normalize a) (normalize b) > 0.
Proof.
  intros Ha Hb Hab.
  pose proof (length_ge_one a Ha) as La.
  pose proof (length_ge_one b Hb) as Lb.
  unfold normalize.
  destruct (Rgt_dec (length a) 1e-8); [| lra].
  destruct (Rgt_dec (length b) 1e-8); [| lra].
  rewrite dot_scale.
  assert (0 < 1 / length a) by (apply Rdiv_lt_0_compat; lra).
  assert (0 < 1 / length b) by (apply Rdiv_lt_0_compat; lra).
  assert (0 < 1 / length a * (1 / length b))
    by (apply Rmult_lt_0_compat; lra).
  apply Rmult_lt_0_compat; lra.
Qed.

Lemma dot_normalize_nonpos (a b : Vec3) :
  dot a b <= 0 -> dot (normalize a) (normalize b) <= 0.
Proof.
  intros Hab. unfold normalize.
  destruct (Rgt_dec (length a) 1e-8) as [La | La];
    destruct (Rgt_dec (length b) 1e-8) as [Lb | Lb];
    try (unfold dot, scale, v3; simpl; lra).
  rewrite dot_scale.
  assert (0 < 1 / length a) by (apply Rdiv_lt_0_compat; lra).
  assert (0 < 1 / length b) by (apply Rdiv_lt_0_compat; lra).
  assert (0 < 1 / length a * (1 / length b))
    by (apply Rmult_lt_0_compat; lra).
  nra.
Qed.

Ltac zero_rotation_face :=
  unfold transform_verts, CUBE_VERTS; cbn [map]; rewrite !transform_zero;
  unfold face_normal, face_to_cam, face_center; simpl.

Ltac facing_camera :=
  zero_rotation_face;
  apply dot_normalize_pos; unfold dot, cross, sub, add, scale, v3; simpl; lra.

Ltac facing_away :=
  zero_rotation_face; apply Rle_not_lt;
  apply dot_normalize_nonpos; unfold dot, cross, sub, add, scale, v3; simpl;
  lra.

(** With all three angles zero every face but face 1 passes the culling
    test: the winding of [CUBE_FACES] makes each computed normal point into
    the cube, so the five faces whose inner side is turned to the camera are
    kept and the face nearest the camera is dropped. *)
Lemma visible_faces_zero_rotation (time_global : R) :
  map f_idx (visible_faces time_global (transform_verts 0 0 0))
  = [0; 2; 3; 4; 5]%Z.
Proof.
  rewrite visible_idx. cbn [filter].
  set (V := transform_verts 0 0 0).
  assert (H0 : dot (face_normal V 0) (face_to_cam V 0) > 0)
    by (subst V; facing_camera).
  assert (H1 : ~ dot (face_normal V 1) (face_to_cam V 1) > 0)
    by (subst V; facing_away).
  assert (H2 : dot (face_normal V 2) (face_to_cam V 2) > 0)
    by (subst V; facing_camera).
  assert (H3 : dot (face_normal V 3) (face_to_cam V 3) > 0)
    by (subst V; facing_camera).
  assert (H4 : dot (face_normal V 4) (face_to_cam V 4) > 0)
    by (subst V; facing_camera).
  assert (H5 : dot (face_normal V 5) (face_to_cam V 5) > 0)
    by (subst V; facing_camera).
  repeat match goal with
         | |- context [Rgt_dec ?u ?v] => destruct (Rgt_dec u v)
         end; try reflexivity; contradiction.
Qed.

(** C5 (as stated, refuted).  With all three rotation angles zero and the
    translation [z -= 5.0], five of the six faces of the cube are retained,
    not three. *)
Lemma zero_rotation_not_three_faces :
  map f_idx (visible_faces 0 (transform_verts 0 0 0)) = [0; 2; 3; 4; 5]%Z /\
  Datatypes.length (visible_faces 0 (transform_verts 0 0 0)) <> 3%nat.
Proof.
  pose proof (visible_faces_zero_rotation 0) as H.
  split; [exact H |].
  rewrite <- (length_map f_idx), H. simpl. lia.
Qed.

(** C5 (amended).  Backface culling: a face is retained exactly when the
    dot product of its computed normal with the normalized direction from
    its centroid toward the camera (the negated centroid) is strictly
    positive; and for the reference cube with all three rotation angles
    zero and the translation [z -= 5.0], exactly 5 of the 6 faces are
    retained, namely every face but face 1. *)
Theorem backface_culling (time_global : R) (verts : list Vec3) (i : Z) :
  (In i (map f_idx (visible_faces time_global verts)) <->
     (0 <= i <= 5)%Z /\
     dot (face_normal verts i)
         (normalize (scale (face_center verts i) (-1))) > 0) /\
  map f_idx (visible_faces time_global (transform_verts 0 0 0))
  = [0; 2; 3; 4; 5]%Z /\
  Datatypes.length (visible_faces time_global (transform_verts 0 0 0)) = 5%nat.
Proof.
  split; [| split].
  - rewrite visible_idx, filter_In. fold (face_to_cam verts i).
    destruct (Rgt_dec (dot (face_normal verts i) (face_to_cam verts i)) 0)
      as [H | H]; simpl.
    + split.
      * intros [Hin _]. split; [simpl in Hin; lia | exact H].
      * intros [Hi _]. split; [simpl; lia | reflexivity].
    + split.
      * intros [_ Hf]. discriminate.
      * intros [_ Hd]. contradiction.
  - apply visible_faces_zero_rotation.
  - rewrite <- (length_map f_idx), visible_faces_zero_rotation. reflexivity.
Qed.

(** ** The face sort permutes the visible faces *)

Lemma upd_nth_perm {A : Type} (d h : A) (t : list A) :
  forall k, (k < Datatypes.length t)%nat ->
            Permutation (nth k t d :: upd k h t) (h :: t).
Proof.
  induction t as [| c t IH]; intros [| k] Hk; simpl in *; try lia.
  - apply perm_swap.
  - apply Permutation_trans with (c :: nth k t d :: upd k h t);
      [apply perm_swap |].
    apply Permutation_trans with (c :: h :: t); [| apply perm_swap].
    apply perm_skip. apply IH. lia.
Qed.

Lemma swap_perm {A : Type} (d : A) (l : list A) :
  forall i j, (i < j)%nat -> (j < Datatypes.length l)%nat ->
              Permutation (upd j (nth i l d) (upd i (nth j l d) l)) l.
Proof.
  induction l as [| h t IH]; intros i j Hij Hj; simpl in Hj; [lia |].
  destruct j as [| j]; [lia |].
  destruct i as [| i]; simpl.
  - apply upd_nth_perm. lia.
  - apply perm_skip. apply IH; lia.
Qed.

Lemma sort_swap_perm (i j : Z) (faces : list Face) :
  (0 <= i < j)%Z -> (j < Z.of_nat (Datatypes.length faces))%Z ->
  Permutation (sort_swap i j faces) faces.
Proof.
  intros Hij Hj. unfold sort_swap, face_get.
  destruct (Rgt_dec _ _); [| apply Permutation_refl].
  apply swap_perm; lia.
Qed.

Lemma sort_inner_perm (i : Z) :
  forall (k : nat) (j : Z) (faces : list Face),
    (0 <= i < j)%Z ->
    (j + Z.of_nat k <= Z.of_nat (Datatypes.length faces))%Z ->
    Permutation (for_from k j (sort_swap i) faces) faces.
Proof.
  induction k as [| k IH]; intros j faces Hij Hk; simpl.
  - apply Permutation_refl.
  - assert (Hp : Permutation (sort_swap i j faces) faces)
      by (apply sort_swap_perm; lia).
    apply Permutation_trans with (sort_swap i j faces); [| exact Hp].
    apply IH; [lia |].
    rewrite (Permutation_length Hp). lia.
Qed.

Lemma sort_outer_perm (n : Z) :
  forall (k : nat) (i : Z) (faces : list Face),
    (0 <= i)%Z -> Z.of_nat (Datatypes.length faces) = n ->
    Permutation
      (for_from k i
         (fun i fs => for_range (i + 1) (n - 1) (sort_swap i) fs) faces)
      faces.
Proof.
  induction k as [| k IH]; intros i faces Hi Hn; simpl.
  - apply Permutation_refl.
  - assert (Hp : Permutation (for_range (i + 1) (n - 1) (sort_swap i) faces)
                             faces).
    { unfold for_range.
      destruct (Z.to_nat (n - 1 - (i + 1) + 1)) as [| m] eqn:E;
        [apply Permutation_refl |].
      apply sort_inner_perm; lia. }
    eapply Permutation_trans; [| exact Hp].
    apply IH; [lia |].
    rewrite (Permutation_length Hp). exact Hn.
Qed.

Lemma sort_faces_perm (faces : list Face) :
  Permutation (sort_faces faces) faces.
Proof.
  unfold sort_faces, for_range. apply sort_outer_perm; [lia | reflexivity].
Qed.

(** ** Silhouette edges *)

Lemma face_has_four (a b c d v0 v1 : Z) :
  face_has [a; b; c; d] v0 v1
  = (existsb (Z.eqb v0) [a; b; c; d], existsb (Z.eqb v1) [a; b; c; d]).
Proof.
  unfold face_has, for_range, face_vert; simpl.
  rewrite !(Z.eqb_sym v0), !(Z.eqb_sym v1).
  destruct (a =? v0)%Z, (b =? v0)%Z, (c =? v0)%Z, (d =? v0)%Z,
           (a =? v1)%Z, (b =? v1)%Z, (c =? v1)%Z, (d =? v1)%Z; reflexivity.
Qed.

Lemma face_at_four (i : Z) :
  (0 <= i <= 5)%Z -> exists a b c d, face_at i = [a; b; c; d].
Proof.
  intros Hi.
  assert (H : (i = 0 \/ i = 1 \/ i = 2 \/ i = 3 \/ i = 4 \/ i = 5)%Z) by lia.
  destruct H as [-> | [-> | [-> | [-> | [-> | ->]]]]];
    unfold face_at; simpl; eauto.
Qed.

Lemma edge_shared_count (v0 v1 : Z) (faces : list Face) :
  (forall f, In f faces -> (0 <= f_idx f <= 5)%Z) ->
  edge_shared faces v0 v1 = Z.of_nat (sharing_count faces v0 v1).
Proof.
  unfold edge_shared, sharing_count.
  assert (G : forall acc : Z,
             (forall f, In f faces -> (0 <= f_idx f <= 5)%Z) ->
             fold_left
               (fun shared f =>
                  let '(has_v0, has_v1) := face_has (face_at (f_idx f)) v0 v1 in
                  if (has_v0 && has_v1)%bool then (shared + 1)%Z else shared)
               faces acc
             = (acc + Z.of_nat
                  (Datatypes.length
                     (filter (fun f => contains_both (face_at (f_idx f)) v0 v1)
                             faces)))%Z).
  { induction faces as [| f fs IH]; intros acc Hv; [simpl; lia |].
    cbn [fold_left filter].
    destruct (face_at_four (f_idx f)) as (a & b & c & d & E);
      [apply Hv; left; reflexivity |].
    rewrite IH by (intros; apply Hv; right; assumption).
    rewrite E, face_has_four. unfold contains_both at 2.
    destruct (existsb (Z.eqb v0) [a; b; c; d]
              && existsb (Z.eqb v1) [a; b; c; d])%bool;
      cbn [Datatypes.length]; lia. }
  intros Hv. rewrite G by exact Hv. lia.
Qed.

Lemma sharing_count_perm (v0 v1 : Z) (l l' : list Face) :
  Permutation l l' -> sharing_count l v0 v1 = sharing_count l' v0 v1.
Proof.
  unfold sharing_count.
  induction 1 as [| x l l' _ IH | x y l | l l' l'' _ IH1 _ IH2]; simpl.
  - reflexivity.
  - destruct (contains_both _ _ _); simpl; congruence.
  - destruct (contains_both (face_at (f_idx x)) v0 v1),
             (contains_both (face_at (f_idx y)) v0 v1); reflexivity.
  - congruence.
Qed.

Lemma visible_faces_idx_range (time_global : R) (verts : list Vec3) (f : Face) :
  In f (visible_faces time_global verts) -> (0 <= f_idx f <= 5)%Z.
Proof.
  intros H. apply (in_map f_idx) in H.
  rewrite visible_idx, filter_In in H. destruct H as [H _].
  simpl in H. lia.
Qed.

Lemma edge_loop_filter {S : Type} (draw : Z -> Z -> S -> S)
      (faces : list Face) (s : S) :
  edge_loop draw faces s
  = fold_left (fun s e => draw (fst e) (snd e) s)
              (filter (fun e => (edge_shared faces (fst e) (snd e) =? 1)%Z)
                      edges) s.
Proof.
  unfold edge_loop. generalize edges as es. intros es; revert s.
  induction es as [| [a b] es IH]; intros s; simpl; [reflexivity |].
  destruct (edge_shared faces a b =? 1)%Z; simpl; apply IH.
Qed.

Lemma fold_left_snoc (es acc : list (Z * Z)) :
  fold_left (fun l e => l ++ [(fst e, snd e)]) es acc = acc ++ es.
Proof.
  revert acc; induction es as [| [a b] es IH]; intros acc; simpl.
  - rewrite app_nil_r; reflexivity.
  - rewrite IH, <- app_assoc. reflexivity.
Qed.

Lemma drawn_edges_filter (faces : list Face) :
  drawn_edges faces
  = filter (fun e => (edge_shared faces (fst e) (snd e) =? 1)%Z) edges.
Proof.
  unfold drawn_edges. rewrite edge_loop_filter.
  apply (fold_left_snoc _ []).
Qed.

(** C6.  Silhouette edge selection in [render_cube]: the calls of
    [draw_line] for silhouette edges are exactly those for [drawn_edges] of
    the sorted visible faces, and an edge is among them exactly when it is
    one of the 12 fixed edges and the number of non-culled faces containing
    both of its corner indices equals one (an edge shared by two visible
    faces, or by none, is not drawn). *)
Theorem silhouette_edge_selection
  (fuel : nat) (b : Buffer) (zoom time_global rot_x rot_y rot_z : R)
  (v0 v1 : Z) :
  let verts := transform_verts rot_x rot_y rot_z in
  let vis := visible_faces time_global verts in
  let faces := sort_faces vis in
  (In (v0, v1) (drawn_edges faces) <->
     In (v0, v1) edges /\ sharing_count vis v0 v1 = 1%nat) /\
  render_cube fuel b zoom time_global rot_x rot_y rot_z
  = fold_left (fun ob e => draw_edge fuel zoom verts (fst e) (snd e) ob)
              (drawn_edges faces)
              (Some (fold_left (fill_face zoom verts) faces b)).
Proof.
  intros verts vis faces.
  pose proof (sort_faces_perm vis) as Hp. fold faces in Hp.
  assert (Hv : forall f, In f faces -> (0 <= f_idx f <= 5)%Z).
  { intros f Hf. apply (visible_faces_idx_range time_global verts).
    apply (Permutation_in f Hp Hf). }
  split.
  - rewrite drawn_edges_filter, filter_In. simpl fst; simpl snd.
    rewrite (edge_shared_count v0 v1 faces Hv).
    rewrite (sharing_count_perm v0 v1 faces vis Hp).
    rewrite Z.eqb_eq. split; intros [H1 H2]; split; auto; lia.
  - unfold render_cube. fold verts. fold vis. fold faces.
    rewrite edge_loop_filter, <- drawn_edges_filter. reflexivity.
Qed.

(** ** Compositor *)

Lemma color_eqb_eq (a b : Color) : color_eqb a b = true <-> a = b.
Proof.
  destruct a as [r1 g1 b1], b as [r2 g2 b2]. unfold color_eqb; simpl.
  rewrite !andb_true_iff, !Z.eqb_eq.
  split; [intros [[-> ->] ->]; reflexivity | intros H; injection H; auto].
Qed.

Lemma color_eqb_refl (a : Color) : color_eqb a a = true.
Proof. apply color_eqb_eq; reflexivity. Qed.

Lemma color_eqb_neq (a b : Color) : color_eqb a b = false -> a <> b.
Proof.
  intros H E. apply color_eqb_eq in E. congruence.
Qed.

Ltac emit_cases :=
  unfold emit_cell, emit_bg_default, emit_fg, emit_bg; simpl;
  repeat match goal with
         | |- context [color_eqb ?a ?a] => rewrite (color_eqb_refl a); simpl
         | |- context [color_eqb ?a ?b] =>
             let E := fresh "E" in destruct (color_eqb a b) eqn:E; simpl
         end.

(** The second of two cells requiring the same colours emits its glyph and
    nothing else. *)
Lemma emit_cell_pair (c1 c2 : Cell) (p : Pen) :
  cell_fg c1 = cell_fg c2 -> cell_bg c1 = cell_bg c2 ->
  let '(o1, p1) := emit_cell c1 p in
  let '(o2, _) := emit_cell c2 p1 in
  (count_fg (o1 ++ o2) <= 1)%nat /\ (count_bg (o1 ++ o2) <= 1)%nat /\
  count_fg o2 = 0%nat /\ count_bg o2 = 0%nat.
Proof.
  destruct c1 as [t1 b1 tc1 bc1], c2 as [t2 b2 tc2 bc2], p as [lf lb d].
  unfold cell_fg, cell_bg; simpl.
  destruct t1, b1, t2, b2; simpl; intros Hf Hb;
    try discriminate; try (injection Hf as ->); try (injection Hb as ->);
    destruct d; emit_cases;
    unfold count_fg, count_bg; simpl; repeat split; lia.
Qed.

Lemma emit_cell_only_on_change (c : Cell) (p : Pen) :
  (forall col, In (OutFg col) (fst (emit_cell c p)) ->
               cell_fg c = Some col /\ col <> last_fg p) /\
  (forall col, In (OutBg col) (fst (emit_cell c p)) ->
               cell_bg c = Some col /\ col <> last_bg p) /\
  (In OutBgDefault (fst (emit_cell c p)) ->
   cell_bg c = None /\ bg_is_default p = false).
Proof.
  destruct c as [t b tc bc], p as [lf lb d].
  unfold cell_fg, cell_bg.
  destruct t, b, d; emit_cases;
    repeat split; intros;
    repeat match goal with
           | H : _ \/ _ |- _ => destruct H
           | H : False |- _ => contradiction
           | H : OutFg _ = OutFg _ |- _ => injection H as <-
           | H : OutBg _ = OutBg _ |- _ => injection H as <-
           | H : _ = _ |- _ => discriminate H
           end;
    try reflexivity; try (apply color_eqb_neq; assumption).
Qed.

(** C9.  Compositor colour-state minimization: when two adjacent cells of a
    row require the same foreground and background, the two passes of the
    cell loop of [buf_render] append to the output at most one foreground
    and at most one background colour instruction between them, and the
    second cell appends none; and whenever a cell appends a colour
    instruction, the colour (or the default background) it sets is the one
    the cell requires and differs from the tracked last-emitted state. *)
Theorem compositor_color_minimal
  (b : Buffer) (y x : Z) (out : list Out) (p : Pen) :
  let c1 := read_cell b (cell_index b x y) in
  let c2 := read_cell b (cell_index b (x + 1) y) in
  (cell_fg c1 = cell_fg c2 -> cell_bg c1 = cell_bg c2 ->
   exists o1 o2 p1 p2,
     emit_cell c1 p = (o1, p1) /\ emit_cell c2 p1 = (o2, p2) /\
     render_cell b y (x + 1) (render_cell b y x (out, p))
     = (out ++ o1 ++ o2, p2) /\
     (count_fg (o1 ++ o2) <= 1)%nat /\ (count_bg (o1 ++ o2) <= 1)%nat /\
     count_fg o2 = 0%nat /\ count_bg o2 = 0%nat) /\
  (forall col, In (OutFg col) (fst (emit_cell c1 p)) ->
               cell_fg c1 = Some col /\ col <> last_fg p) /\
  (forall col, In (OutBg col) (fst (emit_cell c1 p)) ->
               cell_bg c1 = Some col /\ col <> last_bg p) /\
  (In OutBgDefault (fst (emit_cell c1 p)) ->
   cell_bg c1 = None /\ bg_is_default p = false).
Proof.
  intros c1 c2. split; [| apply emit_cell_only_on_change].
  intros Hf Hb.
  pose proof (emit_cell_pair c1 c2 p Hf Hb) as H.
  unfold render_cell. fold c1.
  destruct (emit_cell c1 p) as [o1 p1] eqn:E1. fold c2.
  destruct (emit_cell c2 p1) as [o2 p2] eqn:E2.
  exists o1, o2, p1, p2.
  split; [reflexivity |]. split; [exact E2 |].
  split; [rewrite <- app_assoc; reflexivity | exact H].
Qed.

Lemma compositor_color_minimal_witness :
  exists o1 o2 p1 p2,
    emit_cell (read_cell demo_row (cell_index demo_row 0 0)) pen0 = (o1, p1) /\
    emit_cell (read_cell demo_row (cell_index demo_row (0 + 1) 0)) p1
    = (o2, p2) /\
    render_cell demo_row 0 (0 + 1)
                (render_cell demo_row 0 0 ([OutHomeReset], pen0))
    = ([OutHomeReset] ++ o1 ++ o2, p2) /\
    (count_fg (o1 ++ o2) <= 1)%nat /\ (count_bg (o1 ++ o2) <= 1)%nat /\
    count_fg o2 = 0%nat /\ count_bg o2 = 0%nat.
Proof.
  apply (proj1 (compositor_color_minimal demo_row 0 0 [OutHomeReset] pen0)).
  - unfold read_cell, cell_fg; simpl.
    destruct (Rgt_dec (-6) (-1e9)); [| lra].
    destruct (Rgt_dec (-7) (-1e9)); [| lra].
    reflexivity.
  - unfold read_cell, cell_bg; simpl.
    destruct (Rgt_dec (-6) (-1e9)); [| lra].
    destruct (Rgt_dec (-7) (-1e9)); [| lra].
    reflexivity.
Defined.

(** ** Worked examples *)

(** The frame text of [demo_row]: both colours are set once, for the first
    cell, and the second cell adds its glyph only. *)
Example buf_render_demo_row :
  buf_render demo_row
  = [OutHomeReset; OutFg red; OutBg black; OutUpper; OutUpper;
     OutResetNewline].
Proof.
  unfold buf_render, for_range, render_row, for_range, render_cell, read_cell;
    simpl.
  destruct (Rgt_dec (-6) (-1e9)); [| lra].
  destruct (Rgt_dec (-7) (-1e9)); [| lra].
  reflexivity.
Qed.

Lemma sharing_count_idx (vis : list Face) (v0 v1 : Z) :
  sharing_count vis v0 v1
  = Datatypes.length
      (filter (fun i => contains_both (face_at i) v0 v1) (map f_idx vis)).
Proof.
  unfold sharing_count.
  induction vis as [| f vis IH]; simpl; [reflexivity |].
  destruct (contains_both (face_at (f_idx f)) v0 v1); simpl; congruence.
Qed.

(** With all three angles zero the silhouette consists of the four edges of
    the culled face 1: each of them lies on exactly one retained face, every
    other edge on two. *)
Example zero_rotation_silhouette (time_global : R) :
  drawn_edges (sort_faces (visible_faces time_global (transform_verts 0 0 0)))
  = [(4, 5); (5, 6); (6, 7); (7, 4)]%Z.
Proof.
  set (vis := visible_faces time_global (transform_verts 0 0 0)).
  pose proof (sort_faces_perm vis) as Hp.
  assert (Hv : forall f, In f (sort_faces vis) -> (0 <= f_idx f <= 5)%Z).
  { intros f Hf.
    apply (visible_faces_idx_range time_global (transform_verts 0 0 0)).
    apply (Permutation_in f Hp Hf). }
  rewrite drawn_edges_filter.
  rewrite (filter_ext _
             (fun e =>
                (Z.of_nat
                   (Datatypes.length
                      (filter (fun i => contains_both (face_at i) (fst e) (snd e))
                              [0; 2; 3; 4; 5]%Z)) =? 1)%Z)).
  - reflexivity.
  - intros [a b]; simpl fst; simpl snd.
    rewrite (edge_shared_count a b _ Hv).
    rewrite (sharing_count_perm a b _ _ Hp), sharing_count_idx.
    subst vis. rewrite visible_faces_zero_rotation. reflexivity.
Qed.

(** * Further properties *)

(** ** One write touches one slot *)

Lemma put_pixel_dims (b : Buffer) (x y : Z) (t : bool) (c : Color) (d : R) :
  same_dims b (put_pixel b x y t c d).
Proof.
  unfold same_dims, put_pixel.
  destruct (negb (in_bounds b x y)); [auto |].
  destruct t; [destruct (Rgt_dec _ _) | destruct (Rgt_dec _ _)]; simpl; auto.
Qed.

(** X1.  A call of [put_pixel] changes at most the addressed slot of the
    addressed cell: an out-of-bounds call returns the buffer as it is, a
    top write leaves both bottom arrays as they are and a bottom write both
    top arrays, every other cell keeps its four values, and the dimensions
    are kept. *)
Theorem put_pixel_frame
  (b : Buffer) (x y : Z) (is_top : bool) (col : Color) (depth : R) :
  let b' := put_pixel b x y is_top col depth in
  ((x < 0 \/ width b <= x \/ y < 0 \/ height b <= y)%Z -> b' = b) /\
  (is_top = true ->
     bot_color b' = bot_color b /\ bot_depth b' = bot_depth b) /\
  (is_top = false ->
     top_color b' = top_color b /\ top_depth b' = top_depth b) /\
  (forall j : nat,
      j <> cell_index b x y ->
      nth j (top_color b') black = nth j (top_color b) black /\
      nth j (bot_color b') black = nth j (bot_color b) black /\
      nth j (top_depth b') 0 = nth j (top_depth b) 0 /\
      nth j (bot_depth b') 0 = nth j (bot_depth b) 0) /\
  same_dims b b'.
Proof.
  intros b'. subst b'.
  split; [| split; [| split; [| split; [| apply put_pixel_dims]]]].
  - intros H. unfold put_pixel.
    destruct (in_bounds b x y) eqn:E; [| reflexivity].
    apply in_bounds_iff in E. lia.
  - intros ->. unfold put_pixel.
    destruct (negb (in_bounds b x y)); [auto |].
    destruct (Rgt_dec _ _); simpl; auto.
  - intros ->. unfold put_pixel.
    destruct (negb (in_bounds b x y)); [auto |].
    destruct (Rgt_dec _ _); simpl; auto.
  - intros j Hj. unfold put_pixel.
    destruct (negb (in_bounds b x y)); [auto |].
    destruct is_top; destruct (Rgt_dec _ _); simpl; auto;
      rewrite !nth_upd_other by auto; auto.
Qed.

Lemma put_pixel_frame_witness :
  put_pixel demo_buf 2 0 true red (-5) = demo_buf /\
  nth 1 (top_color (put_pixel demo_buf 0 0 true red (-5))) black
  = nth 1 (top_color demo_buf) black.
Proof.
  split.
  - apply (proj1 (put_pixel_frame demo_buf 2 0 true red (-5))).
    simpl; lia.
  - apply (proj1 (proj2 (proj2 (proj2
               (put_pixel_frame demo_buf 0 0 true red (-5)))))).
    unfold cell_index; simpl; lia.
Defined.

Lemma put_pixel_keeps_wf
  (b : Buffer) (x y : Z) (is_top : bool) (col : Color) (depth : R) :
  wf_buffer b -> wf_buffer (put_pixel b x y is_top col depth).
Proof.
  intros (Hw & Hh & H1 & H2 & H3 & H4).
  unfold put_pixel.
  destruct (negb (in_bounds b x y)); [repeat split; assumption |].
  destruct is_top; destruct (Rgt_dec _ _);
    unfold wf_buffer, buf_size in *; simpl;
    rewrite ?upd_length; repeat split; assumption.
Qed.

(** X2.  [put_pixel] keeps the framebuffer allocated: the four arrays of
    the result still have [width * height] elements, whatever the
    coordinates, slot, colour and depth of the call. *)
Theorem put_pixel_wf
  (b : Buffer) (x y : Z) (is_top : bool) (col : Color) (depth : R) :
  wf_buffer b -> wf_buffer (put_pixel b x y is_top col depth).
Proof.
  intros (Hw & Hh & H1 & H2 & H3 & H4).
  unfold put_pixel.
  destruct (negb (in_bounds b x y)); [repeat split; assumption |].
  destruct is_top; destruct (Rgt_dec _ _);
    unfold wf_buffer, buf_size in *; simpl;
    rewrite ?upd_length; repeat split; assumption.
Qed.

Lemma put_pixel_wf_witness :
  wf_buffer (put_pixel demo_buf 1 0 true red (-5)).
Proof. apply (put_pixel_wf demo_buf 1 0 true red (-5) demo_buf_wf). Defined.

Lemma nth_upd_cases {A : Type} (i j : nat) (v d : A) (l : list A) :
  nth j (upd i v l) d = nth j l d \/ (j = i /\ nth j (upd i v l) d = v).
Proof.
  destruct (Nat.eq_dec i j) as [<- | H].
  - destruct (Nat.lt_ge_cases i (Datatypes.length l)) as [Hl | Hl].
    + right. split; [reflexivity | apply nth_upd_same; exact Hl].
    + left. rewrite !nth_overflow; rewrite ?upd_length; auto.
  - left. apply nth_upd_other; exact H.
Qed.


(** ** Clearing and compositing *)

Lemma nth_repeat_lt {A : Type} (a d : A) (n i : nat) :
  (i < n)%nat -> nth i (repeat a n) d = a.
Proof.
  revert i; induction n as [| n IH]; intros [| i] H; simpl; try lia; auto.
  apply IH; lia.
Qed.

Lemma read_cell_clear (b : Buffer) (idx : nat) :
  (idx < buf_size b)%nat ->
  read_cell (buf_clear b) idx = mkCell false false black black.
Proof.
  intros H. unfold read_cell, buf_clear; simpl.
  rewrite !nth_repeat_lt by exact H.
  unfold empty_depth.
  destruct (Rgt_dec (-1e10) (-1e9)); [lra | reflexivity].
Qed.

(** X4.  After [buf_clear] the framebuffer is allocated for its dimensions
    and every cell is empty: both depths are the sentinel [-1e10], both
    colours are black, and the compositor reads neither sub-pixel as set. *)
Theorem buf_clear_empty (b : Buffer) :
  (0 <= width b)%Z -> (0 <= height b)%Z ->
  wf_buffer (buf_clear b) /\
  same_dims b (buf_clear b) /\
  forall x y : Z,
    in_bounds b x y = true ->
    let idx := cell_index (buf_clear b) x y in
    nth idx (top_depth (buf_clear b)) 0 = empty_depth /\
    nth idx (bot_depth (buf_clear b)) 0 = empty_depth /\
    read_cell (buf_clear b) idx = mkCell false false black black.
Proof.
  intros Hw Hh. split; [| split].
  - unfold wf_buffer, buf_clear, buf_size; simpl.
    rewrite !repeat_length. repeat split; auto.
  - split; reflexivity.
  - intros x y Hin idx.
    assert (Hidx : (idx < buf_size b)%nat) by exact (cell_index_lt b x y Hin).
    split; [| split].
    + unfold buf_clear; simpl. apply nth_repeat_lt; exact Hidx.
    + unfold buf_clear; simpl. apply nth_repeat_lt; exact Hidx.
    + apply read_cell_clear; exact Hidx.
Qed.

Lemma buf_clear_empty_witness :
  wf_buffer (buf_clear demo_buf) /\
  read_cell (buf_clear demo_buf) (cell_index (buf_clear demo_buf) 1 0)
  = mkCell false false black black.
Proof.
  destruct (buf_clear_empty demo_buf) as (H1 & _ & H3).
  - simpl; lia.
  - simpl; lia.
  - split; [exact H1 |].
    apply (H3 1%Z 0%Z eq_refl).
Defined.

Lemma render_clear_cells (b : Buffer) (y : Z) (p : Pen) :
  (0 <= y < height b)%Z -> bg_is_default p = true ->
  forall (n : nat) (x : Z) (out : list Out),
    (0 <= x)%Z -> ((0 < n)%nat -> (x + Z.of_nat n <= width b)%Z) ->
    for_from n x (render_cell (buf_clear b) y) (out, p)
    = (out ++ repeat OutBlank n, p).
Proof.
  intros Hy Hp. induction n as [| n IH]; intros x out Hx Hn.
  - simpl. rewrite app_nil_r. reflexivity.
  - cbn [for_from].
    assert (E : render_cell (buf_clear b) y x (out, p)
                = (out ++ [OutBlank], p)).
    { unfold render_cell. rewrite read_cell_clear.
      - unfold emit_cell, emit_bg_default; simpl. rewrite Hp. reflexivity.
      - apply (cell_index_lt b x y). apply in_bounds_iff. lia. }
    rewrite E, IH by lia.
    rewrite <- app_assoc. reflexivity.
Qed.

Lemma render_clear_rows (b : Buffer) :
  forall (n : nat) (y : Z) (out : list Out) (p : Pen),
    (0 <= y)%Z -> (y + Z.of_nat n <= height b)%Z ->
    bg_is_default p = true ->
    fst (for_from n y (render_row (buf_clear b)) (out, p))
    = out ++ concat (repeat (repeat OutBlank (Z.to_nat (width b))
                             ++ [OutResetNewline]) n).
Proof.
  induction n as [| n IH]; intros y out p Hy Hn Hp.
  - simpl. rewrite app_nil_r. reflexivity.
  - cbn [for_from repeat concat].
    unfold render_row at 2. unfold for_range.
    change (width (buf_clear b)) with (width b).
    rewrite (render_clear_cells b y p) by (auto; lia).
    rewrite IH by (simpl; auto; lia).
    replace (Z.to_nat (width b - 1 - 0 + 1)) with (Z.to_nat (width b)) by lia.
    rewrite <- !app_assoc. reflexivity.
Qed.

Lemma demo_buf_screen : screen_buffer demo_buf.
Proof.
  split; [exact demo_buf_wf |]. unfold MAX_WIDTH, MAX_HEIGHT; simpl; lia.
Qed.

(** X5.  Compositing a cleared framebuffer emits no colour instruction at
    all: for an allocated framebuffer whose dimensions are not negative
    and within the caps of [get_term_size], the frame is the
    cursor-home/reset token followed, for every row, by [width] blanks and
    the reset-newline token. *)
Theorem buf_render_clear (b : Buffer) :
  screen_buffer b ->
  buf_render (buf_clear b)
  = OutHomeReset
      :: concat (repeat (repeat OutBlank (Z.to_nat (width b))
                         ++ [OutResetNewline])
                        (Z.to_nat (height b))).
Proof.
  intros ((_ & Hh & _) & _).
  unfold buf_render, for_range.
  change (height (buf_clear b)) with (height b).
  rewrite render_clear_rows by (simpl; auto; lia).
  replace (Z.to_nat (height b - 1 - 0 + 1)) with (Z.to_nat (height b)) by lia.
  reflexivity.
Qed.

Lemma buf_render_clear_witness :
  buf_render (buf_clear demo_buf)
  = [OutHomeReset; OutBlank; OutBlank; OutResetNewline].
Proof. exact (buf_render_clear demo_buf demo_buf_screen). Defined.

Lemma emit_cell_counts (c : Cell) (p : Pen) :
  count_out is_glyph (fst (emit_cell c p)) = 1%nat /\
  count_out is_newline (fst (emit_cell c p)) = 0%nat.
Proof.
  destruct c as [t b tc bc], p as [lf lb d].
  destruct t, b, d; emit_cases; split; reflexivity.
Qed.

Lemma count_out_app (f : Out -> bool) (l l' : list Out) :
  count_out f (l ++ l') = (count_out f l + count_out f l')%nat.
Proof. unfold count_out. rewrite filter_app, length_app. reflexivity. Qed.

Lemma render_cells_counts (b : Buffer) (y : Z) :
  forall (n : nat) (x : Z) (st : list Out * Pen),
    count_out is_glyph (fst (for_from n x (render_cell b y) st))
    = (count_out is_glyph (fst st) + n)%nat /\
    count_out is_newline (fst (for_from n x (render_cell b y) st))
    = count_out is_newline (fst st).
Proof.
  induction n as [| n IH]; intros x [out p]; cbn [for_from].
  - split; [lia | reflexivity].
  - destruct (IH (x + 1)%Z (render_cell b y x (out, p))) as [-> ->].
    unfold render_cell.
    pose proof (emit_cell_counts (read_cell b (cell_index b x y)) p) as [H1 H2].
    destruct (emit_cell (read_cell b (cell_index b x y)) p) as [o p'].
    cbn [fst] in *. rewrite !count_out_app, H1, H2. split; lia.
Qed.

Lemma render_rows_counts (b : Buffer) :
  forall (n : nat) (y : Z) (st : list Out * Pen),
    count_out is_glyph (fst (for_from n y (render_row b) st))
    = (count_out is_glyph (fst st) + n * Z.to_nat (width b))%nat /\
    count_out is_newline (fst (for_from n y (render_row b) st))
    = (count_out is_newline (fst st) + n)%nat.
Proof.
  induction n as [| n IH]; intros y st; cbn [for_from].
  - split; lia.
  - destruct (IH (y + 1)%Z (render_row b y st)) as [-> ->].
    unfold render_row, for_range.
    pose proof (render_cells_counts b y (Z.to_nat (width b - 1 - 0 + 1)) 0%Z st)
      as [H1 H2].
    destruct (for_from (Z.to_nat (width b - 1 - 0 + 1)) 0%Z (render_cell b y) st)
      as [out p].
    cbn [fst] in *. rewrite !count_out_app, H1, H2.
    replace (Z.to_nat (width b - 1 - 0 + 1)) with (Z.to_nat (width b)) by lia.
    unfold count_out; simpl. split; lia.
Qed.

Lemma render_cells_append (b : Buffer) (y : Z) :
  forall (n : nat) (x : Z) (out : list Out) (p : Pen),
    exists o p', for_from n x (render_cell b y) (out, p) = (out ++ o, p').
Proof.
  induction n as [| n IH]; intros x out p; cbn [for_from].
  - exists [], p. rewrite app_nil_r. reflexivity.
  - unfold render_cell at 2.
    destruct (emit_cell (read_cell b (cell_index b x y)) p) as [o1 p1].
    destruct (IH (x + 1)%Z (out ++ o1) p1) as (o & p' & ->).
    exists (o1 ++ o), p'. rewrite app_assoc. reflexivity.
Qed.

Lemma render_rows_append (b : Buffer) :
  forall (n : nat) (y : Z) (out : list Out) (p : Pen),
    exists o p', for_from n y (render_row b) (out, p) = (out ++ o, p').
Proof.
  induction n as [| n IH]; intros y out p; cbn [for_from].
  - exists [], p. rewrite app_nil_r. reflexivity.
  - unfold render_row at 2. unfold for_range.
    destruct (render_cells_append b y (Z.to_nat (width b - 1 - 0 + 1)) 0%Z out p)
      as (o1 & p1 & ->).
    destruct (IH (y + 1)%Z ((out ++ o1) ++ [OutResetNewline])
                 (mkPen (last_fg p1) (last_bg p1) true)) as (o & p' & ->).
    exists (o1 ++ [OutResetNewline] ++ o), p'.
    rewrite <- !app_assoc. reflexivity.
Qed.

(** X6.  Shape of a composited frame, whatever the framebuffer holds: it
    starts with the cursor-home/reset token, contains exactly one glyph per
    cell ([width * height] of them) and exactly one reset-newline per
    row. *)
Theorem buf_render_shape (b : Buffer) :
  (exists rest, buf_render b = OutHomeReset :: rest) /\
  count_out is_glyph (buf_render b)
  = (Z.to_nat (height b) * Z.to_nat (width b))%nat /\
  count_out is_newline (buf_render b) = Z.to_nat (height b).
Proof.
  unfold buf_render, for_range.
  replace (Z.to_nat (height b - 1 - 0 + 1)) with (Z.to_nat (height b)) by lia.
  split.
  - destruct (render_rows_append b (Z.to_nat (height b)) 0%Z
                [OutHomeReset] pen0) as (o & p' & ->).
    exists o. reflexivity.
  - pose proof (render_rows_counts b (Z.to_nat (height b)) 0%Z
                  ([OutHomeReset], pen0)) as [H1 H2].
    rewrite H1, H2. unfold count_out; simpl. split; lia.
Qed.

(** ** Vectors, rotations and shading *)

Lemma dot_self_nonneg (v : Vec3) : 0 <= dot v v.
Proof. unfold dot. nra. Qed.

(** X7.  [normalize] never divides by zero and returns a unit vector: a
    vector longer than [1e-8] is scaled to length 1 (keeping its
    direction), any other vector becomes the zero vector. *)
Theorem normalize_unit (v : Vec3) :
  (length v > 1e-8 ->
     length (normalize v) = 1 /\ normalize v = scale v (1 / length v)) /\
  (length v <= 1e-8 -> normalize v = v3 0 0 0).
Proof.
  unfold normalize.
  destruct (Rgt_dec (length v) 1e-8) as [H | H]; split; intros H'; try lra;
    [| reflexivity].
  split; [| reflexivity].
  unfold length in *. rewrite dot_scale.
  set (d := dot v v) in *.
  assert (Hd : 0 <= d) by apply dot_self_nonneg.
  assert (Hs : sqrt d * sqrt d = d) by (apply sqrt_sqrt; exact Hd).
  replace (1 / sqrt d * (1 / sqrt d) * d) with 1.
  - apply sqrt_1.
  - rewrite <- Hs at 3. field. lra.
Qed.

Lemma normalize_unit_witness :
  length (normalize (v3 0 0 6)) = 1 /\
  normalize (v3 0 0 0) = v3 0 0 0.
Proof.
  split.
  - apply (proj1 (normalize_unit (v3 0 0 6))).
    apply length_ge_one. unfold dot; simpl. lra.
  - apply (proj2 (normalize_unit (v3 0 0 0))).
    unfold length, dot; simpl.
    replace (0 * 0 + 0 * 0 + 0 * 0) with 0 by lra.
    rewrite sqrt_0. lra.
Defined.

Lemma sin_cos_one (a : R) : sin a * sin a + cos a * cos a = 1.
Proof. pose proof (sin2_cos2 a) as H. unfold Rsqr in H. exact H. Qed.

Lemma rot_x_dot (v w : Vec3) (a : R) :
  dot (rot_x_apply v a) (rot_x_apply w a) = dot v w.
Proof.
  unfold dot, rot_x_apply; simpl.
  transitivity (vx v * vx w
                + (vy v * vy w + vz v * vz w)
                  * (sin a * sin a + cos a * cos a)); [ring |].
  rewrite sin_cos_one. ring.
Qed.

Lemma rot_y_dot (v w : Vec3) (a : R) :
  dot (rot_y_apply v a) (rot_y_apply w a) = dot v w.
Proof.
  unfold dot, rot_y_apply; simpl.
  transitivity (vy v * vy w
                + (vx v * vx w + vz v * vz w)
                  * (sin a * sin a + cos a * cos a)); [ring |].
  rewrite sin_cos_one. ring.
Qed.

Lemma rot_z_dot (v w : Vec3) (a : R) :
  dot (rot_z_apply v a) (rot_z_apply w a) = dot v w.
Proof.
  unfold dot, rot_z_apply; simpl.
  transitivity (vz v * vz w
                + (vx v * vx w + vy v * vy w)
                  * (sin a * sin a + cos a * cos a)); [ring |].
  rewrite sin_cos_one. ring.
Qed.

Lemma transform_sub_offset (rx ry rz : R) (v : Vec3) :
  sub (transform rx ry rz v) cam_offset
  = rot_z_apply (rot_y_apply (rot_x_apply v rx) ry) rz.
Proof.
  unfold transform, sub, cam_offset, scale, v3,
    rot_z_apply, rot_y_apply, rot_x_apply; simpl.
  f_equal; ring.
Qed.

(** X8.  The vertex transform is a rigid motion: each of the three axis
    rotations keeps every dot product (hence lengths and angles), and
    [transform] is a rotation about the origin followed by the camera
    offset [(0, 0, -5)], for all angles. *)
Theorem transform_rigid (rot_x rot_y rot_z a : R) (v w : Vec3) :
  dot (rot_x_apply v a) (rot_x_apply w a) = dot v w /\
  dot (rot_y_apply v a) (rot_y_apply w a) = dot v w /\
  dot (rot_z_apply v a) (rot_z_apply w a) = dot v w /\
  dot (sub (transform rot_x rot_y rot_z v) cam_offset)
      (sub (transform rot_x rot_y rot_z w) cam_offset)
  = dot v w.
Proof.
  repeat split.
  - apply rot_x_dot.
  - apply rot_y_dot.
  - apply rot_z_dot.
  - rewrite !transform_sub_offset, rot_z_dot, rot_y_dot, rot_x_dot.
    reflexivity.
Qed.

Lemma transform_vertex_depth (rx ry rz : R) (c : Vec3) :
  dot c c = 3 -> -7 < vz (transform rx ry rz c) < -3.
Proof.
  intros Hc.
  assert (H : dot (sub (transform rx ry rz c) cam_offset)
                  (sub (transform rx ry rz c) cam_offset) = 3).
  { rewrite !transform_sub_offset, rot_z_dot, rot_y_dot, rot_x_dot.
    exact Hc. }
  set (t := transform rx ry rz c) in *.
  unfold dot, sub, cam_offset, v3 in H; cbn [vx vy vz] in H.
  assert (Hz : (vz t + 5) * (vz t + 5) <= 3).
  { pose proof (Rle_0_sqr (vx t - 0)) as Hx.
    pose proof (Rle_0_sqr (vy t - 0)) as Hy.
    unfold Rsqr in Hx, Hy.
    replace ((vz t + 5) * (vz t + 5)) with ((vz t - -5) * (vz t - -5)) by ring.
    lra. }
  split; nra.
Qed.

Lemma cube_vert_norm (c : Vec3) : In c CUBE_VERTS -> dot c c = 3.
Proof.
  unfold CUBE_VERTS; simpl.
  intros H; repeat (destruct H as [<- | H]; [unfold dot; simpl; lra |]).
  contradiction.
Qed.

Lemma transform_verts_window (rx ry rz : R) (v : Vec3) :
  In v (transform_verts rx ry rz) -> -7 < vz v < -3.
Proof.
  unfold transform_verts. rewrite in_map_iff.
  intros (c & <- & Hc). apply transform_vertex_depth, cube_vert_norm, Hc.
Qed.

(** X9.  Whatever the three rotation angles, every transformed vertex of
    the cube lies at a depth strictly between [-7] and [-3], so it is inside
    the near/far window and [project] accepts it for every buffer and
    zoom: no face or edge of the cube is ever skipped by the projection
    test. *)
Theorem cube_vertices_always_project
  (b : Buffer) (zoom rot_x rot_y rot_z : R) (v : Vec3) :
  In v (transform_verts rot_x rot_y rot_z) ->
  -7 < vz v < -3 /\
  exists sx sy, project b zoom v = Some (sx, sy, vz v).
Proof.
  intros Hv. pose proof (transform_verts_window _ _ _ v Hv) as Hz.
  split; [exact Hz |].
  destruct (project b zoom v) as [[[sx sy] z] |] eqn:E.
  - destruct (project_some_depth _ _ _ _ _ _ E) as [-> _]. eauto.
  - apply project_none_iff in E. lra.
Qed.

Lemma cube_vertices_always_project_witness :
  -7 < vz (transform 1 2 3 (v3 1 1 1)) < -3 /\
  exists sx sy,
    project demo_buf 0.6 (transform 1 2 3 (v3 1 1 1))
    = Some (sx, sy, vz (transform 1 2 3 (v3 1 1 1))).
Proof.
  apply (cube_vertices_always_project demo_buf 0.6 1 2 3).
  unfold transform_verts, CUBE_VERTS. cbn [map In].
  do 6 right. left. reflexivity.
Defined.

Lemma trunc_unit_interval (c : Z) (br : R) :
  (0 <= c)%Z -> 0 <= br <= 1 -> (0 <= trunc (IZR c * br) <= c)%Z.
Proof.
  intros Hc Hbr.
  assert (H0 : 0 <= IZR c) by (apply IZR_le in Hc; exact Hc).
  assert (Hx : 0 <= IZR c * br <= IZR c) by nra.
  unfold trunc. destruct (Rle_dec 0 (IZR c * br)) as [_ | H]; [| lra].
  split.
  - apply Zfloor_lub. simpl. lra.
  - apply le_IZR. pose proof (Zfloor_bound (IZR c * br)). lra.
Qed.

Lemma trunc_IZR (z : Z) : (0 <= z)%Z -> trunc (IZR z) = z.
Proof.
  intros Hz. apply trunc_eq.
  - apply IZR_le in Hz. exact Hz.
  - lra.
Qed.

(** X10.  [shade] on a colour whose channels fit [uint8_t]: for every
    brightness each channel of the result lies between 0 and the channel of
    the input (so the conversion back to [uint8_t] is in range); a
    brightness of 1 or more returns the colour itself, a brightness of 0 or
    less returns black. *)
Theorem shade_range (c : Color) (brightness : R) :
  valid_color c ->
  valid_color (shade c brightness) /\
  (cr (shade c brightness) <= cr c)%Z /\
  (cg (shade c brightness) <= cg c)%Z /\
  (cb (shade c brightness) <= cb c)%Z /\
  (1 <= brightness -> shade c brightness = c) /\
  (brightness <= 0 -> shade c brightness = black).
Proof.
  intros (Hr & Hg & Hb).
  destruct c as [r g bl]; simpl in *.
  unfold shade; simpl.
  set (br := if Rlt_dec brightness 0 then 0
             else if Rgt_dec brightness 1 then 1 else brightness).
  assert (Hbr : 0 <= br <= 1).
  { subst br. destruct (Rlt_dec brightness 0); [lra |].
    destruct (Rgt_dec brightness 1); lra. }
  pose proof (trunc_unit_interval r br (proj1 Hr) Hbr) as Tr.
  pose proof (trunc_unit_interval g br (proj1 Hg) Hbr) as Tg.
  pose proof (trunc_unit_interval bl br (proj1 Hb) Hbr) as Tb.
  split; [unfold valid_color; simpl; lia |].
  split; [lia |]. split; [lia |]. split; [lia |].
  split.
  - intros H1.
    assert (E : br = 1).
    { subst br. destruct (Rlt_dec brightness 0); [lra |].
      destruct (Rgt_dec brightness 1); lra. }
    rewrite E, !Rmult_1_r. unfold rgb.
    rewrite !trunc_IZR by lia.
    reflexivity.
  - intros H0.
    assert (E : br = 0).
    { subst br. destruct (Rlt_dec brightness 0); [lra |].
      destruct (Rgt_dec brightness 1); lra. }
    rewrite E, !Rmult_0_r. unfold rgb, black, rgb.
    rewrite (trunc_eq 0 0) by (simpl; lra). reflexivity.
Qed.

Lemma shade_range_witness :
  valid_color (shade red 0.5) /\ shade red 2 = red /\ shade red (-1) = black.
Proof.
  assert (V : valid_color red) by (unfold valid_color; simpl; lia).
  split; [| split].
  - apply (proj1 (shade_range red 0.5 V)).
  - apply (proj1 (proj2 (proj2 (proj2 (proj2 (shade_range red 2 V)))))). lra.
  - apply (proj2 (proj2 (proj2 (proj2 (proj2 (shade_range red (-1) V)))))). lra.
Defined.

(** ** Projection geometry *)

(** X11.  Pinhole behaviour of [project]: two accepted points on the same
    ray through the camera (one a positive multiple of the other) land on
    the same screen position and differ in depth only; and an accepted
    point on the optical axis lands on the screen centre
    [(width / 2, height)] in sub-pixel coordinates, for every zoom. *)
Theorem project_ray (b : Buffer) (zoom k : R) (p : Vec3) :
  -100 < vz p < -0.5 -> 0 < k -> -100 < vz p * k < -0.5 ->
  (exists sx sy,
      project b zoom p = Some (sx, sy, vz p) /\
      project b zoom (scale p k) = Some (sx, sy, vz p * k)) /\
  project b zoom (v3 0 0 (vz p))
  = Some (IZR (width b) * 0.5, IZR (height b) * 2 * 0.5, vz p).
Proof.
  intros Hz Hk Hkz.
  unfold project, scale, v3; cbn [vx vy vz].
  destruct (Rge_dec (vz p) (-0.5)); [lra |].
  destruct (Rle_dec (vz p) (-100)); [lra |].
  destruct (Rge_dec (vz p * k) (-0.5)); [lra |].
  destruct (Rle_dec (vz p * k) (-100)); [lra |].
  split.
  - do 2 eexists. split; [reflexivity |].
    f_equal. f_equal. f_equal; field; lra.
  - f_equal. f_equal. f_equal; field; lra.
Qed.

Lemma project_ray_witness :
  (exists sx sy,
      project demo_buf 5 demo_p1 = Some (sx, sy, vz demo_p1) /\
      project demo_buf 5 (scale demo_p1 2) = Some (sx, sy, vz demo_p1 * 2)) /\
  project demo_buf 5 (v3 0 0 (vz demo_p1))
  = Some (IZR (width demo_buf) * 0.5, IZR (height demo_buf) * 2 * 0.5,
          vz demo_p1).
Proof.
  apply (project_ray demo_buf 5 2 demo_p1); simpl; lra.
Defined.

(** ** Driver *)

(** X12.  [get_term_size] never reports more than [MAX_WIDTH] columns or
    [MAX_HEIGHT] rows; when the terminal size is known the width is the
    column count capped at 400 and the height is the row count minus one
    (a status line) capped at 300, so a terminal reporting zero rows gives
    the height [-1]; when it is unknown the size is 80 by 24. *)
Theorem get_term_size_bounds (ws : option (Z * Z)) :
  (fst (get_term_size ws) <= MAX_WIDTH)%Z /\
  (snd (get_term_size ws) <= MAX_HEIGHT)%Z /\
  (forall cols rows : Z,
      ws = Some (cols, rows) ->
      fst (get_term_size ws) = Z.min cols 400 /\
      snd (get_term_size ws) = Z.min (rows - 1) 300) /\
  (ws = None -> get_term_size ws = (80, 24)%Z).
Proof.
  unfold get_term_size, MAX_WIDTH, MAX_HEIGHT.
  destruct ws as [[c r] |]; simpl.
  - destruct (c <? 400)%Z eqn:Ec; destruct (r - 1 <? 300)%Z eqn:Er;
      rewrite ?Z.ltb_lt, ?Z.ltb_ge in Ec, Er;
      (split; [lia | split; [lia | split; [| discriminate]]]);
      intros cols rows H; injection H as <- <-; lia.
  - split; [lia | split; [lia | split; [discriminate | reflexivity]]].
Qed.

Lemma get_term_size_bounds_witness :
  fst (get_term_size (Some (500, 0)%Z)) = Z.min 500 400 /\
  snd (get_term_size (Some (500, 0)%Z)) = Z.min (0 - 1) 300.
Proof.
  apply (proj1 (proj2 (proj2 (get_term_size_bounds (Some (500, 0)%Z))))
           500%Z 0%Z eq_refl).
Defined.

(** X13.  Keyboard handling: [handle_input] asks to leave the main loop
    exactly for the keys [q], [Q] and escape; it keeps a zoom that is
    within [[0.1, 5.0]] within that interval for every key; and without a
    key it changes nothing. *)
Theorem handle_input_zoom (key : option ascii) (zoom : R) :
  (fst (handle_input key zoom) = false <->
     key = Some "q"%char \/ key = Some "Q"%char \/ key = Some key_esc) /\
  (0.1 <= zoom <= 5 -> 0.1 <= snd (handle_input key zoom) <= 5) /\
  (key = None -> handle_input key zoom = (true, zoom)).
Proof.
  unfold handle_input.
  destruct key as [c |].
  2:{ split; [| split; [intros; simpl; lra | reflexivity]].
      simpl. split; [discriminate |].
      intros [H | [H | H]]; discriminate. }
  split; [| split; [| discriminate]].
  - destruct (Ascii.eqb c "q") eqn:E1; [apply Ascii.eqb_eq in E1; subst; simpl; tauto |].
    destruct (Ascii.eqb c "Q") eqn:E2; [apply Ascii.eqb_eq in E2; subst; simpl; tauto |].
    destruct (Ascii.eqb c key_esc) eqn:E3;
      [apply Ascii.eqb_eq in E3; subst; simpl; tauto |].
    simpl.
    apply Ascii.eqb_neq in E1, E2, E3.
    split.
    + destruct (Ascii.eqb c "+" || Ascii.eqb c "=")%bool; [discriminate |].
      destruct (Ascii.eqb c "-" || Ascii.eqb c "_")%bool; discriminate.
    + intros [H | [H | H]]; injection H as ->; contradiction.
  - intros Hz.
    destruct (Ascii.eqb c "q" || Ascii.eqb c "Q" || Ascii.eqb c key_esc)%bool;
      [simpl; lra |].
    destruct (Ascii.eqb c "+" || Ascii.eqb c "=")%bool.
    + simpl. destruct (Rgt_dec (zoom * 1.1) 5); lra.
    + destruct (Ascii.eqb c "-" || Ascii.eqb c "_")%bool; [| simpl; lra].
      simpl. destruct (Rlt_dec (zoom / 1.1) 0.1); lra.
Qed.

Lemma handle_input_zoom_witness :
  0.1 <= snd (handle_input (Some "+"%char) 4.9) <= 5 /\
  handle_input None 0.6 = (true, 0.6).
Proof.
  split.
  - apply (proj1 (proj2 (handle_input_zoom (Some "+"%char) 4.9))). lra.
  - apply (proj2 (proj2 (handle_input_zoom None 0.6))). reflexivity.
Defined.

(** ** What the rasterizer writes *)

Lemma draws_refl (c : Color) (P : R -> Prop) (b : Buffer) : draws c P b b.
Proof.
  unfold draws, same_dims, painted_with, depths_from.
  split; [split; reflexivity |].
  split; [auto |].
  split; intros j; auto.
Qed.

Lemma draws_trans (c : Color) (P : R -> Prop) (b1 b2 b3 : Buffer) :
  draws c P b1 b2 -> draws c P b2 b3 -> draws c P b1 b3.
Proof.
  intros ((Hw1 & Hh1) & Wf1 & Pc1 & Pd1) ((Hw2 & Hh2) & Wf2 & Pc2 & Pd2).
  unfold draws, same_dims.
  split; [split; congruence |]. split; [auto |].
  split; intros j; split.
  - destruct (Pc1 j) as [[H | H] _], (Pc2 j) as [[H' | H'] _];
      try (left; congruence); right; congruence.
  - destruct (Pc1 j) as [_ [H | H]], (Pc2 j) as [_ [H' | H']];
      try (left; congruence); right; congruence.
  - destruct (Pd1 j) as [[H | H] _], (Pd2 j) as [[H' | H'] _];
      try (left; congruence); right; try assumption.
    rewrite H'. exact H.
  - destruct (Pd1 j) as [_ [H | H]], (Pd2 j) as [_ [H' | H']];
      try (left; congruence); right; try assumption.
    rewrite H'. exact H.
Qed.

Lemma put_pixel_draws
  (P : R -> Prop) (b : Buffer) (x y : Z) (t : bool) (c : Color) (d : R) :
  P d -> draws c P b (put_pixel b x y t c d).
Proof.
  intros Hd. split; [apply put_pixel_dims |].
  split; [apply put_pixel_keeps_wf |].
  unfold painted_with, depths_from, put_pixel.
  destruct (negb (in_bounds b x y)); [split; intros j; auto |].
  destruct t; destruct (Rgt_dec _ _); simpl; split; intros j; auto.
  - destruct (nth_upd_cases (cell_index b x y) j c black (top_color b))
      as [-> | [_ ->]]; auto.
  - destruct (nth_upd_cases (cell_index b x y) j d 0 (top_depth b))
      as [-> | [_ ->]]; auto.
  - destruct (nth_upd_cases (cell_index b x y) j c black (bot_color b))
      as [-> | [_ ->]]; auto.
  - destruct (nth_upd_cases (cell_index b x y) j d 0 (bot_depth b))
      as [-> | [_ ->]]; auto.
Qed.

Lemma for_from_draws (c : Color) (P : R -> Prop) (body : Z -> Buffer -> Buffer) :
  (forall i s, draws c P s (body i s)) ->
  forall n i s, draws c P s (for_from n i body s).
Proof.
  intros Hb n; induction n as [| n IH]; intros i s; simpl.
  - apply draws_refl.
  - eapply draws_trans; [apply Hb | apply IH].
Qed.

Section Barycentric.
Variables x0 y0 z0 x1 y1 z1 x2 y2 z2 : R.

Lemma tri_w_sum (px py : R) :
  tri_w0 x1 y1 x2 y2 px py + tri_w1 x0 y0 x2 y2 px py
  + tri_w2 x0 y0 x1 y1 px py
  = tri_area x0 y0 x1 y1 x2 y2.
Proof. unfold tri_w0, tri_w1, tri_w2, tri_area. ring. Qed.

Lemma tri_inside_weights (px py : R) :
  tri_inside x0 y0 x1 y1 x2 y2 px py = true ->
  let a := tri_area x0 y0 x1 y1 x2 y2 in
  a <> 0 /\
  0 <= tri_w0 x1 y1 x2 y2 px py * (1 / a) /\
  0 <= tri_w1 x0 y0 x2 y2 px py * (1 / a) /\
  0 <= tri_w2 x0 y0 x1 y1 px py * (1 / a).
Proof.
  unfold tri_inside.
  set (a := tri_area x0 y0 x1 y1 x2 y2).
  set (w0 := tri_w0 x1 y1 x2 y2 px py).
  set (w1 := tri_w1 x0 y0 x2 y2 px py).
  set (w2 := tri_w2 x0 y0 x1 y1 px py).
  intros H. simpl.
  destruct (Rgt_dec a 0) as [Ha | Ha].
  - destruct (Rge_dec w0 0); [| discriminate].
    destruct (Rge_dec w1 0); [| discriminate].
    destruct (Rge_dec w2 0); [| discriminate].
    assert (0 < 1 / a) by (apply Rdiv_lt_0_compat; lra).
    repeat split; try lra; apply Rmult_le_pos; lra.
  - destruct (Rlt_dec a 0) as [Hn | Hn]; [| discriminate].
    destruct (Rle_dec w0 0); [| discriminate].
    destruct (Rle_dec w1 0); [| discriminate].
    destruct (Rle_dec w2 0); [| discriminate].
    assert (Hi : 1 / a < 0).
    { unfold Rdiv. rewrite Rmult_1_l. apply Rinv_lt_0_compat. exact Hn. }
    repeat split; try lra; nra.
Qed.

Lemma tri_depth_convex (px py : R) :
  tri_inside x0 y0 x1 y1 x2 y2 px py = true ->
  Rmin z0 (Rmin z1 z2)
  <= tri_depth x0 y0 z0 x1 y1 z1 x2 y2 z2 px py
  <= Rmax z0 (Rmax z1 z2).
Proof.
  intros H.
  destruct (tri_inside_weights px py H) as (Ha & H0 & H1 & H2).
  pose proof (tri_w_sum px py) as Hs.
  unfold tri_depth.
  set (a := tri_area x0 y0 x1 y1 x2 y2) in *.
  set (b0 := tri_w0 x1 y1 x2 y2 px py * (1 / a)) in *.
  set (b1 := tri_w1 x0 y0 x2 y2 px py * (1 / a)) in *.
  set (b2 := tri_w2 x0 y0 x1 y1 px py * (1 / a)) in *.
  assert (Hb : b0 + b1 + b2 = 1).
  { subst b0 b1 b2. rewrite <- !Rmult_plus_distr_r, Hs. field. exact Ha. }
  set (m := Rmin z0 (Rmin z1 z2)). set (M := Rmax z0 (Rmax z1 z2)).
  assert (Hm : m <= z0 /\ m <= z1 /\ m <= z2).
  { subst m. pose proof (Rmin_l z0 (Rmin z1 z2)).
    pose proof (Rmin_r z0 (Rmin z1 z2)).
    pose proof (Rmin_l z1 z2). pose proof (Rmin_r z1 z2). lra. }
  assert (HM : z0 <= M /\ z1 <= M /\ z2 <= M).
  { subst M. pose proof (Rmax_l z0 (Rmax z1 z2)).
    pose proof (Rmax_r z0 (Rmax z1 z2)).
    pose proof (Rmax_l z1 z2). pose proof (Rmax_r z1 z2). lra. }
  split.
  - replace m with (b0 * m + b1 * m + b2 * m)
      by (rewrite <- !Rmult_plus_distr_r, Hb; ring).
    nra.
  - replace M with (b0 * M + b1 * M + b2 * M)
      by (rewrite <- !Rmult_plus_distr_r, Hb; ring).
    nra.
Qed.
End Barycentric.

Lemma for_range_draws (c : Color) (P : R -> Prop)
      (body : Z -> Buffer -> Buffer) (lo hi : Z) (s : Buffer) :
  (forall i s, draws c P s (body i s)) -> draws c P s (for_range lo hi body s).
Proof. intros H. unfold for_range. apply for_from_draws. exact H. Qed.

Lemma fill_projected_draws
  (b : Buffer) (col : Color) (brightness : R) (v0 v1 v2 : Vec3)
  (x0 y0 x1 y1 x2 y2 : R) :
  -100 < vz v0 < -0.5 -> -100 < vz v1 < -0.5 -> -100 < vz v2 < -0.5 ->
  draws (shade col brightness) (depth_between v0 v1 v2) b
        (fill_projected x0 y0 (vz v0) x1 y1 (vz v1) x2 y2 (vz v2)
                        b col brightness).
Proof.
  intros W0 W1 W2. unfold fill_projected.
  destruct (Rlt_dec _ _); [apply draws_refl |].
  apply for_range_draws; intros y s.
  apply for_range_draws; intros x s'.
  unfold tri_pixel.
  destruct (tri_inside x0 y0 x1 y1 x2 y2 (IZR x + 0.5) (IZR y + 0.5)) eqn:Hin;
    [| apply draws_refl].
  destruct ((_ >=? 0)%Z && _)%bool; [| apply draws_refl].
  apply put_pixel_draws.
  pose proof (tri_depth_convex x0 y0 (vz v0) x1 y1 (vz v1) x2 y2 (vz v2)
                               _ _ Hin) as Hc.
  split; [exact Hc |].
  assert (-100 < Rmin (vz v0) (Rmin (vz v1) (vz v2))).
  { unfold Rmin. destruct (Rle_dec (vz v1) (vz v2));
      destruct (Rle_dec _ _); lra. }
  assert (Rmax (vz v0) (Rmax (vz v1) (vz v2)) < -0.5).
  { unfold Rmax. destruct (Rle_dec (vz v1) (vz v2));
      destruct (Rle_dec _ _); lra. }
  lra.
Qed.

Lemma fill_tri_draws_all
  (b : Buffer) (zoom : R) (v0 v1 v2 : Vec3) (col : Color) (brightness : R) :
  draws (shade col brightness) (depth_between v0 v1 v2)
        b (fill_tri b zoom v0 v1 v2 col brightness).
Proof.
  unfold fill_tri.
  destruct (project b zoom v0) as [[[x0 y0] z0] |] eqn:E0; [| apply draws_refl].
  destruct (project b zoom v1) as [[[x1 y1] z1] |] eqn:E1; [| apply draws_refl].
  destruct (project b zoom v2) as [[[x2 y2] z2] |] eqn:E2; [| apply draws_refl].
  destruct (project_some_depth _ _ _ _ _ _ E0) as [-> W0].
  destruct (project_some_depth _ _ _ _ _ _ E1) as [-> W1].
  destruct (project_some_depth _ _ _ _ _ _ E2) as [-> W2].
  apply fill_projected_draws; assumption.
Qed.



Lemma line_loop_draws (col : Color) (dx dy sx sy ex ey : Z) (dz : R) :
  forall (fuel : nat) (b : Buffer) (x y err : Z) (z : R) (b' : Buffer),
    line_loop col dx dy sx sy ex ey dz fuel b x y err z = Some b' ->
    draws col (fun _ => True) b b'.
Proof.
  induction fuel as [| fuel IH]; intros b x y err z b' H; simpl in H;
    [discriminate |].
  assert (Hp : draws col (fun _ => True) b (line_plot col b x y z)).
  { unfold line_plot. destruct ((_ >=? 0)%Z && _)%bool;
      [apply put_pixel_draws; exact I | apply draws_refl]. }
  destruct (line_at_end ex ey x y).
  - injection H as <-. exact Hp.
  - destruct (line_step dx dy sx sy x y err) as [[x1 y1] err1].
    eapply draws_trans; [exact Hp | eapply IH; exact H].
Qed.

Lemma draw_line_draws_all
  (fuel : nat) (b b' : Buffer) (zoom : R) (p0 p1 : Vec3) (col : Color) :
  draw_line fuel b zoom p0 p1 col = Some b' ->
  draws col (fun _ => True) b b'.
Proof.
  intros H. unfold draw_line in H.
  destruct (project b zoom p0) as [[[x0 y0] z0] |];
    [| injection H as <-; apply draws_refl].
  destruct (project b zoom p1) as [[[x1 y1] z1] |];
    [| injection H as <-; apply draws_refl].
  eapply line_loop_draws; exact H.
Qed.

(** ** The line walk makes exactly [max dx dy + 1] passes *)

Section LineTight.
Variable col : Color.
Variables dx dy sx sy ex ey : Z.
Variables z0 z1 : R.
Hypothesis dx_nonneg : (0 <= dx)%Z.
Hypothesis dy_nonneg : (0 <= dy)%Z.
Hypothesis sx_unit : sx = 1%Z \/ sx = (-1)%Z.
Hypothesis sy_unit : sy = 1%Z \/ sy = (-1)%Z.
Hypothesis steps_pos : (0 < Z.max dx dy)%Z.

Lemma line_tight_end (x y err : Z) :
  line_tight dx dy sx sy ex ey 0 x y err -> line_at_end ex ey x y = true.
Proof.
  intros (ra & rb & Hinv & Hx & Hy).
  apply (line_at_end_iff dx dy sx sy ex ey sx_unit sy_unit ra rb x y err Hinv).
  destruct Hinv as (Ha & Hb & _ & _ & He).
  destruct (Z_le_gt_dec dy dx) as [H | H].
  - destruct (Hx H) as [<- Hb']. split; [reflexivity | nia].
  - destruct (Hy ltac:(lia)) as [<- Hb']. split; [nia | reflexivity].
Qed.

Lemma line_tight_step (rem x y err : Z) :
  line_tight dx dy sx sy ex ey rem x y err -> (0 < rem)%Z ->
  line_at_end ex ey x y = false /\
  exists x' y' err',
    line_step dx dy sx sy x y err = (x', y', err') /\
    line_tight dx dy sx sy ex ey (rem - 1) x' y' err'.
Proof.
  intros (ra & rb & Hinv & Hx & Hy) Hrem.
  split.
  - destruct (line_at_end ex ey x y) eqn:E; [| reflexivity].
    apply (line_at_end_iff dx dy sx sy ex ey sx_unit sy_unit
             ra rb x y err Hinv) in E.
    destruct (Z_le_gt_dec dy dx) as [H | H].
    + destruct (Hx H) as [-> _]. lia.
    + destruct (Hy ltac:(lia)) as [-> _]. lia.
  - destruct Hinv as (Ha & Hb & Hxe & Hye & He).
    unfold line_step, line_tight, line_inv.
    destruct (Z_le_gt_dec dy dx) as [H | H].
    + destruct (Hx H) as [-> Hbd].
      assert (E1 : (err * 2 >? - dy)%Z = true)
        by (rewrite Z.gtb_ltb; apply Z.ltb_lt; lia).
      rewrite E1.
      destruct (err * 2 <? dx)%Z eqn:E2;
        rewrite ?Z.ltb_lt, ?Z.ltb_ge in E2.
      * assert (rb <> 0)%Z by (intros ->; nia).
        do 3 eexists. split; [reflexivity |].
        exists (ra - 1)%Z, (rb - 1)%Z.
        split; [repeat split; nia |].
        split; [intros _; split; [reflexivity | nia] | intros; lia].
      * do 3 eexists. split; [reflexivity |].
        exists (ra - 1)%Z, rb.
        split; [repeat split; nia |].
        split; [intros _; split; [reflexivity | nia] | intros; lia].
    + destruct (Hy ltac:(lia)) as [-> Hbd].
      assert (E2 : (err * 2 <? dx)%Z = true) by (apply Z.ltb_lt; lia).
      destruct (err * 2 >? - dy)%Z eqn:E1;
        rewrite Z.gtb_ltb in E1; rewrite ?Z.ltb_lt, ?Z.ltb_ge in E1.
      * assert (ra <> 0)%Z by (intros ->; nia).
        rewrite E2.
        do 3 eexists. split; [reflexivity |].
        exists (ra - 1)%Z, (rb - 1)%Z.
        split; [repeat split; nia |].
        split; [intros; lia | intros _; split; [reflexivity | nia]].
      * rewrite E2.
        do 3 eexists. split; [reflexivity |].
        exists ra, (rb - 1)%Z.
        split; [repeat split; nia |].
        split; [intros; lia | intros _; split; [reflexivity | nia]].
Qed.

Lemma line_tight_range (rem x y err : Z) :
  line_tight dx dy sx sy ex ey rem x y err -> (0 <= rem <= Z.max dx dy)%Z.
Proof.
  intros (ra & rb & (Ha & Hb & _) & Hx & Hy).
  destruct (Z_le_gt_dec dy dx) as [H | H].
  - destruct (Hx H) as [-> _]. lia.
  - destruct (Hy ltac:(lia)) as [-> _]. lia.
Qed.

Variables steps dz : R.
Hypothesis steps_def : steps = IZR (Z.max dx dy).
Hypothesis dz_def : dz = (z1 - z0) / steps.

Lemma depth_on_line_at (rem : Z) :
  (0 <= rem <= Z.max dx dy)%Z ->
  depth_on_line z0 z1 (z0 + (steps - IZR rem) * dz + 0.01).
Proof.
  intros Hr. unfold depth_on_line.
  assert (Hs : 0 < steps)
    by (rewrite steps_def; apply IZR_lt in steps_pos; exact steps_pos).
  assert (H0 : 0 <= IZR rem <= steps).
  { rewrite steps_def. split; [apply IZR_le; lia | apply IZR_le; lia]. }
  set (t := (steps - IZR rem) / steps).
  assert (Ht : 0 <= t <= 1).
  { subst t. split.
    - apply Rmult_le_pos; [lra |]. apply Rlt_le, Rinv_0_lt_compat, Hs.
    - apply (Rmult_le_reg_r steps); [exact Hs |].
      unfold Rdiv. rewrite Rmult_assoc, Rinv_l by lra. lra. }
  replace (z0 + (steps - IZR rem) * dz) with (z0 + t * (z1 - z0))
    by (subst t; rewrite dz_def; field; lra).
  unfold Rmin, Rmax. destruct (Rle_dec z0 z1); nra.
Qed.

Lemma line_loop_exact :
  forall (n : nat) (fuel : nat) (b : Buffer) (x y err : Z) (z : R),
    line_tight dx dy sx sy ex ey (Z.of_nat n) x y err ->
    z = z0 + (steps - IZR (Z.of_nat n)) * dz ->
    ((fuel <= n)%nat ->
       line_loop col dx dy sx sy ex ey dz fuel b x y err z = None) /\
    ((n < fuel)%nat ->
       exists b',
         line_loop col dx dy sx sy ex ey dz fuel b x y err z = Some b' /\
         draws col (depth_on_line z0 z1) b b').
Proof.
  induction n as [| n IH]; intros fuel b x y err z Ht Hz.
  - split; intros Hf.
    + replace fuel with 0%nat by lia. reflexivity.
    + destruct fuel as [| fuel]; [lia |]. simpl.
      rewrite (line_tight_end x y err Ht).
      eexists. split; [reflexivity |].
      unfold line_plot. destruct ((_ >=? 0)%Z && _)%bool;
        [| apply draws_refl].
      apply put_pixel_draws. rewrite Hz.
      apply depth_on_line_at. simpl. lia.
  - destruct (line_tight_step _ x y err Ht ltac:(lia))
      as (Hend & x' & y' & err' & Hs & Ht').
    replace (Z.of_nat (S n) - 1)%Z with (Z.of_nat n) in Ht' by lia.
    assert (Hz' : z + dz = z0 + (steps - IZR (Z.of_nat n)) * dz).
    { rewrite Hz. replace (Z.of_nat (S n)) with (Z.of_nat n + 1)%Z by lia.
      rewrite plus_IZR. ring. }
    assert (Hp : draws col (depth_on_line z0 z1) b (line_plot col b x y z)).
    { unfold line_plot. destruct ((_ >=? 0)%Z && _)%bool;
        [| apply draws_refl].
      apply put_pixel_draws. rewrite Hz.
      apply depth_on_line_at. apply (line_tight_range _ x y err Ht). }
    split; intros Hf.
    + destruct fuel as [| fuel]; [reflexivity |]. simpl.
      rewrite Hend, Hs.
      apply (IH fuel (line_plot col b x y z) x' y' err' (z + dz) Ht' Hz').
      lia.
    + destruct fuel as [| fuel]; [lia |]. simpl.
      rewrite Hend, Hs.
      destruct (IH fuel (line_plot col b x y z) x' y' err' (z + dz) Ht' Hz')
        as [_ H2].
      destruct (H2 ltac:(lia)) as (b' & E & D).
      exists b'. split; [exact E |].
      eapply draws_trans; [exact Hp | exact D].
Qed.
End LineTight.

Lemma line_inv_init (x0 y0 x1 y1 : R) :
  line_inv (Z.abs (trunc x1 - trunc x0)) (Z.abs (trunc y1 - trunc y0))
           (if Rlt_dec x0 x1 then 1%Z else (-1)%Z)
           (if Rlt_dec y0 y1 then 1%Z else (-1)%Z)
           (trunc x1) (trunc y1)
           (Z.abs (trunc x1 - trunc x0)) (Z.abs (trunc y1 - trunc y0))
           (trunc x0) (trunc y0)
           (Z.abs (trunc x1 - trunc x0) - Z.abs (trunc y1 - trunc y0)).
Proof.
  unfold line_inv.
  assert (Hx : (if Rlt_dec x0 x1 then trunc x0 <= trunc x1
                else trunc x1 <= trunc x0)%Z)
    by (destruct (Rlt_dec x0 x1); apply trunc_le; lra).
  assert (Hy : (if Rlt_dec y0 y1 then trunc y0 <= trunc y1
                else trunc y1 <= trunc y0)%Z)
    by (destruct (Rlt_dec y0 y1); apply trunc_le; lra).
  destruct (Rlt_dec x0 x1), (Rlt_dec y0 y1); repeat split; lia.
Qed.

Lemma Rmax_IZR (a b : Z) : Rmax (IZR a) (IZR b) = IZR (Z.max a b).
Proof.
  unfold Rmax. destruct (Rle_dec (IZR a) (IZR b)) as [H | H].
  - apply le_IZR in H. rewrite Z.max_r by exact H. reflexivity.
  - assert (b < a)%Z by (apply lt_IZR; lra).
    rewrite Z.max_l by lia. reflexivity.
Qed.

Lemma depth_on_line_start (z0 z1 : R) : depth_on_line z0 z1 (z0 + 0.01).
Proof.
  unfold depth_on_line, Rmin, Rmax. destruct (Rle_dec z0 z1); lra.
Qed.

Lemma draw_line_exact_all
  (fuel : nat) (b : Buffer) (zoom : R) (p0 p1 : Vec3) (col : Color) :
  ((fuel < line_bound b zoom p0 p1)%nat ->
     draw_line fuel b zoom p0 p1 col = None) /\
  ((line_bound b zoom p0 p1 <= fuel)%nat ->
     exists b',
       draw_line fuel b zoom p0 p1 col = Some b' /\
       draws col (depth_on_line (vz p0) (vz p1)) b b').
Proof.
  unfold line_bound, draw_line.
  destruct (project b zoom p0) as [[[x0 y0] z0] |] eqn:E0;
    [| split; [lia | intros _; eexists; split;
                     [reflexivity | apply draws_refl]]].
  destruct (project b zoom p1) as [[[x1 y1] z1] |] eqn:E1;
    [| split; [lia | intros _; eexists; split;
                     [reflexivity | apply draws_refl]]].
  destruct (project_some_depth _ _ _ _ _ _ E0) as [-> _].
  destruct (project_some_depth _ _ _ _ _ _ E1) as [-> _].
  set (dx := Z.abs (trunc x1 - trunc x0)).
  set (dy := Z.abs (trunc y1 - trunc y0)).
  assert (Hdx : (0 <= dx)%Z) by apply Z.abs_nonneg.
  assert (Hdy : (0 <= dy)%Z) by apply Z.abs_nonneg.
  pose proof (line_inv_init x0 y0 x1 y1) as Hinit. fold dx dy in Hinit.
  rewrite Rmax_IZR.
  destruct (Z.eq_dec (Z.max dx dy) 0) as [Hz | Hnz].
  - (* both extents are zero: one pass *)
    rewrite Hz. simpl Z.to_nat.
    assert (Hend : line_at_end (trunc x1) (trunc y1) (trunc x0) (trunc y0)
                   = true).
    { destruct Hinit as (_ & _ & Hx & Hy & _).
      unfold line_at_end. apply andb_true_iff.
      rewrite !Z.eqb_eq. nia. }
    split; intros Hf.
    + replace fuel with 0%nat by lia. reflexivity.
    + destruct fuel as [| fuel]; [lia |]. simpl. rewrite Hend.
      eexists. split; [reflexivity |].
      unfold line_plot. destruct ((_ >=? 0)%Z && _)%bool;
        [| apply draws_refl].
      apply put_pixel_draws, depth_on_line_start.
  - assert (Hpos : (0 < Z.max dx dy)%Z) by lia.
    assert (Hs : IZR (Z.max dx dy) > 0) by (apply IZR_lt in Hpos; exact Hpos).
    destruct (Rgt_dec (IZR (Z.max dx dy)) 0) as [_ | Hc]; [| contradiction].
    assert (Ht : line_tight dx dy
                   (if Rlt_dec x0 x1 then 1%Z else (-1)%Z)
                   (if Rlt_dec y0 y1 then 1%Z else (-1)%Z)
                   (trunc x1) (trunc y1)
                   (Z.of_nat (Z.to_nat (Z.max dx dy)))
                   (trunc x0) (trunc y0) (dx - dy)).
    { exists dx, dy. split; [exact Hinit |].
      rewrite Z2Nat.id by lia. split; intros H; split; lia. }
    assert (Hsx : (if Rlt_dec x0 x1 then 1%Z else (-1)%Z) = 1%Z \/
                  (if Rlt_dec x0 x1 then 1%Z else (-1)%Z) = (-1)%Z)
      by (destruct (Rlt_dec x0 x1); auto).
    assert (Hsy : (if Rlt_dec y0 y1 then 1%Z else (-1)%Z) = 1%Z \/
                  (if Rlt_dec y0 y1 then 1%Z else (-1)%Z) = (-1)%Z)
      by (destruct (Rlt_dec y0 y1); auto).
    assert (Hz : vz p0 = vz p0 + (IZR (Z.max dx dy)
                                  - IZR (Z.of_nat (Z.to_nat (Z.max dx dy))))
                                 * ((vz p1 - vz p0) / IZR (Z.max dx dy))).
    { rewrite Z2Nat.id by lia. ring. }
    pose proof (line_loop_exact col dx dy _ _ (trunc x1) (trunc y1)
                  (vz p0) (vz p1) Hdx Hdy Hsx Hsy Hpos
                  (IZR (Z.max dx dy))
                  ((vz p1 - vz p0) / IZR (Z.max dx dy))
                  eq_refl eq_refl
                  (Z.to_nat (Z.max dx dy)) fuel b
                  (trunc x0) (trunc y0) (dx - dy)%Z (vz p0) Ht Hz)
      as [H1 H2].
    split; intros Hf; [apply H1; lia | apply H2; lia].
Qed.

Lemma line_bound_demo : line_bound demo_buf 5 demo_p0 demo_p1 = 12%nat.
Proof.
  unfold line_bound. rewrite project_demo_p0, project_demo_p1.
  rewrite (trunc_eq 1 1), (trunc_eq 12.4 12) by (simpl; lra).
  reflexivity.
Qed.

(** ** The 32-bit line walk: overflow, and agreement with the walk over [Z] *)

Lemma wrap32_id (z : Z) :
  (-2147483648 <= z <= 2147483647)%Z -> wrap32 z = z.
Proof. intros H. unfold wrap32. rewrite Z.mod_small; lia. Qed.

Lemma int_of_double_range (d : R) :
  screen_range d -> int_of_double d = trunc d.
Proof.
  unfold screen_range, int_of_double, INT_MIN, INT_MAX. intros H.
  replace ((-2147483648 <=? trunc d)%Z) with true
    by (symmetry; apply Z.leb_le; lia).
  replace ((trunc d <=? 2147483647)%Z) with true
    by (symmetry; apply Z.leb_le; lia).
  reflexivity.
Qed.

Section LineLoop32Facts.
Variable col : Color.
Variables dx dy sx sy ex ey : Z.
Variable dz : R.
Hypothesis dx_small : (0 <= dx <= 536870912)%Z.
Hypothesis dy_small : (0 <= dy <= 536870912)%Z.
Hypothesis sx_unit : sx = 1%Z \/ sx = (-1)%Z.
Hypothesis sy_unit : sy = 1%Z \/ sy = (-1)%Z.
Hypothesis ex_small : (Z.abs ex <= 268435456)%Z.
Hypothesis ey_small : (Z.abs ey <= 268435456)%Z.

Lemma line_step32_eq (rem x y err : Z) :
  line_tight dx dy sx sy ex ey rem x y err ->
  line_step32 dx dy sx sy x y err = line_step dx dy sx sy x y err.
Proof.
  intros (ra & rb & (Ha & Hb & Hx & Hy & He) & Hx' & Hy').
  assert (Herr : (-1610612736 <= 2 * err <= 1610612736)%Z).
  { destruct (Z_le_gt_dec dy dx) as [H | H].
    - destruct (Hx' H) as [_ Hb']. lia.
    - destruct (Hy' ltac:(lia)) as [_ Hb']. lia. }
  assert (Hxr : (-805306368 <= x <= 805306368)%Z)
    by (destruct sx_unit as [-> | ->]; lia).
  assert (Hyr : (-805306368 <= y <= 805306368)%Z)
    by (destruct sy_unit as [-> | ->]; lia).
  unfold line_step32, line_step.
  rewrite (wrap32_id (err * 2)), (wrap32_id (- dy)),
          (wrap32_id (err - dy)), (wrap32_id (x + sx))
    by (destruct sx_unit as [-> | ->]; lia).
  destruct (err * 2 >? - dy)%Z;
    rewrite (wrap32_id (_ + dx)), (wrap32_id (y + sy))
      by (destruct sy_unit as [-> | ->]; lia);
    reflexivity.
Qed.

Hypothesis steps_pos : (0 < Z.max dx dy)%Z.

Lemma line_loop32_eq :
  forall (n fuel : nat) (b : Buffer) (x y err : Z) (z : R),
    line_tight dx dy sx sy ex ey (Z.of_nat n) x y err ->
    line_loop32 col dx dy sx sy ex ey dz fuel b x y err z
    = line_loop col dx dy sx sy ex ey dz fuel b x y err z.
Proof.
  induction n as [| n IH]; intros fuel b x y err z Ht;
    (destruct fuel as [| fuel]; [reflexivity |]); simpl.
  - rewrite (line_tight_end dx dy sx sy ex ey (proj1 dx_small) (proj1 dy_small)
               sx_unit sy_unit steps_pos x y err Ht).
    reflexivity.
  - destruct (line_tight_step dx dy sx sy ex ey (proj1 dx_small)
                (proj1 dy_small) sx_unit sy_unit steps_pos
                (Z.of_nat (S n)) x y err Ht ltac:(lia))
      as (Hend & x' & y' & err' & Hs & Ht').
    replace (Z.of_nat (S n) - 1)%Z with (Z.of_nat n) in Ht' by lia.
    rewrite Hend, (line_step32_eq _ x y err Ht), Hs.
    apply IH. exact Ht'.
Qed.
End LineLoop32Facts.

(** With both end points in range the 32-bit walk is the walk over
    unbounded integers. *)
Lemma draw_line32_refines
  (fuel : nat) (b : Buffer) (zoom : R) (p0 p1 : Vec3) (col : Color) :
  line_in_range b zoom p0 p1 ->
  draw_line32 fuel b zoom p0 p1 col = draw_line fuel b zoom p0 p1 col.
Proof.
  unfold line_in_range, draw_line32, draw_line.
  destruct (project b zoom p0) as [[[x0 y0] z0] |]; [| reflexivity].
  destruct (project b zoom p1) as [[[x1 y1] z1] |]; [| reflexivity].
  intros (Rx0 & Ry0 & Rx1 & Ry1).
  rewrite !int_of_double_range by assumption.
  unfold screen_range in *.
  rewrite (wrap32_id (trunc x1 - trunc x0)),
          (wrap32_id (trunc y1 - trunc y0)) by lia.
  rewrite (wrap32_id (Z.abs (trunc x1 - trunc x0))),
          (wrap32_id (Z.abs (trunc y1 - trunc y0))) by lia.
  set (dx := Z.abs (trunc x1 - trunc x0)).
  set (dy := Z.abs (trunc y1 - trunc y0)).
  assert (Hdx : (0 <= dx <= 536870912)%Z) by (subst dx; lia).
  assert (Hdy : (0 <= dy <= 536870912)%Z) by (subst dy; lia).
  rewrite (wrap32_id (dx - dy)) by lia.
  pose proof (line_inv_init x0 y0 x1 y1) as Hinit. fold dx dy in Hinit.
  destruct (Z.eq_dec (Z.max dx dy) 0) as [Hz | Hnz].
  - destruct fuel as [| fuel]; [reflexivity |]. simpl.
    assert (Hend : line_at_end (trunc x1) (trunc y1) (trunc x0) (trunc y0)
                   = true).
    { destruct Hinit as (_ & _ & Hx & Hy & _).
      unfold line_at_end. apply andb_true_iff.
      rewrite !Z.eqb_eq. nia. }
    rewrite Hend. reflexivity.
  - assert (Hsx : (if Rlt_dec x0 x1 then 1%Z else (-1)%Z) = 1%Z \/
                  (if Rlt_dec x0 x1 then 1%Z else (-1)%Z) = (-1)%Z)
      by (destruct (Rlt_dec x0 x1); auto).
    assert (Hsy : (if Rlt_dec y0 y1 then 1%Z else (-1)%Z) = 1%Z \/
                  (if Rlt_dec y0 y1 then 1%Z else (-1)%Z) = (-1)%Z)
      by (destruct (Rlt_dec y0 y1); auto).
    apply (line_loop32_eq col dx dy _ _ (trunc x1) (trunc y1) _
             Hdx Hdy Hsx Hsy Rx1 Ry1 ltac:(lia) (Z.to_nat (Z.max dx dy))).
    exists dx, dy. split; [exact Hinit |].
    rewrite Z2Nat.id by lia. split; intros H; split; lia.
Qed.

Lemma trunc_neg_eq (d : R) (z : Z) :
  d < 0 -> IZR z - 1 < d <= IZR z -> trunc d = z.
Proof.
  intros Hd Hz. unfold trunc.
  destruct (Rle_dec 0 d); [lra |].
  unfold Zceil.
  assert (H : Zfloor (- d) = (- z)%Z)
    by (apply Zfloor_eq; rewrite opp_IZR; lra).
  lia.
Qed.

Lemma project_far_p0 :
  project demo_buf 5 far_p0 = Some (1073741824.5, 1, -5).
Proof.
  unfold project, far_p0; simpl.
  destruct (Rge_dec (-5) (-0.5)); [lra |].
  destruct (Rle_dec (-5) (-100)); [lra |].
  destruct (Rlt_dec 2 (1 * 2)); [lra |].
  repeat f_equal; lra.
Qed.

Lemma project_far_p1 :
  project demo_buf 5 far_p1 = Some (-1073741824.5, 1, -5).
Proof.
  unfold project, far_p1; simpl.
  destruct (Rge_dec (-5) (-0.5)); [lra |].
  destruct (Rle_dec (-5) (-100)); [lra |].
  destruct (Rlt_dec 2 (1 * 2)); [lra |].
  repeat f_equal; lra.
Qed.

Lemma line_loop32_stuck (col : Color) (dz : R) :
  forall (fuel : nat) (b : Buffer) (z : R),
    line_loop32 col INT_MIN 0 (-1) (-1) (-1073741824) 1 dz
                fuel b 1073741824 1 INT_MIN z = None.
Proof.
  induction fuel as [| fuel IH]; intros b z; [reflexivity |].
  simpl line_loop32.
  change (line_at_end (-1073741824) 1 1073741824 1) with false.
  change (line_step32 INT_MIN 0 (-1) (-1) 1073741824 1 INT_MIN)
    with (1073741824%Z, 1%Z, INT_MIN).
  cbv iota beta. apply IH.
Qed.

(** C10 (as stated, refuted).  On [demo_buf] at zoom [5], [project]
    accepts [far_p0] and [far_p1], whose screen abscissas truncate to
    [2^30] and [- 2^30].  Then [(int)x1 - (int)x0] is [- 2^31], of which
    [abs] is [INT_MIN] again: [dx] and [err] are [INT_MIN], [err * 2] wraps
    to [0], neither [0 > -dy] nor [0 < dx] holds, so no pass moves [x] or
    [y] and the [break] is never reached, whatever the number of passes
    allowed. *)
Lemma draw_line32_overflow_loops :
  project demo_buf 5 far_p0 = Some (1073741824.5, 1, -5) /\
  project demo_buf 5 far_p1 = Some (-1073741824.5, 1, -5) /\
  forall fuel : nat, draw_line32 fuel demo_buf 5 far_p0 far_p1 red = None.
Proof.
  split; [exact project_far_p0 |]. split; [exact project_far_p1 |].
  intros fuel. unfold draw_line32.
  rewrite project_far_p0, project_far_p1.
  assert (E0 : int_of_double 1073741824.5 = 1073741824%Z).
  { unfold int_of_double.
    rewrite (trunc_eq 1073741824.5 1073741824) by (simpl; lra).
    reflexivity. }
  assert (E1 : int_of_double (-1073741824.5) = (-1073741824)%Z).
  { unfold int_of_double.
    rewrite (trunc_neg_eq (-1073741824.5) (-1073741824)) by (simpl; lra).
    reflexivity. }
  assert (Ey : int_of_double 1 = 1%Z).
  { unfold int_of_double.
    rewrite (trunc_eq 1 1) by (simpl; lra). reflexivity. }
  rewrite E0, E1, Ey.
  destruct (Rlt_dec 1073741824.5 (-1073741824.5)) as [H | _]; [lra |].
  destruct (Rlt_dec 1 1) as [H | _]; [lra |].
  change (wrap32 (Z.abs (wrap32 (-1073741824 - 1073741824)))) with INT_MIN.
  change (wrap32 (Z.abs (wrap32 (1 - 1)))) with 0%Z.
  change (wrap32 (INT_MIN - 0)) with INT_MIN.
  apply line_loop32_stuck.
Qed.

(** C10 (amended).  Termination of the line walk on 32-bit [int]: when
    both end points pass [project] and their truncated screen coordinates
    have magnitude at most [2^28], the [while (1)] loop of [draw_line]
    reaches its [break] after at most [max dx dy + 1] passes, so
    [draw_line] returns a buffer for every larger bound on the number of
    passes. *)
Theorem draw_line32_terminates
  (b : Buffer) (zoom : R) (p0 p1 : Vec3) (col : Color)
  (x0 y0 z0 x1 y1 z1 : R) :
  project b zoom p0 = Some (x0, y0, z0) ->
  project b zoom p1 = Some (x1, y1, z1) ->
  screen_range x0 -> screen_range y0 ->
  screen_range x1 -> screen_range y1 ->
  forall fuel : nat,
    (Z.max (Z.abs (trunc x1 - trunc x0)) (Z.abs (trunc y1 - trunc y0))
       < Z.of_nat fuel)%Z ->
    exists b', draw_line32 fuel b zoom p0 p1 col = Some b'.
Proof.
  intros H0 H1 Rx0 Ry0 Rx1 Ry1 fuel Hfuel.
  rewrite draw_line32_refines
    by (unfold line_in_range; rewrite H0, H1; auto).
  destruct (draw_line_exact_all fuel b zoom p0 p1 col) as [_ H2].
  destruct H2 as (b' & E & _); [| exists b'; exact E].
  unfold line_bound. rewrite H0, H1. lia.
Qed.

Lemma screen_range_small (d : R) : -4000 <= d <= 4000 -> screen_range d.
Proof.
  intros H. unfold screen_range.
  assert (H1 : (trunc (-4000) <= trunc d)%Z) by (apply trunc_le; lra).
  assert (H2 : (trunc d <= trunc 4000)%Z) by (apply trunc_le; lra).
  rewrite (trunc_neg_eq (-4000) (-4000)) in H1 by lra.
  rewrite (trunc_IZR 4000) in H2 by lia. lia.
Qed.

Lemma draw_line32_terminates_witness :
  exists b', draw_line32 12 demo_buf 5 demo_p0 demo_p1 red = Some b'.
Proof.
  apply (draw_line32_terminates demo_buf 5 demo_p0 demo_p1 red
           1 1 (-5) 12.4 1 (-5) project_demo_p0 project_demo_p1);
    try (apply screen_range_small; lra).
  rewrite (trunc_eq 1 1), (trunc_eq 12.4 12) by (simpl; lra).
  simpl; lia.
Defined.

(** X15.  With both end points in the range where no [int] operation
    overflows, the loop of [draw_line] on 32-bit [int] makes exactly
    [line_bound] passes: with both end points accepted that is
    [max dx dy + 1], where [dx] and [dy] are the extents between the
    truncated end points, so [draw_line] returns exactly when it is
    allowed that many passes.  When it returns, the dimensions and the
    allocation of the framebuffer are kept, every colour it stored is the
    line colour, and every depth it stored lies on the segment between the
    depths of the two end points, shifted by the bias [0.01]. *)
Theorem draw_line32_exact
  (fuel : nat) (b : Buffer) (zoom : R) (p0 p1 : Vec3) (col : Color) :
  line_in_range b zoom p0 p1 ->
  (draw_line32 fuel b zoom p0 p1 col = None <->
     (fuel < line_bound b zoom p0 p1)%nat) /\
  (forall b',
      draw_line32 fuel b zoom p0 p1 col = Some b' ->
      same_dims b b' /\ (wf_buffer b -> wf_buffer b') /\
      painted_with col b b' /\
      depths_from (depth_on_line (vz p0) (vz p1)) b b').
Proof.
  intros Hr. rewrite (draw_line32_refines fuel b zoom p0 p1 col Hr).
  destruct (draw_line_exact_all fuel b zoom p0 p1 col) as [H1 H2].
  split.
  - split; [| exact H1].
    intros Hn.
    destruct (Nat.lt_ge_cases fuel (line_bound b zoom p0 p1)) as [H | H];
      [exact H |].
    destruct (H2 H) as (b' & E & _). congruence.
  - intros b' E.
    destruct (Nat.lt_ge_cases fuel (line_bound b zoom p0 p1)) as [H | H].
    + rewrite (H1 H) in E. discriminate.
    + destruct (H2 H) as (b'' & E' & D).
      assert (b'' = b') by congruence. subst b''. exact D.
Qed.

Lemma line_in_range_demo : line_in_range demo_buf 5 demo_p0 demo_p1.
Proof.
  unfold line_in_range. rewrite project_demo_p0, project_demo_p1.
  repeat split; apply screen_range_small; lra.
Qed.

Lemma draw_line32_exact_witness :
  draw_line32 11 demo_buf 5 demo_p0 demo_p1 red = None /\
  forall b',
    draw_line32 12 demo_buf 5 demo_p0 demo_p1 red = Some b' ->
    wf_buffer b'.
Proof.
  split.
  - apply (proj1 (draw_line32_exact 11 demo_buf 5 demo_p0 demo_p1 red
                    line_in_range_demo)).
    rewrite line_bound_demo. lia.
  - intros b' E.
    apply (proj1 (proj2 (proj2 (draw_line32_exact 12 demo_buf 5
                                  demo_p0 demo_p1 red line_in_range_demo)
                           b' E))).
    exact demo_buf_wf.
Defined.

(** ** A whole frame of the cube *)

Lemma project_dims (b b' : Buffer) (zoom : R) (p : Vec3) :
  same_dims b b' -> project b' zoom p = project b zoom p.
Proof. intros [Hw Hh]. unfold project. rewrite Hw, Hh. reflexivity. Qed.

Lemma line_bound_dims (b b' : Buffer) (zoom : R) (p0 p1 : Vec3) :
  same_dims b b' -> line_bound b' zoom p0 p1 = line_bound b zoom p0 p1.
Proof.
  intros H. unfold line_bound. rewrite !(project_dims b b' zoom _ H).
  reflexivity.
Qed.

Lemma depths_from_weaken (P Q : R -> Prop) (b b' : Buffer) :
  (forall d, P d -> Q d) -> depths_from P b b' -> depths_from Q b b'.
Proof.
  intros HPQ H j. destruct (H j) as [[H1 | H1] [H2 | H2]]; split; auto.
Qed.

Lemma keeps_refl (P : R -> Prop) (b : Buffer) : keeps P b b.
Proof.
  split; [split; reflexivity |]. split; [auto |].
  intros j; split; auto.
Qed.

Lemma keeps_trans (P : R -> Prop) (b1 b2 b3 : Buffer) :
  keeps P b1 b2 -> keeps P b2 b3 -> keeps P b1 b3.
Proof.
  intros ((Hw1 & Hh1) & Wf1 & Pd1) ((Hw2 & Hh2) & Wf2 & Pd2).
  split; [split; congruence |]. split; [auto |].
  intros j; split.
  - destruct (Pd1 j) as [[H | H] _], (Pd2 j) as [[H' | H'] _];
      try (left; congruence); right; try assumption.
    rewrite H'. exact H.
  - destruct (Pd1 j) as [_ [H | H]], (Pd2 j) as [_ [H' | H']];
      try (left; congruence); right; try assumption.
    rewrite H'. exact H.
Qed.

Lemma draws_keeps (c : Color) (P Q : R -> Prop) (b b' : Buffer) :
  (forall d, P d -> Q d) -> draws c P b b' -> keeps Q b b'.
Proof.
  intros HPQ (H1 & H2 & _ & H4).
  split; [exact H1 |]. split; [exact H2 |].
  apply (depths_from_weaken P Q); assumption.
Qed.

Lemma vert_at_in (verts : list Vec3) (i : Z) :
  (0 <= i < Z.of_nat (Datatypes.length verts))%Z ->
  In (vert_at verts i) verts.
Proof. intros H. unfold vert_at. apply nth_In. lia. Qed.

Lemma transform_verts_length (rx ry rz : R) :
  Datatypes.length (transform_verts rx ry rz) = 8%nat.
Proof. unfold transform_verts. rewrite length_map. reflexivity. Qed.

Lemma cube_vert_depth (rx ry rz : R) (i : Z) :
  (0 <= i <= 7)%Z -> -7 < vz (vert_at (transform_verts rx ry rz) i) < -3.
Proof.
  intros H. apply (transform_verts_window rx ry rz), vert_at_in.
  rewrite transform_verts_length. lia.
Qed.

Lemma face_vert_range (i k : Z) :
  (0 <= i <= 5)%Z -> (0 <= k <= 3)%Z ->
  (0 <= face_vert (face_at i) k <= 7)%Z.
Proof.
  intros Hi Hk.
  assert (H : (i = 0 \/ i = 1 \/ i = 2 \/ i = 3 \/ i = 4 \/ i = 5)%Z) by lia.
  assert (H' : (k = 0 \/ k = 1 \/ k = 2 \/ k = 3)%Z) by lia.
  destruct H as [-> | [-> | [-> | [-> | [-> | ->]]]]];
    destruct H' as [-> | [-> | [-> | ->]]];
    unfold face_vert, face_at; simpl; lia.
Qed.

Lemma edges_range (v0 v1 : Z) :
  In (v0, v1) edges -> (0 <= v0 <= 7)%Z /\ (0 <= v1 <= 7)%Z.
Proof.
  unfold edges; simpl.
  intros H;
    repeat (destruct H as [H | H]; [injection H as <- <-; lia |]).
  contradiction.
Qed.

Lemma depth_between_cube (v0 v1 v2 : Vec3) (d : R) :
  -7 < vz v0 < -3 -> -7 < vz v1 < -3 -> -7 < vz v2 < -3 ->
  depth_between v0 v1 v2 d -> cube_depth d.
Proof.
  intros H0 H1 H2 [Hd _]. unfold cube_depth.
  revert Hd. unfold Rmin, Rmax.
  destruct (Rle_dec (vz v1) (vz v2)); repeat destruct (Rle_dec _ _); lra.
Qed.

Lemma depth_on_line_cube (z0 z1 d : R) :
  -7 < z0 < -3 -> -7 < z1 < -3 -> depth_on_line z0 z1 d -> cube_depth d.
Proof.
  intros H0 H1. unfold depth_on_line, cube_depth, Rmin, Rmax.
  destruct (Rle_dec z0 z1); lra.
Qed.

Lemma fill_face_keeps (zoom rx ry rz : R) (b : Buffer) (f : Face) :
  (0 <= f_idx f <= 5)%Z ->
  keeps cube_depth b (fill_face zoom (transform_verts rx ry rz) b f).
Proof.
  intros Hi. unfold fill_face.
  set (V := transform_verts rx ry rz).
  assert (Hv : forall k, (0 <= k <= 3)%Z ->
                         -7 < vz (vert_at V (face_vert (face_at (f_idx f)) k)) < -3).
  { intros k Hk. apply cube_vert_depth, face_vert_range; assumption. }
  eapply keeps_trans.
  - eapply draws_keeps; [| apply fill_tri_draws_all].
    intros d.
    apply depth_between_cube;
      [apply (Hv 0%Z) | apply (Hv 1%Z) | apply (Hv 2%Z)]; lia.
  - eapply draws_keeps; [| apply fill_tri_draws_all].
    intros d.
    apply depth_between_cube;
      [apply (Hv 0%Z) | apply (Hv 2%Z) | apply (Hv 3%Z)]; lia.
Qed.

Lemma fill_faces_keeps (zoom rx ry rz : R) (faces : list Face) :
  (forall f, In f faces -> (0 <= f_idx f <= 5)%Z) ->
  forall b,
    keeps cube_depth b
          (fold_left (fill_face zoom (transform_verts rx ry rz)) faces b).
Proof.
  induction faces as [| f fs IH]; intros Hv b; simpl.
  - apply keeps_refl.
  - eapply keeps_trans.
    + apply fill_face_keeps. apply Hv. left. reflexivity.
    + apply IH. intros g Hg. apply Hv. right. exact Hg.
Qed.

Lemma draw_edges_total (zoom rx ry rz : R) (b : Buffer) (fuel : nat) :
  forall es : list (Z * Z),
    (forall e, In e es -> In e edges) ->
    (forall e, In e es ->
               (line_bound b zoom
                           (vert_at (transform_verts rx ry rz) (fst e))
                           (vert_at (transform_verts rx ry rz) (snd e))
                <= fuel)%nat) ->
    forall b1,
      same_dims b b1 ->
      exists b',
        fold_left
          (fun ob e =>
             draw_edge fuel zoom (transform_verts rx ry rz) (fst e) (snd e) ob)
          es (Some b1) = Some b' /\
        keeps cube_depth b1 b'.
Proof.
  induction es as [| [v0 v1] es IH]; intros Hin Hf b1 Hd; simpl.
  - exists b1. split; [reflexivity | apply keeps_refl].
  - set (V := transform_verts rx ry rz) in *.
    assert (Hb : (line_bound b1 zoom (vert_at V v0) (vert_at V v1) <= fuel)%nat).
    { rewrite (line_bound_dims b b1) by exact Hd.
      apply (Hf (v0, v1)). left. reflexivity. }
    destruct (proj2 (draw_line_exact_all fuel b1 zoom (vert_at V v0)
                       (vert_at V v1) (rgb 255 255 255)) Hb)
      as (b2 & E & D).
    rewrite E.
    destruct (edges_range v0 v1 (Hin (v0, v1) (or_introl eq_refl)))
      as [R0 R1].
    assert (K : keeps cube_depth b1 b2).
    { eapply draws_keeps; [| exact D].
      intros d.
      apply depth_on_line_cube; subst V; apply cube_vert_depth; assumption. }
    destruct (IH (fun e He => Hin e (or_intror He))
                 (fun e He => Hf e (or_intror He)) b2) as (b' & E' & K').
    { destruct Hd as [Hw Hh], K as [[Hw' Hh'] _]. split; congruence. }
    exists b'. split; [exact E' | eapply keeps_trans; eassumption].
Qed.

Lemma cube_fuel_bound (b : Buffer) (zoom : R) (verts : list Vec3) :
  forall e, In e edges ->
            (line_bound b zoom (vert_at verts (fst e)) (vert_at verts (snd e))
             <= cube_fuel b zoom verts)%nat.
Proof.
  unfold cube_fuel. generalize edges as es.
  induction es as [| a es IH]; intros e He; simpl in *; [contradiction |].
  destruct He as [-> | He]; [lia |].
  specialize (IH e He). lia.
Qed.

Lemma render_cube_total_all
  (fuel : nat) (b : Buffer) (zoom time_global rx ry rz : R) :
  (cube_fuel b zoom (transform_verts rx ry rz) <= fuel)%nat ->
  exists b',
    render_cube fuel b zoom time_global rx ry rz = Some b' /\
    keeps cube_depth b b'.
Proof.
  intros Hf. unfold render_cube.
  set (V := transform_verts rx ry rz) in *.
  set (vis := visible_faces time_global V).
  pose proof (sort_faces_perm vis) as Hp.
  assert (Hv : forall f, In f (sort_faces vis) -> (0 <= f_idx f <= 5)%Z).
  { intros f Hf'. apply (visible_faces_idx_range time_global V).
    apply (Permutation_in f Hp Hf'). }
  pose proof (fill_faces_keeps zoom rx ry rz (sort_faces vis) Hv b) as K1.
  fold V in K1.
  set (b1 := fold_left (fill_face zoom V) (sort_faces vis) b) in *.
  rewrite edge_loop_filter.
  destruct (draw_edges_total zoom rx ry rz b fuel
              (filter (fun e => (edge_shared (sort_faces vis) (fst e) (snd e)
                                 =? 1)%Z) edges)) with (b1 := b1)
    as (b' & E & K2).
  - intros e He. apply filter_In in He. tauto.
  - intros e He. apply filter_In in He.
    eapply Nat.le_trans; [apply cube_fuel_bound; tauto | exact Hf].
  - destruct K1 as [H _]. exact H.
  - exists b'. split; [exact E | eapply keeps_trans; eassumption].
Qed.

(** X16.  A frame of the cube always completes: for all rotation angles,
    zoom and time, [render_cube] returns a framebuffer as soon as it is
    allowed [cube_fuel] passes per edge (the largest [line_bound] among the
    twelve edges); the result has the same dimensions and is still
    allocated, and every depth it stored lies strictly between [-7] and
    [-2.99], far above the empty sentinel. *)
Theorem render_cube_total
  (fuel : nat) (b : Buffer) (zoom time_global rot_x rot_y rot_z : R) :
  (cube_fuel b zoom (transform_verts rot_x rot_y rot_z) <= fuel)%nat ->
  exists b',
    render_cube fuel b zoom time_global rot_x rot_y rot_z = Some b' /\
    same_dims b b' /\ (wf_buffer b -> wf_buffer b') /\
    depths_from cube_depth b b'.
Proof.
  intros Hf. unfold render_cube.
  set (V := transform_verts rot_x rot_y rot_z) in *.
  set (vis := visible_faces time_global V).
  pose proof (sort_faces_perm vis) as Hp.
  assert (Hv : forall f, In f (sort_faces vis) -> (0 <= f_idx f <= 5)%Z).
  { intros f Hf'. apply (visible_faces_idx_range time_global V).
    apply (Permutation_in f Hp Hf'). }
  pose proof (fill_faces_keeps zoom rot_x rot_y rot_z (sort_faces vis) Hv b)
    as K1.
  fold V in K1.
  set (b1 := fold_left (fill_face zoom V) (sort_faces vis) b) in *.
  rewrite edge_loop_filter.
  destruct (draw_edges_total zoom rot_x rot_y rot_z b fuel
              (filter (fun e => (edge_shared (sort_faces vis) (fst e) (snd e)
                                 =? 1)%Z) edges)) with (b1 := b1)
    as (b' & E & K2).
  - intros e He. apply filter_In in He. tauto.
  - intros e He. apply filter_In in He.
    eapply Nat.le_trans; [apply cube_fuel_bound; tauto | exact Hf].
  - destruct K1 as [H _]. exact H.
  - exists b'. split; [exact E |].
    apply (keeps_trans cube_depth b b1 b' K1 K2).
Qed.

Lemma render_cube_total_witness :
  exists b',
    render_cube (cube_fuel demo_buf 0.6 (transform_verts 0 0 0))
                demo_buf 0.6 0 0 0 0 = Some b' /\
    same_dims demo_buf b' /\ (wf_buffer demo_buf -> wf_buffer b') /\
    depths_from cube_depth demo_buf b'.
Proof.
  apply (render_cube_total _ demo_buf 0.6 0 0 0 0). apply le_n.
Defined.

(** ** The face sort orders by depth *)

Lemma sort_swap_length (i j : Z) (l : list Face) :
  Datatypes.length (sort_swap i j l) = Datatypes.length l.
Proof.
  unfold sort_swap. destruct (Rgt_dec _ _); [| reflexivity].
  rewrite !upd_length. reflexivity.
Qed.

Lemma sort_swap_get (i j k : Z) (l : list Face) :
  (0 <= i < j)%Z -> (j < Z.of_nat (Datatypes.length l))%Z -> (0 <= k)%Z ->
  face_get (sort_swap i j l) k
  = if Rgt_dec (f_depth (face_get l i)) (f_depth (face_get l j)) then
      if (k =? i)%Z then face_get l j
      else if (k =? j)%Z then face_get l i else face_get l k
    else face_get l k.
Proof.
  intros Hij Hj Hk. unfold sort_swap.
  destruct (Rgt_dec _ _) as [H | H]; [| reflexivity].
  unfold face_get.
  destruct (k =? j)%Z eqn:Ej.
  - apply Z.eqb_eq in Ej. subst k.
    replace (j =? i)%Z with false by (symmetry; apply Z.eqb_neq; lia).
    apply nth_upd_same. rewrite upd_length. lia.
  - apply Z.eqb_neq in Ej.
    rewrite nth_upd_other by lia.
    destruct (k =? i)%Z eqn:Ei.
    + apply Z.eqb_eq in Ei. subst k. apply nth_upd_same. lia.
    + apply Z.eqb_neq in Ei. apply nth_upd_other. lia.
Qed.

Lemma sort_swap_inv (i j : Z) (l : list Face) :
  (0 <= i < j)%Z -> (j < Z.of_nat (Datatypes.length l))%Z ->
  sorted_upto l i -> least_upto l i j ->
  sorted_upto (sort_swap i j l) i /\ least_upto (sort_swap i j l) i (j + 1).
Proof.
  intros Hij Hj HQ HP.
  assert (G : forall k, (0 <= k)%Z ->
                face_get (sort_swap i j l) k
                = if Rgt_dec (f_depth (face_get l i)) (f_depth (face_get l j))
                  then if (k =? i)%Z then face_get l j
                       else if (k =? j)%Z then face_get l i else face_get l k
                  else face_get l k)
    by (intros; apply sort_swap_get; assumption).
  split.
  - intros a k Ha Hk. rewrite sort_swap_length in Hk.
    rewrite !G by lia.
    destruct (Rgt_dec _ _) as [H | H]; [| apply HQ; lia].
    replace (a =? i)%Z with false by (symmetry; apply Z.eqb_neq; lia).
    replace (a =? j)%Z with false by (symmetry; apply Z.eqb_neq; lia).
    destruct (k =? i)%Z; [apply HQ; lia |].
    destruct (k =? j)%Z; apply HQ; lia.
  - intros k Hk. rewrite !G by lia.
    rewrite Z.eqb_refl.
    destruct (Rgt_dec _ _) as [H | H].
    + replace (k =? i)%Z with false by (symmetry; apply Z.eqb_neq; lia).
      destruct (k =? j)%Z eqn:Ej; [lra |].
      apply Z.eqb_neq in Ej.
      assert (Hl := HP k ltac:(lia)). lra.
    + destruct (Z.eq_dec k j) as [-> | Hne]; [lra |].
      apply HP. lia.
Qed.

Lemma sort_inner_inv (i : Z) :
  forall (cnt : nat) (j : Z) (l : list Face),
    (0 <= i < j)%Z ->
    (j + Z.of_nat cnt <= Z.of_nat (Datatypes.length l))%Z ->
    sorted_upto l i -> least_upto l i j ->
    let l' := for_from cnt j (sort_swap i) l in
    Datatypes.length l' = Datatypes.length l /\
    sorted_upto l' i /\ least_upto l' i (j + Z.of_nat cnt).
Proof.
  induction cnt as [| cnt IH]; intros j l Hij Hn HQ HP; cbn [for_from].
  - simpl. replace (j + 0)%Z with j by lia. auto.
  - destruct (sort_swap_inv i j l Hij ltac:(lia) HQ HP) as [HQ' HP'].
    destruct (IH (j + 1)%Z (sort_swap i j l)) as (L & Q & P); auto;
      try (rewrite sort_swap_length); try lia.
    cbv zeta. rewrite L, sort_swap_length.
    replace (j + Z.of_nat (S cnt))%Z with (j + 1 + Z.of_nat cnt)%Z by lia.
    auto.
Qed.

Lemma sort_outer_inv (n : Z) :
  forall (cnt : nat) (i : Z) (l : list Face),
    (0 <= i)%Z -> Z.of_nat (Datatypes.length l) = n ->
    (i + Z.of_nat cnt <= n - 1 \/ cnt = 0%nat)%Z ->
    sorted_upto l i ->
    let l' := for_from cnt i
                (fun i fs => for_range (i + 1) (n - 1) (sort_swap i) fs) l in
    Z.of_nat (Datatypes.length l') = n /\
    sorted_upto l' (i + Z.of_nat cnt).
Proof.
  induction cnt as [| cnt IH]; intros i l Hi Hn Hc HQ; cbn [for_from].
  - simpl. replace (i + 0)%Z with i by lia. auto.
  - destruct Hc as [Hc | Hc]; [| discriminate].
    set (l1 := for_range (i + 1) (n - 1) (sort_swap i) l).
    destruct (sort_inner_inv i (Z.to_nat (n - 1 - (i + 1) + 1)) (i + 1)%Z l)
      as (L & Q & P); try lia; auto.
    { intros k Hk. lia. }
    fold (for_range (i + 1) (n - 1) (sort_swap i) l) in L, Q, P. fold l1 in L, Q, P.
    assert (Q1 : sorted_upto l1 (i + 1)).
    { intros a k Ha Hk.
      destruct (Z.eq_dec a i) as [-> | Hne].
      - apply P. rewrite L in Hk. lia.
      - apply Q; lia. }
    destruct (IH (i + 1)%Z l1) as (L' & Q'); auto; try lia.
    cbv zeta.
    replace (i + Z.of_nat (S cnt))%Z with (i + 1 + Z.of_nat cnt)%Z by lia.
    auto.
Qed.

(** X17.  The exchange sort of [render_cube] puts the visible faces in
    ascending order of centroid depth (farthest first, as the painter's
    order needs) and only rearranges them: the result is a permutation of
    its input. *)
Theorem sort_faces_sorts (faces : list Face) :
  depth_sorted (sort_faces faces) /\ Permutation (sort_faces faces) faces.
Proof.
  split; [| apply sort_faces_perm].
  unfold sort_faces.
  set (n := Z.of_nat (Datatypes.length faces)).
  pose proof (sort_outer_inv n (Z.to_nat (n - 2 - 0 + 1)) 0%Z faces) as H.
  cbv zeta in H.
  fold (for_range 0 (n - 2)
          (fun i fs => for_range (i + 1) (n - 1) (sort_swap i) fs) faces) in H.
  set (l' := for_range 0 (n - 2)
               (fun i fs => for_range (i + 1) (n - 1) (sort_swap i) fs) faces)
    in *.
  destruct H as (L & Q); try lia; try reflexivity.
  { intros a k Ha. lia. }
  intros i j Hij.
  specialize (Q (Z.of_nat i) (Z.of_nat j)).
  unfold face_get in Q. rewrite !Nat2Z.id in Q.
  apply Q; lia.
Qed.

(** ** Compositor: the tracked background after a return to default *)

Lemma emit_both_pen (t b : Color) (p : Pen) :
  last_bg (snd (emit_cell (mkCell true true t b) p)) = b /\
  bg_is_default (snd (emit_cell (mkCell true true t b) p)) = false.
Proof.
  destruct p as [lf lb d].
  unfold emit_cell, emit_fg, emit_bg; simpl.
  destruct (color_eqb t lf); simpl;
    destruct (color_eqb b lb) eqn:E; simpl; split; auto;
    apply color_eqb_eq in E; auto.
Qed.

Lemma emit_top_after_both (t x : Color) (q : Pen) :
  bg_is_default q = false ->
  In OutBgDefault (fst (emit_cell (mkCell true false t x) q)) /\
  last_bg (snd (emit_cell (mkCell true false t x) q)) = last_bg q /\
  bg_is_default (snd (emit_cell (mkCell true false t x) q)) = true.
Proof.
  destruct q as [lf lb d]; simpl. intros ->.
  unfold emit_cell, emit_fg, emit_bg_default; simpl.
  destruct (color_eqb t lf); simpl; auto.
Qed.

Lemma emit_both_same_bg (t b : Color) (q : Pen) :
  last_bg q = b ->
  count_bg (fst (emit_cell (mkCell true true t b) q)) = 0%nat.
Proof.
  destruct q as [lf lb d]; simpl. intros ->.
  unfold emit_cell, emit_fg, emit_bg, count_bg; simpl.
  destruct (color_eqb t lf); simpl; rewrite color_eqb_refl; reflexivity.
Qed.

(** X18.  The tracked background colour is not invalidated when the
    compositor switches the background back to default.  For a cell with
    both sub-pixels set, followed by a cell with only its top sub-pixel
    set, followed by a cell like the first: the second cell emits the
    default-background instruction, and the third cell, whose required
    background is its bottom colour, emits no background instruction at
    all. *)
Theorem stale_background (p : Pen) (t b t' x : Color) :
  let c1 := mkCell true true t b in
  let c2 := mkCell true false t' x in
  let p1 := snd (emit_cell c1 p) in
  let p2 := snd (emit_cell c2 p1) in
  In OutBgDefault (fst (emit_cell c2 p1)) /\
  cell_bg c1 = Some b /\
  count_bg (fst (emit_cell c1 p2)) = 0%nat /\
  bg_is_default p2 = true /\ last_bg p2 = b.
Proof.
  intros c1 c2 p1 p2.
  destruct (emit_both_pen t b p) as [Hb Hd]. fold c1 p1 in Hb, Hd.
  destruct (emit_top_after_both t' x p1 Hd) as (H1 & H2 & H3).
  fold c2 p2 in H1, H2, H3.
  assert (Hp2 : last_bg p2 = b) by congruence.
  repeat split; auto.
  apply emit_both_same_bg. exact Hp2.
Qed.

(** ** Sub-pixel rows outside the screen in a line *)

(** X19.  Rows addressed by the line walk: a sub-pixel row of [-2] or
    less, or of [2 * height] or more, is not plotted; but the sub-pixel row
    [-1], which is above the screen, is plotted into the same slot as the
    sub-pixel row [1] (the bottom slot of cell row 0), because the integer
    division and remainder by 2 truncate toward zero. *)
Theorem line_plot_rows (col : Color) (b : Buffer) (x y : Z) (z : R) :
  ((y <= -2)%Z \/ (2 * height b <= y)%Z -> line_plot col b x y z = b) /\
  line_plot col b x (-1) z = line_plot col b x 1 z /\
  ((0 < height b)%Z ->
     line_plot col b x (-1) z = put_pixel b x 0 false col (z + 0.01)).
Proof.
  split; [| split].
  - intros H. unfold line_plot.
    destruct ((Z.quot y 2 >=? 0)%Z && (Z.quot y 2 <? height b)%Z)%bool eqn:E;
      [| reflexivity].
    apply andb_true_iff in E. destruct E as [E1 E2].
    rewrite Z.geb_leb in E1. apply Z.leb_le in E1. apply Z.ltb_lt in E2.
    destruct H as [H | H].
    + assert (Z.quot y 2 <= -1)%Z.
      { pose proof (Z.quot_rem' y 2).
        pose proof (Z.rem_bound_pos_neg y 2 ltac:(lia) ltac:(lia)). lia. }
      lia.
    + assert (height b <= Z.quot y 2)%Z.
      { destruct (Z_lt_le_dec y 0) as [Hy | Hy]; [lia |].
        pose proof (Z.quot_rem' y 2).
        pose proof (Z.rem_bound_pos y 2 ltac:(lia) ltac:(lia)). lia. }
      lia.
  - reflexivity.
  - intros Hh. unfold line_plot.
    change (Z.quot (-1) 2) with 0%Z. change (Z.rem (-1) 2) with (-1)%Z.
    replace (0 <? height b)%Z with true by (symmetry; apply Z.ltb_lt; lia).
    reflexivity.
Qed.

Lemma line_plot_rows_witness :
  line_plot red demo_buf 1 (-2) (-5) = demo_buf /\
  line_plot red demo_buf 1 (-1) (-5)
  = put_pixel demo_buf 1 0 false red (-5 + 0.01).
Proof.
  split.
  - apply (proj1 (line_plot_rows red demo_buf 1 (-2) (-5))). left. lia.
  - apply (proj2 (proj2 (line_plot_rows red demo_buf 1 0 (-5)))).
    simpl. lia.
Defined.

(** ** One pass of the main loop *)

Lemma fold_draw_edge_none (fuel : nat) (zoom : R) (verts : list Vec3)
      (es : list (Z * Z)) :
  fold_left (fun ob e => draw_edge fuel zoom verts (fst e) (snd e) ob) es None
  = None.
Proof. induction es as [| e es IH]; simpl; auto. Qed.

Lemma draw_edges_keeps (fuel : nat) (zoom rx ry rz : R) :
  forall (es : list (Z * Z)) (b1 b' : Buffer),
    (forall e, In e es -> In e edges) ->
    fold_left
      (fun ob e =>
         draw_edge fuel zoom (transform_verts rx ry rz) (fst e) (snd e) ob)
      es (Some b1) = Some b' ->
    keeps cube_depth b1 b'.
Proof.
  induction es as [| [v0 v1] es IH]; intros b1 b' Hin H; simpl in H.
  - injection H as <-. apply keeps_refl.
  - set (V := transform_verts rx ry rz) in *.
    destruct (draw_line_exact_all fuel b1 zoom (vert_at V v0) (vert_at V v1)
                (rgb 255 255 255)) as [Hnone Hsome].
    destruct (Nat.lt_ge_cases fuel
                (line_bound b1 zoom (vert_at V v0) (vert_at V v1)))
      as [Hlt | Hge].
    + rewrite (Hnone Hlt), fold_draw_edge_none in H. discriminate.
    + destruct (Hsome Hge) as (b2 & E & D). rewrite E in H.
      destruct (edges_range v0 v1 (Hin (v0, v1) (or_introl eq_refl)))
        as [R0 R1].
      eapply keeps_trans.
      * eapply draws_keeps; [| exact D].
        intros d.
        apply depth_on_line_cube; subst V; apply cube_vert_depth; assumption.
      * apply (IH b2 b' (fun e He => Hin e (or_intror He)) H).
Qed.

Lemma render_cube_keeps
  (fuel : nat) (b b' : Buffer) (zoom time_global rx ry rz : R) :
  render_cube fuel b zoom time_global rx ry rz = Some b' ->
  keeps cube_depth b b'.
Proof.
  unfold render_cube. intros H.
  set (V := transform_verts rx ry rz) in *.
  set (vis := visible_faces time_global V) in *.
  pose proof (sort_faces_perm vis) as Hp.
  assert (Hv : forall f, In f (sort_faces vis) -> (0 <= f_idx f <= 5)%Z).
  { intros f Hf'. apply (visible_faces_idx_range time_global V).
    apply (Permutation_in f Hp Hf'). }
  pose proof (fill_faces_keeps zoom rx ry rz (sort_faces vis) Hv b) as K1.
  fold V in K1.
  rewrite edge_loop_filter in H.
  eapply keeps_trans; [exact K1 |].
  eapply draw_edges_keeps; [| exact H].
  intros e He. apply filter_In in He. tauto.
Qed.

Lemma handle_input_range (key : option ascii) (zoom : R) :
  0.1 <= zoom <= 5 -> 0.1 <= snd (handle_input key zoom) <= 5.
Proof.
  intros Hz. unfold handle_input.
  destruct key as [c |]; [| simpl; lra].
  destruct (Ascii.eqb c "q" || Ascii.eqb c "Q" || Ascii.eqb c key_esc)%bool;
    [simpl; lra |].
  destruct (Ascii.eqb c "+" || Ascii.eqb c "=")%bool.
  - simpl. destruct (Rgt_dec (zoom * 1.1) 5); lra.
  - destruct (Ascii.eqb c "-" || Ascii.eqb c "_")%bool; [| simpl; lra].
    simpl. destruct (Rlt_dec (zoom / 1.1) 0.1); lra.
Qed.

Lemma buf_clear_wf (b : Buffer) :
  (0 <= width b)%Z -> (0 <= height b)%Z -> wf_buffer (buf_clear b).
Proof.
  intros Hw Hh. unfold wf_buffer, buf_clear, buf_size; simpl.
  rewrite !repeat_length. repeat split; auto.
Qed.

Lemma buf_clear_dims (b b2 : Buffer) :
  same_dims b b2 -> buf_clear b2 = buf_clear b.
Proof.
  intros [Hw Hh]. unfold buf_clear, buf_size. rewrite Hw, Hh. reflexivity.
Qed.

Lemma main_step_inv
  (fuel : nat) (dt : R) (key : option ascii) (s s' : Scene)
  (b b' : Buffer) (out : list Out) :
  main_step fuel dt key s b = StepFrame s' b' out ->
  exists dt' zoom,
    dt' = (if Rgt_dec dt 0.1 then 0.1 else dt) /\
    handle_input key (sc_zoom s) = (true, zoom) /\
    render_cube fuel (buf_clear b) zoom (sc_time s + dt')
                (sc_rot_x s + 0.6 * dt') (sc_rot_y s + 0.8 * dt')
                (sc_rot_z s + 0.4 * dt') = Some b' /\
    s' = mkScene (sc_time s + dt') (sc_rot_x s + 0.6 * dt')
                 (sc_rot_y s + 0.8 * dt') (sc_rot_z s + 0.4 * dt') zoom /\
    out = buf_render b'.
Proof.
  unfold main_step.
  set (dt' := if Rgt_dec dt 0.1 then 0.1 else dt).
  destruct (handle_input key (sc_zoom s)) as [go zoom].
  destruct go; cbn [negb]; cbv iota; [| discriminate].
  destruct (render_cube fuel (buf_clear b) zoom (sc_time s + dt')
              (sc_rot_x s + 0.6 * dt') (sc_rot_y s + 0.8 * dt')
              (sc_rot_z s + 0.4 * dt')) as [b1 |] eqn:E; [| discriminate].
  intros H. injection H as <- <- <-.
  exists dt', zoom. repeat split; auto.
Qed.

Lemma nth_clear_top (b : Buffer) (j : nat) :
  (j < buf_size b)%nat -> nth j (top_depth (buf_clear b)) 0 = empty_depth.
Proof. intros H. unfold buf_clear; cbn [top_depth]. apply nth_repeat_lt, H. Qed.

Lemma nth_clear_bot (b : Buffer) (j : nat) :
  (j < buf_size b)%nat -> nth j (bot_depth (buf_clear b)) 0 = empty_depth.
Proof. intros H. unfold buf_clear; cbn [bot_depth]. apply nth_repeat_lt, H. Qed.

Lemma buf_clear_same_dims (b : Buffer) : same_dims b (buf_clear b).
Proof. split; reflexivity. Qed.

(** X20.  A pass of the main loop that produces a frame: the text is the
    composite of the rendered framebuffer, which has the dimensions of the
    old one and is allocated; every cell of it is either still empty (depth
    [-1e10]) or holds a depth strictly between [-7] and [-2.99], in both
    slots; the animation time advances by the elapsed time but by no more
    than [0.1]; and a zoom within [[0.1, 5.0]] stays within it. *)
Theorem main_step_frame
  (fuel : nat) (dt : R) (key : option ascii) (s s' : Scene)
  (b b' : Buffer) (out : list Out) :
  main_step fuel dt key s b = StepFrame s' b' out ->
  out = buf_render b' /\
  same_dims b b' /\
  ((0 <= width b)%Z -> (0 <= height b)%Z -> wf_buffer b') /\
  (forall x y : Z,
      in_bounds b x y = true ->
      (nth (cell_index b x y) (top_depth b') 0 = empty_depth \/
       cube_depth (nth (cell_index b x y) (top_depth b') 0)) /\
      (nth (cell_index b x y) (bot_depth b') 0 = empty_depth \/
       cube_depth (nth (cell_index b x y) (bot_depth b') 0))) /\
  sc_time s' <= sc_time s + 0.1 /\
  (dt <= 0.1 -> sc_time s' = sc_time s + dt) /\
  (0.1 <= sc_zoom s <= 5 -> 0.1 <= sc_zoom s' <= 5).
Proof.
  intros H.
  destruct (main_step_inv _ _ _ _ _ _ _ _ H)
    as (dt' & zoom & Hdt & Hk & E & -> & ->).
  pose proof (handle_input_range key (sc_zoom s)) as Hz.
  rewrite Hk in Hz. cbn [snd] in Hz.
  destruct (render_cube_keeps _ _ _ _ _ _ _ _ E) as (Hd & Hwf & Hdep).
  pose proof (buf_clear_same_dims b) as [Hcw Hch].
  destruct Hd as [Hw Hh].
  split; [reflexivity |].
  split; [split; congruence |].
  split; [intros Hw' Hh'; apply Hwf, buf_clear_wf; assumption |].
  split; [| split; [| split]].
  - intros x y Hin.
    pose proof (cell_index_lt b x y Hin) as Hidx.
    destruct (Hdep (cell_index b x y)) as [Ht Hb].
    rewrite nth_clear_top in Ht by exact Hidx.
    rewrite nth_clear_bot in Hb by exact Hidx.
    split; assumption.
  - cbn [sc_time]. rewrite Hdt. destruct (Rgt_dec dt 0.1); lra.
  - cbn [sc_time]. intros Hle. rewrite Hdt. destruct (Rgt_dec dt 0.1); lra.
  - cbn [sc_zoom]. exact Hz.
Qed.

Lemma main_step_runs (dt : R) (s : Scene) (b : Buffer) :
  exists fuel s' b' out, main_step fuel dt None s b = StepFrame s' b' out.
Proof.
  unfold main_step. cbn [handle_input negb]. cbv iota.
  set (dt' := if Rgt_dec dt 0.1 then 0.1 else dt).
  destruct (render_cube_total_all
              (cube_fuel (buf_clear b) (sc_zoom s)
                 (transform_verts (sc_rot_x s + 0.6 * dt')
                                  (sc_rot_y s + 0.8 * dt')
                                  (sc_rot_z s + 0.4 * dt')))
              (buf_clear b) (sc_zoom s) (sc_time s + dt') _ _ _ (le_n _))
    as (b' & E & _).
  eexists. rewrite E. eauto.
Qed.

Lemma main_step_frame_witness :
  exists fuel s' b' out,
    main_step fuel 0.2 None demo_scene demo_buf = StepFrame s' b' out /\
    out = buf_render b' /\ same_dims demo_buf b' /\
    sc_time s' <= sc_time demo_scene + 0.1.
Proof.
  destruct (main_step_runs 0.2 demo_scene demo_buf)
    as (fuel & s' & b' & out & E).
  exists fuel, s', b', out.
  destruct (main_step_frame fuel 0.2 None demo_scene s' demo_buf b' out E)
    as (H1 & H2 & _ & _ & H5 & _).
  auto.
Defined.

(** ** The frame of the cube stays in the range of [int] *)

Lemma transform_vertex_box (rx ry rz : R) (c : Vec3) :
  dot c c = 3 ->
  -2 < vx (transform rx ry rz c) < 2 /\ -2 < vy (transform rx ry rz c) < 2.
Proof.
  intros Hc.
  assert (H : dot (sub (transform rx ry rz c) cam_offset)
                  (sub (transform rx ry rz c) cam_offset) = 3).
  { rewrite !transform_sub_offset, rot_z_dot, rot_y_dot, rot_x_dot.
    exact Hc. }
  set (t := transform rx ry rz c) in *.
  unfold dot, sub, cam_offset, v3 in H; cbn [vx vy vz] in H.
  pose proof (Rle_0_sqr (vx t)) as Hx.
  pose proof (Rle_0_sqr (vy t)) as Hy.
  pose proof (Rle_0_sqr (vz t - -5)) as Hz.
  unfold Rsqr in Hx, Hy, Hz.
  split; split; nra.
Qed.

Lemma cube_vert_box (rx ry rz : R) (i : Z) :
  (0 <= i <= 7)%Z ->
  -2 < vx (vert_at (transform_verts rx ry rz) i) < 2 /\
  -2 < vy (vert_at (transform_verts rx ry rz) i) < 2.
Proof.
  intros H.
  assert (Hin : In (vert_at (transform_verts rx ry rz) i)
                   (transform_verts rx ry rz)).
  { apply vert_at_in. rewrite transform_verts_length. lia. }
  unfold transform_verts in Hin at 2. apply in_map_iff in Hin.
  destruct Hin as (c & <- & Hc).
  apply transform_vertex_box, cube_vert_norm, Hc.
Qed.

Lemma project_cube_screen (b : Buffer) (zoom : R) (v : Vec3) (x y z : R) :
  size_caps b -> zoom_range zoom ->
  -2 < vx v < 2 -> -2 < vy v < 2 -> -7 < vz v < -3 ->
  project b zoom v = Some (x, y, z) ->
  screen_range x /\ screen_range y.
Proof.
  intros [Hw Hh] Hz Hx Hy Hd. unfold MAX_WIDTH in Hw. unfold MAX_HEIGHT in Hh.
  unfold zoom_range in Hz. unfold project.
  destruct (Rge_dec (vz v) (-0.5)); [discriminate |].
  destruct (Rle_dec (vz v) (-100)); [discriminate |].
  assert (HW : 0 <= IZR (width b) <= 400)
    by (split; apply IZR_le; lia).
  assert (HH : 0 <= IZR (height b) <= 300)
    by (split; apply IZR_le; lia).
  set (m := if Rlt_dec (IZR (width b)) (IZR (height b) * 2)
            then IZR (width b) else IZR (height b) * 2).
  assert (Hm : 0 <= m <= 400)
    by (subst m; destruct (Rlt_dec _ _); lra).
  set (f := Ropp 5 / vz v).
  assert (Hf : 0 < f < 5 / 3).
  { assert (E : f * vz v = -5) by (subst f; field; lra).
    split; nra. }
  set (s := m * 0.38 * zoom).
  assert (Hs : 0 <= s <= 760) by (subst s; nra).
  assert (Hxf : -4 <= vx v * f <= 4) by nra.
  assert (Hyf : -4 <= - vy v * f <= 4) by nra.
  assert (Hxs : -3040 <= vx v * f * s <= 3040).
  { generalize dependent (vx v * f). intros t Ht. split; nra. }
  assert (Hys : -3040 <= - vy v * f * s <= 3040).
  { generalize dependent (- vy v * f). intros t Ht. split; nra. }
  intros E; injection E as <- <- _.
  split; apply screen_range_small; lra.
Qed.

Lemma cube_edge_in_range (b : Buffer) (zoom rx ry rz : R) (v0 v1 : Z) :
  size_caps b -> zoom_range zoom -> In (v0, v1) edges ->
  line_in_range b zoom (vert_at (transform_verts rx ry rz) v0)
                (vert_at (transform_verts rx ry rz) v1).
Proof.
  intros Hc Hz He. destruct (edges_range v0 v1 He) as [R0 R1].
  unfold line_in_range.
  destruct (project b zoom (vert_at (transform_verts rx ry rz) v0))
    as [[[x0 y0] z0] |] eqn:E0; [| exact I].
  destruct (project b zoom (vert_at (transform_verts rx ry rz) v1))
    as [[[x1 y1] z1] |] eqn:E1; [| exact I].
  destruct (cube_vert_box rx ry rz v0 R0) as [A0 B0].
  destruct (cube_vert_box rx ry rz v1 R1) as [A1 B1].
  destruct (project_cube_screen b zoom _ x0 y0 z0 Hc Hz A0 B0
              (cube_vert_depth rx ry rz v0 R0) E0) as [S0 T0].
  destruct (project_cube_screen b zoom _ x1 y1 z1 Hc Hz A1 B1
              (cube_vert_depth rx ry rz v1 R1) E1) as [S1 T1].
  auto.
Qed.

Lemma size_caps_dims (b b' : Buffer) :
  same_dims b b' -> size_caps b -> size_caps b'.
Proof. intros [Hw Hh] [H1 H2]. unfold size_caps. rewrite Hw, Hh. auto. Qed.

Lemma draw_edges32_eq (fuel : nat) (zoom rx ry rz : R) (b : Buffer) :
  size_caps b -> zoom_range zoom ->
  forall es : list (Z * Z),
    (forall e, In e es -> In e edges) ->
    forall ob : option Buffer,
      (forall b1, ob = Some b1 -> same_dims b b1) ->
      fold_left
        (fun ob e =>
           draw_edge32 fuel zoom (transform_verts rx ry rz) (fst e) (snd e) ob)
        es ob
      = fold_left
          (fun ob e =>
             draw_edge fuel zoom (transform_verts rx ry rz) (fst e) (snd e) ob)
          es ob.
Proof.
  intros Hc Hz.
  induction es as [| [v0 v1] es IH]; intros Hin ob Hd; simpl;
    [reflexivity |].
  set (V := transform_verts rx ry rz) in *.
  assert (E : draw_edge32 fuel zoom V v0 v1 ob = draw_edge fuel zoom V v0 v1 ob).
  { destruct ob as [b1 |]; [| reflexivity]. simpl.
    apply draw_line32_refines. subst V.
    apply cube_edge_in_range;
      [apply (size_caps_dims b b1 (Hd b1 eq_refl) Hc) | exact Hz
      | apply Hin; left; reflexivity]. }
  rewrite E.
  apply IH; [intros e He; apply Hin; right; exact He |].
  intros b2 E2. destruct ob as [b1 |]; [| discriminate]. simpl in E2.
  destruct (draw_line_draws_all _ _ _ _ _ _ _ E2) as [[Hw Hh] _].
  destruct (Hd b1 eq_refl) as [Hw1 Hh1].
  split; congruence.
Qed.

Lemma render_cube32_eq
  (fuel : nat) (b : Buffer) (zoom time_global rx ry rz : R) :
  size_caps b -> zoom_range zoom ->
  render_cube32 fuel b zoom time_global rx ry rz
  = render_cube fuel b zoom time_global rx ry rz.
Proof.
  intros Hc Hz. unfold render_cube32, render_cube.
  set (V := transform_verts rx ry rz) in *.
  set (vis := visible_faces time_global V).
  pose proof (sort_faces_perm vis) as Hp.
  assert (Hv : forall f, In f (sort_faces vis) -> (0 <= f_idx f <= 5)%Z).
  { intros f Hf'. apply (visible_faces_idx_range time_global V).
    apply (Permutation_in f Hp Hf'). }
  pose proof (fill_faces_keeps zoom rx ry rz (sort_faces vis) Hv b) as K1.
  fold V in K1.
  rewrite !edge_loop_filter.
  apply (draw_edges32_eq fuel zoom rx ry rz b Hc Hz).
  - intros e He. apply filter_In in He. tauto.
  - intros b1 E. injection E as <-. destruct K1 as [H _]. exact H.
Qed.

(** X23.  A frame of the cube never leaves the range of [int]: for a
    framebuffer whose dimensions are not negative and within the caps of
    [get_term_size] and a zoom within the bounds [handle_input] keeps,
    whatever the rotation angles, both end points of each of the twelve
    edges project to screen coordinates whose truncations have magnitude
    at most [2^28], so that [render_cube] with the 32-bit line walk and
    [render_cube] with the walk over unbounded integers return the same
    result. *)
Theorem render_cube32_refines
  (fuel : nat) (b : Buffer) (zoom time_global rot_x rot_y rot_z : R) :
  size_caps b -> zoom_range zoom ->
  (forall v0 v1 : Z,
      In (v0, v1) edges ->
      line_in_range b zoom (vert_at (transform_verts rot_x rot_y rot_z) v0)
                    (vert_at (transform_verts rot_x rot_y rot_z) v1)) /\
  render_cube32 fuel b zoom time_global rot_x rot_y rot_z
  = render_cube fuel b zoom time_global rot_x rot_y rot_z.
Proof.
  intros Hc Hz. split.
  - intros v0 v1 He. destruct (edges_range v0 v1 He) as [R0 R1].
    set (V := transform_verts rot_x rot_y rot_z).
    unfold line_in_range.
    destruct (project b zoom (vert_at V v0)) as [[[x0 y0] z0] |] eqn:E0;
      [| exact I].
    destruct (project b zoom (vert_at V v1)) as [[[x1 y1] z1] |] eqn:E1;
      [| exact I].
    destruct (cube_vert_box rot_x rot_y rot_z v0 R0) as [A0 B0].
    destruct (cube_vert_box rot_x rot_y rot_z v1 R1) as [A1 B1].
    destruct (project_cube_screen b zoom _ x0 y0 z0 Hc Hz A0 B0
                (cube_vert_depth rot_x rot_y rot_z v0 R0) E0) as [S0 T0].
    destruct (project_cube_screen b zoom _ x1 y1 z1 Hc Hz A1 B1
                (cube_vert_depth rot_x rot_y rot_z v1 R1) E1) as [S1 T1].
    auto.
  - unfold render_cube32, render_cube.
    set (V := transform_verts rot_x rot_y rot_z) in *.
    set (vis := visible_faces time_global V).
    assert (Hv : forall f, In f (sort_faces vis) -> (0 <= f_idx f <= 5)%Z).
    { intros f Hf'. apply (visible_faces_idx_range time_global V).
      apply (Permutation_in f (sort_faces_perm vis) Hf'). }
    rewrite !edge_loop_filter.
    apply (draw_edges32_eq fuel zoom rot_x rot_y rot_z b Hc Hz).
    + intros e He. apply filter_In in He. tauto.
    + intros b1 E. injection E as <-.
      destruct (fill_faces_keeps zoom rot_x rot_y rot_z (sort_faces vis) Hv b)
        as [H _].
      exact H.
Qed.

Lemma demo_buf_caps : size_caps demo_buf.
Proof. unfold size_caps, MAX_WIDTH, MAX_HEIGHT; simpl; lia. Qed.

Lemma render_cube32_refines_witness :
  render_cube32 3 demo_buf 0.6 0 0.7 0.9 0.3
  = render_cube 3 demo_buf 0.6 0 0.7 0.9 0.3.
Proof.
  apply (proj2 (render_cube32_refines 3 demo_buf 0.6 0 0.7 0.9 0.3
                  demo_buf_caps ltac:(unfold zoom_range; lra))).
Defined.

Lemma screen_buffer_caps (b : Buffer) : screen_buffer b -> size_caps b.
Proof. intros ((Hw & Hh & _) & H1 & H2). split; lia. Qed.

Lemma main_step32_eq (fuel : nat) (dt : R) (key : option ascii)
                     (s : Scene) (b : Buffer) :
  size_caps b -> zoom_range (sc_zoom s) ->
  main_step32 fuel dt key s b = main_step fuel dt key s b.
Proof.
  intros Hc Hz. unfold main_step32, main_step.
  pose proof (handle_input_range key (sc_zoom s) Hz) as Hr.
  destruct (handle_input key (sc_zoom s)) as [go zoom].
  destruct go; cbn [negb]; cbv iota; [| reflexivity].
  rewrite render_cube32_eq; [reflexivity | | exact Hr].
  apply (size_caps_dims b); [| exact Hc]. split; reflexivity.
Qed.

Lemma main_step_total
  (dt : R) (key : option ascii) (s : Scene) (b : Buffer) :
  exists n : nat,
    forall fuel : nat,
      (n <= fuel)%nat -> main_step fuel dt key s b <> StepNoFuel.
Proof.
  unfold main_step.
  destruct (handle_input key (sc_zoom s)) as [go zoom].
  destruct go; cbn [negb]; cbv iota;
    [| exists 0%nat; intros; discriminate].
  set (dt' := if Rgt_dec dt 0.1 then 0.1 else dt).
  exists (cube_fuel (buf_clear b) zoom
            (transform_verts (sc_rot_x s + 0.6 * dt')
                             (sc_rot_y s + 0.8 * dt')
                             (sc_rot_z s + 0.4 * dt'))).
  intros fuel Hf.
  destruct (render_cube_total_all fuel (buf_clear b) zoom
              (sc_time s + dt') _ _ _ Hf) as (b' & E & _).
  rewrite E. discriminate.
Qed.

(** X21.  A pass of the main loop starts from a cleared framebuffer and
    always completes.  For an allocated framebuffer whose dimensions are
    not negative and within the caps of [get_term_size], and a zoom within
    the bounds [handle_input] keeps, with the line walk on 32-bit [int]:
    the result of the pass does not depend on what the framebuffer held
    before (only on its dimensions), there is a number of line-walk passes
    from which on the result is never [StepNoFuel], and the pass is the
    one [main_step] computes over unbounded integers. *)
Theorem main_step_fresh
  (dt : R) (key : option ascii) (s : Scene) (b : Buffer) :
  screen_buffer b -> zoom_range (sc_zoom s) ->
  (forall (fuel : nat) (b2 : Buffer),
      screen_buffer b2 -> same_dims b b2 ->
      main_step32 fuel dt key s b2 = main_step32 fuel dt key s b) /\
  (exists n : nat,
      forall fuel : nat,
        (n <= fuel)%nat -> main_step32 fuel dt key s b <> StepNoFuel) /\
  (forall fuel : nat,
      main_step32 fuel dt key s b = main_step fuel dt key s b).
Proof.
  intros Hb Hz.
  pose proof (screen_buffer_caps b Hb) as Hc.
  split; [| split].
  - intros fuel b2 Hb2 Hd.
    rewrite (main_step32_eq fuel dt key s b2 (screen_buffer_caps b2 Hb2) Hz),
            (main_step32_eq fuel dt key s b Hc Hz).
    unfold main_step. rewrite (buf_clear_dims b b2 Hd). reflexivity.
  - destruct (main_step_total dt key s b) as [n Hn].
    exists n. intros fuel Hf.
    rewrite main_step32_eq by assumption. apply Hn, Hf.
  - intros fuel. apply main_step32_eq; assumption.
Qed.

Lemma demo_scene_zoom : zoom_range (sc_zoom demo_scene).
Proof. unfold zoom_range, demo_scene; simpl; lra. Qed.

Lemma main_step_fresh_witness :
  main_step32 5 0.2 None demo_scene (put_pixel demo_buf 0 0 true red (-5))
  = main_step32 5 0.2 None demo_scene demo_buf.
Proof.
  apply (proj1 (main_step_fresh 0.2 None demo_scene demo_buf
                  demo_buf_screen demo_scene_zoom)).
  - split.
    + apply put_pixel_keeps_wf. exact demo_buf_wf.
    + destruct (put_pixel_dims demo_buf 0 0 true red (-5)) as [Hw Hh].
      rewrite Hw, Hh. exact (proj2 demo_buf_screen).
  - apply put_pixel_dims.
Defined.

(** ** The face records of a frame *)

Lemma rot_x_sub (a b : Vec3) (t : R) :
  sub (rot_x_apply a t) (rot_x_apply b t) = rot_x_apply (sub a b) t.
Proof. unfold sub, rot_x_apply, v3; simpl. f_equal; ring. Qed.

Lemma rot_y_sub (a b : Vec3) (t : R) :
  sub (rot_y_apply a t) (rot_y_apply b t) = rot_y_apply (sub a b) t.
Proof. unfold sub, rot_y_apply, v3; simpl. f_equal; ring. Qed.

Lemma rot_z_sub (a b : Vec3) (t : R) :
  sub (rot_z_apply a t) (rot_z_apply b t) = rot_z_apply (sub a b) t.
Proof. unfold sub, rot_z_apply, v3; simpl. f_equal; ring. Qed.

Lemma transform_sub (rx ry rz : R) (a b : Vec3) :
  sub (transform rx ry rz a) (transform rx ry rz b)
  = rot_z_apply (rot_y_apply (rot_x_apply (sub a b) rx) ry) rz.
Proof.
  rewrite <- rot_x_sub, <- rot_y_sub, <- rot_z_sub.
  rewrite <- !transform_sub_offset.
  unfold sub, cam_offset, v3; simpl. f_equal; ring.
Qed.

Lemma transform_edge_dot (rx ry rz : R) (a b c d : Vec3) :
  dot (sub (transform rx ry rz a) (transform rx ry rz b))
      (sub (transform rx ry rz c) (transform rx ry rz d))
  = dot (sub a b) (sub c d).
Proof.
  rewrite !transform_sub, rot_z_dot, rot_y_dot, rot_x_dot. reflexivity.
Qed.

Lemma cross_norm (a b : Vec3) :
  dot (cross a b) (cross a b) = dot a a * dot b b - dot a b * dot a b.
Proof. unfold dot, cross, v3; simpl. ring. Qed.

Lemma transform_mean4 (rx ry rz : R) (a b c d : Vec3) :
  scale (add (add (add (transform rx ry rz a) (transform rx ry rz b))
                  (transform rx ry rz c)) (transform rx ry rz d)) 0.25
  = transform rx ry rz (scale (add (add (add a b) c) d) 0.25).
Proof.
  unfold transform, scale, add, rot_z_apply, rot_y_apply, rot_x_apply, v3;
    cbn [vx vy vz].
  f_equal; lra.
Qed.

Lemma vert_at_transform (rx ry rz : R) (i : Z) :
  (0 <= i <= 7)%Z ->
  vert_at (transform_verts rx ry rz) i
  = transform rx ry rz (vert_at CUBE_VERTS i).
Proof.
  intros Hi. unfold vert_at, transform_verts.
  rewrite (nth_indep _ _ (transform rx ry rz (v3 0 0 0)))
    by (rewrite length_map; simpl; lia).
  apply map_nth.
Qed.

Lemma face_center_transform (rx ry rz : R) (i : Z) :
  (0 <= i <= 5)%Z ->
  face_center (transform_verts rx ry rz) i
  = transform rx ry rz (face_center CUBE_VERTS i).
Proof.
  intros Hi. unfold face_center.
  rewrite !vert_at_transform by (apply face_vert_range; lia).
  apply transform_mean4.
Qed.

Lemma cube_face_geometry (i : Z) :
  (0 <= i <= 5)%Z ->
  let f := face_at i in
  let c0 := vert_at CUBE_VERTS (face_vert f 0) in
  let c1 := vert_at CUBE_VERTS (face_vert f 1) in
  let c2 := vert_at CUBE_VERTS (face_vert f 2) in
  dot (sub c1 c0) (sub c1 c0) = 4 /\
  dot (sub c2 c0) (sub c2 c0) = 8 /\
  dot (sub c1 c0) (sub c2 c0) = 4 /\
  dot (face_center CUBE_VERTS i) (face_center CUBE_VERTS i) = 1.
Proof.
  intros Hi.
  assert (H : (i = 0 \/ i = 1 \/ i = 2 \/ i = 3 \/ i = 4 \/ i = 5)%Z) by lia.
  destruct H as [-> | [-> | [-> | [-> | [-> | ->]]]]];
    unfold face_center, face_at, face_vert, vert_at; simpl;
    unfold dot, sub, add, scale, v3; simpl; repeat split; lra.
Qed.

Lemma face_normal_unit (rx ry rz : R) (i : Z) :
  (0 <= i <= 5)%Z -> length (face_normal (transform_verts rx ry rz) i) = 1.
Proof.
  intros Hi. unfold face_normal.
  rewrite !vert_at_transform by (apply face_vert_range; lia).
  destruct (cube_face_geometry i Hi) as (H1 & H2 & H3 & _).
  cbv zeta in H1, H2, H3.
  set (c0 := vert_at CUBE_VERTS (face_vert (face_at i) 0)) in *.
  set (c1 := vert_at CUBE_VERTS (face_vert (face_at i) 1)) in *.
  set (c2 := vert_at CUBE_VERTS (face_vert (face_at i) 2)) in *.
  set (n := cross (sub (transform rx ry rz c1) (transform rx ry rz c0))
                  (sub (transform rx ry rz c2) (transform rx ry rz c0))).
  assert (Hn : dot n n = 16).
  { subst n. rewrite cross_norm, !transform_edge_dot, H1, H2, H3. lra. }
  assert (Hl : length n > 1e-8) by (apply length_ge_one; lra).
  unfold normalize.
  destruct (Rgt_dec (length n) 1e-8) as [Hg | Hc]; [| contradiction].
  unfold length in *. rewrite dot_scale, Hn.
  replace 16 with (4 * 4) by lra.
  rewrite sqrt_square by lra.
  replace (1 / 4 * (1 / 4) * (4 * 4)) with 1 by lra.
  apply sqrt_1.
Qed.

Lemma face_center_depth (rx ry rz : R) (i : Z) :
  (0 <= i <= 5)%Z ->
  -6 <= vz (face_center (transform_verts rx ry rz) i) <= -4.
Proof.
  intros Hi. rewrite face_center_transform by exact Hi.
  destruct (cube_face_geometry i Hi) as (_ & _ & _ & Hc).
  set (c := face_center CUBE_VERTS i) in *.
  assert (H : dot (sub (transform rx ry rz c) cam_offset)
                  (sub (transform rx ry rz c) cam_offset) = 1).
  { rewrite !transform_sub_offset, rot_z_dot, rot_y_dot, rot_x_dot.
    exact Hc. }
  set (t := transform rx ry rz c) in *.
  unfold dot, sub, cam_offset, v3 in H; cbn [vx vy vz] in H.
  assert (Hz : (vz t + 5) * (vz t + 5) <= 1).
  { pose proof (Rle_0_sqr (vx t - 0)) as Hx.
    pose proof (Rle_0_sqr (vy t - 0)) as Hy.
    unfold Rsqr in Hx, Hy.
    replace ((vz t + 5) * (vz t + 5)) with ((vz t - -5) * (vz t - -5)) by ring.
    lra. }
  split; nra.
Qed.

Lemma visible_faces_records (time_global : R) (verts : list Vec3) (f : Face) :
  In f (visible_faces time_global verts) ->
  exists i : Z,
    (0 <= i <= 5)%Z /\
    dot (face_normal verts i) (face_to_cam verts i) > 0 /\
    f = mkFace i (vz (face_center verts i)) (face_center verts i)
               (face_normal verts i)
               (calc_light time_global (face_normal verts i)).
Proof.
  unfold visible_faces, for_range.
  change (Z.to_nat (5 - 0 + 1)) with 6%nat.
  cbn [for_from].
  change (0 + 1)%Z with 1%Z. change (1 + 1)%Z with 2%Z.
  change (2 + 1)%Z with 3%Z. change (3 + 1)%Z with 4%Z.
  change (4 + 1)%Z with 5%Z.
  unfold cull_step.
  repeat match goal with
         | |- context [Rgt_dec ?u ?v] => destruct (Rgt_dec u v)
         end;
    cbn [app In]; intros H;
    repeat (destruct H as [<- | H];
            [eexists; (split; [| split; [| reflexivity]]);
             [lia | assumption] |]);
    contradiction.
Qed.

(** X22.  Every face record [render_cube] builds for a visible face of the
    cube, whatever the rotation angles and the time: its index is one of
    the six faces, its normal has length 1, its depth is the depth of its
    centroid and lies between [-6] and [-4], it passed the culling test,
    and its brightness lies between the ambient [0.15] and [1]. *)
Theorem visible_face_record
  (time_global rot_x rot_y rot_z : R) (f : Face) :
  In f (visible_faces time_global (transform_verts rot_x rot_y rot_z)) ->
  (0 <= f_idx f <= 5)%Z /\
  length (f_normal f) = 1 /\
  f_depth f = vz (f_center f) /\
  -6 <= f_depth f <= -4 /\
  dot (f_normal f) (normalize (scale (f_center f) (-1))) > 0 /\
  0.15 <= f_brightness f <= 1.
Proof.
  intros H.
  destruct (visible_faces_records _ _ f H) as (i & Hi & Hvis & ->).
  cbn [f_idx f_normal f_depth f_center f_brightness].
  split; [exact Hi |].
  split; [apply face_normal_unit; exact Hi |].
  split; [reflexivity |].
  split; [apply face_center_depth; exact Hi |].
  split; [exact Hvis |].
  set (n := face_normal (transform_verts rot_x rot_y rot_z) i).
  pose proof (diff1_nonneg time_global n) as H1.
  pose proof (diff2_nonneg n) as H2.
  pose proof (spec_nonneg time_global n) as H3.
  unfold calc_light, Rmin, light_sum, ambient.
  destruct (Rle_dec _ 1); lra.
Qed.

Lemma visible_face_record_witness :
  exists f : Face,
    In f (visible_faces 0 (transform_verts 0 0 0)) /\
    length (f_normal f) = 1 /\ -6 <= f_depth f <= -4 /\
    0.15 <= f_brightness f <= 1.
Proof.
  pose proof (visible_faces_zero_rotation 0) as H.
  destruct (visible_faces 0 (transform_verts 0 0 0)) as [| f l] eqn:E;
    [discriminate H |].
  exists f.
  assert (Hin : In f (visible_faces 0 (transform_verts 0 0 0)))
    by (rewrite E; left; reflexivity).
  rewrite <- E.
  destruct (visible_face_record 0 0 0 0 f Hin) as (_ & H1 & _ & H2 & _ & H3).
  auto.
Defined.
